(** * Open-CoWork: the agent tool-execution boundary

    A shallow embedding of the tool catalog of the desktop client
    (renderer/services/ai/tools.ts), of the main-process handlers it calls
    (main/ipc/index.ts, main/ipc/skillregistry.ipc.ts) and of the stores it
    mutates (the todo, question and browser stores under renderer/stores),
    followed by the properties of the specification that concern them, and
    by further properties of this code and of the code around it: the
    handlers of the permissions, of shell:execute and of fs:readFileBase64,
    the attachment store, the installers of skills and the client of the
    database (main/database.ts).

    Part I translates the program. Pure code is a function; a handler or a
    tool that calls a collaborator (the process-execution primitive, the
    file system, the regular-expression engine, the registry, the browser)
    takes the collaborator as an argument and returns what it would return
    or throw, with the calls it made where a property is about them.
    Part II states and proves the properties of the specification, and
    the last part the further ones. *)

From Stdlib Require Import ZArith NArith QArith Qround Lia Bool.
From stdpp Require Import gmap strings list fin_maps pretty.

Set Default Proof Using "Type".
Open Scope N_scope.

(* ===================================================================== *)
(** * Part I: the program                                                  *)
(* ===================================================================== *)

(** ** JavaScript strings

    A string is the sequence of its UTF-16 code units: the regular
    expressions of the command gate and of grep, [trim] and [split] depend
    on the character repertoire.  The text of the source is written with
    [u]. *)
Module JsString.

Definition ustring := list N.

(** A string literal of the source text, read as code units. *)
Definition u (s : string) : ustring :=
  map Ascii.N_of_ascii (String.list_ascii_of_string s).

Definition in_range (lo hi c : N) : bool := (lo <=? c) && (c <=? hi).

(** ECMAScript WhiteSpace and LineTerminator code points: the set of [\s]. *)
Definition is_line_terminator (c : N) : bool :=
  (c =? 10) || (c =? 13) || (c =? 8232) || (c =? 8233).

Definition is_space (c : N) : bool :=
  in_range 9 13 c || (c =? 32) || (c =? 160) || (c =? 5760)
  || in_range 8192 8202 c || (c =? 8232) || (c =? 8233) || (c =? 8239)
  || (c =? 8287) || (c =? 12288) || (c =? 65279).

(** The word characters of [\b] (no unicode flag): [A-Za-z0-9_]. *)
Definition is_word (c : N) : bool :=
  in_range 97 122 c || in_range 65 90 c || in_range 48 57 c || (c =? 95).

Definition to_upper (c : N) : N := if in_range 97 122 c then c - 32 else c.
Definition to_lower (c : N) : N := if in_range 65 90 c then c + 32 else c.

(** String.prototype.trim: strips white space and line terminators at
    both ends. *)
Fixpoint trim_start (s : ustring) : ustring :=
  match s with
  | c :: s' => if is_space c then trim_start s' else s
  | [] => []
  end.
Definition trim (s : ustring) : ustring := reverse (trim_start (reverse (trim_start s))).

(** [s.split('\n')]: never empty, one more piece than there are newlines. *)
Fixpoint split_lines_aux (cur : ustring) (s : ustring) : list ustring :=
  match s with
  | [] => [reverse cur]
  | c :: s' => if c =? 10 then reverse cur :: split_lines_aux [] s'
               else split_lines_aux (c :: cur) s'
  end.
Definition split_lines (s : ustring) : list ustring := split_lines_aux [] s.

(** [s.substring(0, n)] *)
Definition substring0 (n : nat) (s : ustring) : ustring := take n s.

(** Z.toString() for the integers that occur in messages. *)
Definition show_Z (z : Z) : ustring := u (pretty z).

(** JavaScript truthiness of a string. *)
Definition truthy (s : ustring) : bool := match s with [] => false | _ => true end.

(** [a || b] on strings that may be undefined. *)
Definition or_else (a : option ustring) (b : ustring) : ustring :=
  match a with
  | Some s => if truthy s then s else b
  | None => b
  end.

(** [encodeURIComponent]: the letters, the digits and the marks
    [-_.!~*'()] are kept; every other code point is written as the octets
    of its UTF-8 form, each as a percent sign and two upper-case
    hexadecimal digits.  A surrogate that is not part of a pair has no
    code point: the function throws a URIError, here [None]. *)
Definition uri_unreserved (c : N) : bool :=
  in_range 97 122 c || in_range 65 90 c || in_range 48 57 c
  || existsb (N.eqb c) (u "-_.!~*'()").

Definition is_lead_surrogate (c : N) : bool := in_range 55296 56319 c.
Definition is_trail_surrogate (c : N) : bool := in_range 56320 57343 c.

Definition hex_digit (n : N) : N := if n <? 10 then 48 + n else 55 + n.

Definition percent_octet (octet : N) : ustring :=
  [37; hex_digit (octet / 16); hex_digit (octet mod 16)].

Definition utf8_octets (cp : N) : list N :=
  if cp <? 128 then [cp]
  else if cp <? 2048 then [192 + cp / 64; 128 + cp mod 64]
  else if cp <? 65536 then [224 + cp / 4096; 128 + (cp / 64) mod 64; 128 + cp mod 64]
  else [240 + cp / 262144; 128 + (cp / 4096) mod 64; 128 + (cp / 64) mod 64;
        128 + cp mod 64].

Definition percent_encoded (cp : N) : ustring := flat_map percent_octet (utf8_octets cp).

Fixpoint encodeURIComponent (s : ustring) : option ustring :=
  match s with
  | [] => Some []
  | c :: rest =>
      if uri_unreserved c then cons c <$> encodeURIComponent rest
      else if is_trail_surrogate c then None
      else if is_lead_surrogate c then
        match rest with
        | d :: rest' =>
            if is_trail_surrogate d
            then app (percent_encoded (65536 + (c - 55296) * 1024 + (d - 56320)))
                   <$> encodeURIComponent rest'
            else None
        | [] => None
        end
      else app (percent_encoded c) <$> encodeURIComponent rest
  end.

End JsString.
Import JsString.

(** ** Regular expressions

    The fragment of ECMAScript regular expressions that the literals of
    BLOCKED_PATTERNS are written in, all with the flag [i] and without the
    flags [g], [u] and [s].  Every quantifier of these literals ranges over
    a one-character atom, except the single [?] on a group. *)
Module Regex.

Inductive atom : Type :=
| Lit (c : N)                     (* a pattern character, possibly escaped *)
| Class (ranges : list (N * N))   (* [a-zA-Z] *)
| Space                           (* \s *)
| Dot.                            (* . *)

Inductive regex : Type :=
| Empty
| Atom (a : atom)
| WordB                           (* \b *)
| Seq (r1 r2 : regex)
| Alt (r1 r2 : regex)             (* r1|r2 *)
| Group (r : regex)               (* (r) *)
| Opt (r : regex)                 (* r? *)
| Star (a : atom)                 (* a* *)
| Plus (a : atom).                (* a+ *)

Fixpoint seqs (rs : list regex) : regex :=
  match rs with
  | [] => Empty
  | [r] => r
  | r :: rs' => Seq r (seqs rs')
  end.

(** A run of pattern characters. *)
Definition lits (s : string) : regex := seqs (map (fun c => Atom (Lit c)) (u s)).

(** *** The source text, as RegExp.prototype.toString prints it *)

(** SyntaxCharacter of the grammar, and the solidus that a literal
    must escape. *)
Definition syntax_char (c : N) : bool :=
  existsb (N.eqb c) (u "^$\.*+?()[]{}|").

Definition atom_source (a : atom) : ustring :=
  match a with
  | Lit c => if syntax_char c || (c =? 47) then [92; c] else [c]
  | Class ranges => u "[" ++ concat (map (fun r => [fst r; 45; snd r]) ranges) ++ u "]"
  | Space => u "\s"
  | Dot => u "."
  end.

Fixpoint source (r : regex) : ustring :=
  match r with
  | Empty => []
  | Atom a => atom_source a
  | WordB => u "\b"
  | Seq r1 r2 => source r1 ++ source r2
  | Alt r1 r2 => source r1 ++ u "|" ++ source r2
  | Group r => u "(" ++ source r ++ u ")"
  | Opt r => source r ++ u "?"
  | Star a => atom_source a ++ u "*"
  | Plus a => atom_source a ++ u "+"
  end.

(** [pattern.toString()] for a literal with the flag [i]. *)
Definition toString (r : regex) : ustring := u "/" ++ source r ++ u "/i".

(** *** Matching

    Canonicalize of the specification, for the ASCII characters that the
    literals consist of: with the flag [i] and no flag [u] a code unit
    above 127 never canonicalizes to one below 128, so it matches no ASCII
    pattern character, and ASCII letters compare by their upper case. *)
Definition canon (c : N) : N := to_upper c.

(** Whether an atom accepts a code unit. A pattern character and the
    bounds of a class are ASCII; under the flag [i] a class accepts a code
    unit when it holds a character with the same canonical form, which for
    ASCII ranges is the code unit itself or the letter in the other case. *)
Definition atom_ok (a : atom) (ch : N) : bool :=
  match a with
  | Lit c => canon ch =? canon c
  | Class ranges =>
      existsb (fun r => in_range (fst r) (snd r) ch
                        || in_range (fst r) (snd r) (to_upper ch)
                        || in_range (fst r) (snd r) (to_lower ch)) ranges
  | Space => is_space ch
  | Dot => negb (is_line_terminator ch)
  end.

Definition is_word_opt (c : option N) : bool :=
  match c with Some c => is_word c | None => false end.

(** The state of a match is the code unit before the current position
    (none at the start of the input) and the rest of the input; a matcher
    takes a continuation, as in the specification of the language. *)
Definition cont := option N -> ustring -> bool.

Fixpoint star_loop (a : atom) (prev : option N) (s : ustring) (k : cont) : bool :=
  match s with
  | ch :: s' => (atom_ok a ch && star_loop a (Some ch) s' k) || k prev s
  | [] => k prev s
  end.

Fixpoint matches (r : regex) (prev : option N) (s : ustring) (k : cont) : bool :=
  match r with
  | Empty => k prev s
  | Atom a =>
      match s with
      | ch :: s' => atom_ok a ch && k (Some ch) s'
      | [] => false
      end
  | WordB =>
      if xorb (is_word_opt prev) (is_word_opt (head s)) then k prev s else false
  | Seq r1 r2 => matches r1 prev s (fun p t => matches r2 p t k)
  | Alt r1 r2 => matches r1 prev s k || matches r2 prev s k
  | Group r => matches r prev s k
  | Opt r => matches r prev s k || k prev s
  | Star a => star_loop a prev s k
  | Plus a =>
      match s with
      | ch :: s' => atom_ok a ch && star_loop a (Some ch) s' k
      | [] => false
      end
  end.

(** [r.test(s)] for a regex without the flag [g]: is there a match starting
    at some index of [s]? *)
Fixpoint scan (r : regex) (prev : option N) (s : ustring) : bool :=
  matches r prev s (fun _ _ => true)
  || match s with
     | ch :: s' => scan r (Some ch) s'
     | [] => false
     end.

Definition test (r : regex) (s : ustring) : bool := scan r None s.

End Regex.
Import Regex.

(** ** Calls across the process boundary

    A handler of the main process either returns a value or throws an
    [Error] with a message; the renderer sees the promise of
    [window.api.*] resolved or rejected. *)
Inductive outcome (A : Type) : Type :=
| Returned (a : A)
| Thrown (message : ustring).
Arguments Returned {A} a.
Arguments Thrown {A} message.

(** ** main/ipc/index.ts: the command safety gate *)

Definition az : atom := Class [(97, 122); (65, 90)].

Definition BLOCKED_PATTERNS : list regex :=
  [ (* 1: recursive or forced rm *)
    seqs [WordB; lits "rm"; Plus Space;
          Group (Alt (seqs [lits "-"; Star az; lits "f"])
                (Alt (seqs [lits "-"; Star az; lits "r"])
                (Alt (lits "--force") (lits "--recursive"))))];
    (* 2: rm -rf *)
    seqs [WordB; lits "rm"; Plus Space; lits "-rf"; WordB];
    (* 3: rm -fr *)
    seqs [WordB; lits "rm"; Plus Space; lits "-fr"; WordB];
    (* 4: sudo rm *)
    seqs [WordB; lits "sudo"; Plus Space; lits "rm"; WordB];
    (* 5: mkfs *)
    seqs [WordB; lits "mkfs"; WordB];
    (* 6: dd with an output file *)
    seqs [WordB; lits "dd"; Plus Space; Star Dot; WordB; lits "of="];
    (* 7: fork bomb *)
    seqs [WordB; lits ":"; Star Dot; lits "()"; Star Dot; lits "{"; Star Dot;
          lits ":|"; Star Dot; lits "}"];
    (* 8: chmod 000, 777 or a-rwx *)
    seqs [WordB; lits "chmod"; Plus Space;
          Opt (Group (seqs [lits "-"; Star az])); Star Space;
          Group (Alt (lits "000") (Alt (lits "777") (lits "a-rwx")))];
    (* 9: chown on a path *)
    seqs [WordB; lits "chown"; Plus Space; Star Dot; lits "/"];
    (* 10: redirection to a device file *)
    seqs [lits ">"; Star Space; lits "/dev/";
          Group (Alt (lits "sda") (Alt (lits "hda") (lits "null")))]
  ].

(** The loop over BLOCKED_PATTERNS at the head of the handler stops at the
    first pattern whose [test] succeeds. *)
Definition first_blocked (command : ustring) : option regex :=
  List.find (fun pattern => test pattern command) BLOCKED_PATTERNS.

(** The classification of the gate, [isBlocked] in the specification: the
    loop finds a pattern. *)
Definition isBlocked (command : ustring) : bool :=
  match first_blocked command with Some _ => true | None => false end.

Definition quote : ustring := [34].

Definition blocked_message (pattern : regex) : ustring :=
  u "This command has been blocked for safety. The pattern " ++ quote
  ++ toString pattern ++ quote ++ u " is not allowed. "
  ++ u "Destructive commands like rm -rf, sudo rm, mkfs, dd, etc. are not permitted.".

(** ** main/ipc/index.ts: the handler fs:bash *)

(** A value that is a number or a string: [code] of the error of
    child_process.exec is the exit code of the process or the name of a
    system error, and [exitCode] of the handler inherits it. *)
Inductive js_code : Type :=
| CodeNum (n : Z)
| CodeStr (s : ustring).

Definition code_truthy (c : js_code) : bool :=
  match c with
  | CodeNum n => negb (n =? 0)%Z
  | CodeStr s => truthy s
  end.

(** The template literal of a number or a string. *)
Definition code_text (c : js_code) : ustring :=
  match c with
  | CodeNum n => show_Z n
  | CodeStr s => s
  end.

(** The options that reach child_process.exec. *)
Record exec_options : Type := {
  eo_cwd : ustring;
  eo_timeout : Z;
  eo_maxBuffer : Z
}.

(** What the rejected promise of the promisified exec carries. [e_message]
    is present when the value is an [Error]. *)
Record exec_error : Type := {
  e_code : option js_code;
  e_killed : bool;
  e_stdout : option ustring;
  e_stderr : option ustring;
  e_message : option ustring
}.

Inductive exec_outcome : Type :=
| ExecResolved (stdout stderr : ustring)
| ExecRejected (e : exec_error).

(** The collaborators of the handlers and of the tools that the sources
    only call: the process-execution primitive, the working directory of
    the main process, and the message of the [Error] with which the bridge
    of the preload script rejects when a handler threw. *)
Record host : Type := {
  execAsync : ustring -> exec_options -> exec_outcome;
  process_cwd : ustring;
  invoke_error : ustring -> ustring -> ustring   (* channel, message of the handler *)
}.

Record bash_options : Type := {
  bo_cwd : option ustring;
  bo_timeout : option Z
}.

Record bash_result : Type := {
  br_stdout : ustring;
  br_stderr : ustring;
  br_exitCode : js_code
}.

(** [n || d] on numbers that may be undefined. *)
Definition num_or (n : option Z) (d : Z) : Z :=
  match n with
  | Some n => if (n =? 0)%Z then d else n
  | None => d
  end.

(** The text of [timeout / 1000] for a whole number of milliseconds. *)
Definition seconds_text (timeout : Z) : ustring :=
  let a := Z.abs timeout in
  let frac := (a mod 1000)%Z in
  let digits :=
    if (frac =? 0)%Z then []
    else if (frac mod 100 =? 0)%Z then show_Z (frac / 100)
    else if (frac mod 10 =? 0)%Z then
      (if (frac <? 100)%Z then u "0" else []) ++ show_Z (frac / 10)
    else (if (frac <? 10)%Z then u "00" else if (frac <? 100)%Z then u "0" else [])
         ++ show_Z frac in
  (if (timeout <? 0)%Z then u "-" else [])
  ++ show_Z (a / 1000)
  ++ (if (frac =? 0)%Z then [] else u "." ++ digits).

(** A call of the execution primitive, as the trace of a handler records it. *)
Record exec_call : Type := {
  ec_command : ustring;
  ec_options : exec_options
}.

Definition fs_bash (h : host) (command : ustring) (options : option bash_options)
  : outcome bash_result * list exec_call :=
  match first_blocked command with
  | Some pattern => (Thrown (blocked_message pattern), [])
  | None =>
      let cwd := or_else (options ≫= bo_cwd) (process_cwd h) in
      let timeout := num_or (options ≫= bo_timeout) 30000 in
      let opts := {| eo_cwd := cwd; eo_timeout := timeout;
                     eo_maxBuffer := 10 * 1024 * 1024 |} in
      let call := {| ec_command := command; ec_options := opts |} in
      match execAsync h command opts with
      | ExecResolved stdout stderr =>
          (Returned {| br_stdout := or_else (Some stdout) [];
                       br_stderr := or_else (Some stderr) [];
                       br_exitCode := CodeNum 0 |}, [call])
      | ExecRejected err =>
          if e_killed err then
            (Thrown (u "Command timed out after " ++ seconds_text timeout ++ u " seconds"),
             [call])
          else
            (Returned {| br_stdout := or_else (e_stdout err) [];
                         br_stderr := or_else (e_stderr err)
                                        (default (u "Command failed") (e_message err));
                         br_exitCode :=
                           match e_code err with
                           | Some c => if code_truthy c then c else CodeNum 1
                           | None => CodeNum 1
                           end |}, [call])
      end
  end.

(** [window.api.bash]: the bridge invokes the handler; what the handler
    throws arrives as a rejection whose message the bridge determines. *)
Definition api_bash (h : host) (command : ustring) (options : option bash_options)
  : outcome bash_result * list exec_call :=
  match fs_bash h command options with
  | (Returned r, calls) => (Returned r, calls)
  | (Thrown m, calls) => (Thrown (invoke_error h (u "fs:bash") m), calls)
  end.

(** ** renderer/services/ai/tools.ts: the tool bash *)

Record bash_args : Type := {
  ba_command : ustring;
  ba_cwd : option ustring;
  ba_timeout : option Z
}.

(** The three shapes of object that the executor returns. *)
Inductive bash_tool_result : Type :=
| BashFailed (exitCode : js_code) (stdout stderr message suggestion : ustring)
    (* success: false *)
| BashSucceeded (stdout : ustring) (stderr : option ustring)
    (* success: true, exitCode: 0 *)
| BashError (message suggestion : ustring).
    (* error: true *)

Definition bash_is_failure (r : bash_tool_result) : bool :=
  match r with
  | BashSucceeded _ _ => false
  | _ => true
  end.

Definition code_is_zero (c : js_code) : bool :=
  match c with
  | CodeNum n => (n =? 0)%Z
  | CodeStr _ => false
  end.

Definition tool_bash (h : host) (args : bash_args) : bash_tool_result * list exec_call :=
  let options := {| bo_cwd := ba_cwd args;
                    bo_timeout := Some (Z.min (num_or (ba_timeout args) 30000) 120000) |} in
  match api_bash h (ba_command args) (Some options) with
  | (Returned result, calls) =>
      if negb (code_is_zero (br_exitCode result)) then
        (BashFailed (br_exitCode result) (br_stdout result) (br_stderr result)
           (u "Command failed with exit code " ++ code_text (br_exitCode result))
           (if truthy (br_stderr result)
            then u "Error output: " ++ br_stderr result
            else u "Check the command syntax and try again"), calls)
      else
        (BashSucceeded (br_stdout result)
           (if truthy (br_stderr result) then Some (br_stderr result) else None), calls)
  | (Thrown message, calls) =>
      (BashError message
         (u "This command may be blocked for safety reasons, or the path may be invalid"),
       calls)
  end.

(** ** main/ipc/index.ts: the handler fs:grep *)

(** *** The cap: a number that need not be whole

    The option [maxResults] of grep reaches the handler as any number of
    the host: the schema of the tool asks for a number, not for a whole
    one.  A finite number is a rational (every finite double is one). *)
Inductive js_number : Type :=
| Finite (q : Q)
| Infinite (negative : bool)
| NaN.

Definition whole (z : Z) : js_number := Finite (inject_Z z).

(** Truthiness of a number: zero and NaN are falsy. *)
Definition number_truthy (x : js_number) : bool :=
  match x with
  | Finite q => negb (Qeq_bool q (inject_Z 0))
  | Infinite _ => true
  | NaN => false
  end.

(** [n || d] on such numbers that may be undefined. *)
Definition number_or (n : option js_number) (d : js_number) : js_number :=
  match n with
  | Some x => if number_truthy x then x else d
  | None => d
  end.

(** [length >= x] for the length of an array. *)
Definition length_reaches (len : nat) (x : js_number) : bool :=
  match x with
  | Finite q => Qle_bool q (inject_Z (Z.of_nat len))
  | Infinite negative => negative
  | NaN => false
  end.

(** The regular-expression engine of the host, of which the handler uses
    the constructor with the flags [gi] (it throws a SyntaxError on a
    source that is not a pattern: [None]) and [line.match(regex)], of
    which only the first match is read. *)
Record engine : Type := {
  RegExp : Type;
  new_RegExp_gi : ustring -> option RegExp;
  syntax_error : ustring -> ustring;
  match_first : RegExp -> ustring -> option ustring
}.

(** The file system as the handler observes it: [stat] (none when it
    rejects; otherwise whether the path is a directory), path.resolve, the
    files that fast-glob lists under a directory with the ignore list of
    the handler, and readFile (none when it rejects). *)
Record filesystem : Type := {
  fs_stat : ustring -> option bool;
  fs_resolve : ustring -> ustring;
  fs_glob_files : ustring -> list ustring;
  fs_readFile : ustring -> option ustring
}.

Record grep_match : Type := {
  gm_file : ustring;
  gm_line : nat;
  gm_content : ustring;
  gm_match : ustring
}.

(** The characters of the class in [pattern.replace(/[.*+?^${}()|[\]\\]/g, ...)]. *)
Definition escaped_char (c : N) : bool :=
  existsb (N.eqb c) (u ".*+?^${}()|[]\").

(** Each of them is replaced by a backslash and itself. *)
Definition escape (pattern : ustring) : ustring :=
  flat_map (fun c => if escaped_char c then [92; c] else [c]) pattern.

Definition build_regex (E : engine) (pattern : ustring) : outcome (RegExp E) :=
  match new_RegExp_gi E pattern with
  | Some regex => Returned regex
  | None =>
      let escaped := escape pattern in
      match new_RegExp_gi E escaped with
      | Some regex => Returned regex
      | None => Thrown (syntax_error E escaped)
      end
  end.

(** The inner loop over the lines of one file; [i] is the index of the
    first of [lines]. *)
Fixpoint search_lines (E : engine) (regex : RegExp E) (maxResults : js_number)
    (filePath : ustring) (i : nat) (lines : list ustring)
    (results : list grep_match) : list grep_match :=
  match lines with
  | [] => results
  | line :: rest =>
      if length_reaches (length results) maxResults then results
      else
        let results' :=
          match match_first E regex line with
          | Some m =>
              results ++ [{| gm_file := filePath; gm_line := i + 1;
                             gm_content := substring0 200 (trim line);
                             gm_match := m |}]
          | None => results
          end in
        search_lines E regex maxResults filePath (S i) rest results'
  end.

(** The outer loop over the files; a file that cannot be read is skipped. *)
Fixpoint search_files (E : engine) (fs : filesystem) (regex : RegExp E)
    (maxResults : js_number) (files : list ustring) (results : list grep_match)
  : list grep_match :=
  match files with
  | [] => results
  | filePath :: rest =>
      if length_reaches (length results) maxResults then results
      else
        let results' :=
          match fs_readFile fs filePath with
          | Some content =>
              search_lines E regex maxResults filePath 0 (split_lines content) results
          | None => results
          end in
        search_files E fs regex maxResults rest results'
  end.

Definition fs_grep (E : engine) (fs : filesystem) (pattern searchPath : ustring)
    (options : option (option js_number)) : outcome (list grep_match) :=
  let maxResults := number_or (mjoin options) (whole 100) in
  let resolvedPath := fs_resolve fs searchPath in
  match fs_stat fs resolvedPath with
  | None => Thrown (u "Path not found: " ++ searchPath)
  | Some isDirectory =>
      match build_regex E pattern with
      | Thrown m => Thrown m
      | Returned regex =>
          let filesToSearch :=
            if isDirectory then fs_glob_files fs resolvedPath else [resolvedPath] in
          Returned (search_files E fs regex maxResults filesToSearch [])
      end
  end.

(** ** renderer/services/ai/tools.ts: the tool grep *)

Definition api_grep (h : host) (E : engine) (fs : filesystem)
    (pattern searchPath : ustring) (options : option (option js_number))
  : outcome (list grep_match) :=
  match fs_grep E fs pattern searchPath options with
  | Returned r => Returned r
  | Thrown m => Thrown (invoke_error h (u "fs:grep") m)
  end.

Inductive grep_tool_result : Type :=
| GrepNoMatches (message : ustring)                      (* matches: [] *)
| GrepMatches (matches : list grep_match) (count : nat) (message : ustring)
| GrepError (message suggestion : ustring).               (* error: true *)

Definition show_nat (n : nat) : ustring := show_Z (Z.of_nat n).

Definition tool_grep (h : host) (E : engine) (fs : filesystem)
    (pattern path : ustring) (maxResults : option js_number) : grep_tool_result :=
  match api_grep h E fs pattern path (Some (Some (number_or maxResults (whole 50)))) with
  | Returned results =>
      match results with
      | [] => GrepNoMatches (u "No matches found for " ++ quote ++ pattern ++ quote
                             ++ u " in " ++ path)
      | _ => GrepMatches results (length results)
               (u "Found " ++ show_nat (length results) ++ u " matches for "
                ++ quote ++ pattern ++ quote)
      end
  | Thrown message =>
      GrepError message (u "Check if the path exists and is readable")
  end.

(** A source that consists of pattern characters and of escaped syntax
    characters only, and the string it denotes. *)
Fixpoint literal_source (src : ustring) : option ustring :=
  match src with
  | [] => Some []
  | c :: rest =>
      if c =? 92 then
        match rest with
        | d :: rest' =>
            if syntax_char d then cons d <$> literal_source rest' else None
        | [] => None
        end
      else if syntax_char c then None
      else cons c <$> literal_source rest
  end.

(** The first occurrence of [p] in [line], compared code unit by code unit
    with the comparison [same] of the engine under the flag [i]; the text of
    the match is that of the line. *)
Fixpoint prefix_ci (same : N -> N -> bool) (p line : ustring) : option ustring :=
  match p, line with
  | [], _ => Some []
  | c :: p', d :: line' =>
      if same c d then cons d <$> prefix_ci same p' line' else None
  | _ :: _, [] => None
  end.

Fixpoint find_ci (same : N -> N -> bool) (p line : ustring) : option ustring :=
  match prefix_ci same p line with
  | Some m => Some m
  | None =>
      match line with
      | _ :: line' => find_ci same p line'
      | [] => None
      end
  end.

(** An engine that accepts exactly the literal sources and finds the
    first occurrence of the string they denote. *)
Definition literal_engine (same : N -> N -> bool) : engine :=
  {| RegExp := ustring;
     new_RegExp_gi := literal_source;
     syntax_error := fun src => u "Invalid regular expression: /" ++ src ++ u "/gi";
     match_first := find_ci same |}.

(** ASCII letters compared without regard to case. *)
Definition ascii_same (c d : N) : bool := canon c =? canon d.

(** What the handler relies on in the engine of the host: a source made of
    pattern characters and escaped syntax characters is a pattern, and with
    the flags [gi] its first match in a line is the first occurrence of the
    string it denotes, compared with the case-insensitive comparison [same]
    of the engine. *)
Definition literal_faithful (E : engine) (same : N -> N -> bool) : Prop :=
  ∀ src p, literal_source src = Some p →
           ∃ regex, new_RegExp_gi E src = Some regex
                    ∧ ∀ line, match_first E regex line = find_ci same p line.

(** ** main/ipc/skillregistry.ipc.ts: the handler skillregistry:search *)

Record RegistrySkill : Type := {
  sk_id : ustring;
  sk_name : ustring;
  sk_description : ustring
}.

(** The address that is fetched: the search endpoint followed by the
    encoded query, or the featured list. *)
Inductive registry_url : Type :=
| SearchUrl (encoded : ustring)
| FeaturedUrl.

(** The body of a response as [response.json()] delivers it: an array, an
    object with or without a usable [skills] member, or nothing that can
    be read (the promise rejects, or the value has no members). *)
Inductive json_body : Type :=
| JsonArray (skills : list RegistrySkill)
| JsonObject (skills : option (list RegistrySkill))
| JsonUnreadable.

(** What [fetch] does: it rejects (a network error) or resolves with a
    response. *)
Inductive fetch_outcome : Type :=
| FetchRejected (message : ustring)
| FetchResponse (ok : bool) (status : Z) (body : json_body).

(** The address is computed inside the [try]: when the query is not blank
    and [encodeURIComponent] throws, nothing is fetched and the [catch]
    returns the empty list. *)
Definition search_address (query : ustring) : option registry_url :=
  if truthy (trim query) then SearchUrl <$> encodeURIComponent query
  else Some FeaturedUrl.

Definition skillregistry_search (fetch : registry_url -> fetch_outcome)
    (query : ustring) : list RegistrySkill :=
  match search_address query with
  | None => []
  | Some url =>
      match fetch url with
      | FetchRejected _ => []
      | FetchResponse ok _ body =>
          if negb ok then []
          else match body with
               | JsonArray data => data
               | JsonObject (Some skills) => skills
               | JsonObject None => []
               | JsonUnreadable => []
               end
      end
  end.

(** [window.api.skillRegistrySearch]: the bridge invokes the handler, which
    returns on every path. *)
Definition api_skillRegistrySearch (fetch : registry_url -> fetch_outcome)
    (query : ustring) : outcome (list RegistrySkill) :=
  Returned (skillregistry_search fetch query).

(** ** renderer/components/skills/SkillsMarketplace.tsx: searchSkillRegistry *)

Definition searchSkillRegistry (api : ustring -> outcome (list RegistrySkill))
    (query : ustring) : list RegistrySkill :=
  match api query with
  | Returned skills => skills
  | Thrown _ => []
  end.

(** ** renderer/services/ai/tools.ts: the tool searchSkills *)

Record listed_skill : Type := {
  ls_id : ustring;
  ls_name : ustring;
  ls_description : ustring;
  ls_url : ustring
}.

Inductive skills_tool_result : Type :=
| SkillsNone (message : ustring)                 (* success: true, skills: [] *)
| SkillsFound (skills : list listed_skill) (count : nat) (message : ustring)
| SkillsError (message suggestion : ustring).    (* error: true *)

Definition tool_searchSkills (api : ustring -> outcome (list RegistrySkill))
    (query : ustring) : skills_tool_result :=
  match api query with
  | Returned skills =>
      match skills with
      | [] => SkillsNone (u "No skills found for " ++ quote ++ query ++ quote
                          ++ u ". You may need to use the browser instead.")
      | _ =>
          SkillsFound
            (map (fun s => {| ls_id := sk_id s; ls_name := sk_name s;
                              ls_description := sk_description s;
                              ls_url := u "https://skillregistry.io/skills/" ++ sk_id s |})
                 skills)
            (length skills)
            (u "Found " ++ show_nat (length skills) ++ u " skill(s) for " ++ quote
             ++ query ++ quote ++ u ". Install a relevant skill to use it.")
      end
  | Thrown message =>
      SkillsError message (u "Network error. You can try the browser instead.")
  end.

Definition skills_is_failure (r : skills_tool_result) : bool :=
  match r with
  | SkillsError _ _ => true
  | _ => false
  end.

(** ** renderer/stores/todoStore.ts *)
Module TodoStore.

Inductive TodoStatus : Type := pending | in_progress | completed.

Record Todo : Type := {
  id : ustring;
  content : ustring;
  status : TodoStatus
}.

Record TodoState : Type := { todos : list Todo }.

Definition initial : TodoState := {| todos := [] |}.

Definition setTodos (new_todos : list Todo) (state : TodoState) : TodoState :=
  {| todos := new_todos |}.

(** [fresh] is the identifier that the template literal of addTodo yields
    from the clock and the random source. *)
Definition addTodo (fresh : ustring) (text : ustring) (state : TodoState) : TodoState :=
  {| todos := todos state ++ [{| id := fresh; content := text; status := pending |}] |}.

Definition updateTodo (key : ustring) (new_content : option ustring)
    (new_status : option TodoStatus) (state : TodoState) : TodoState :=
  {| todos := map (fun todo =>
                     if decide (id todo = key)
                     then {| id := id todo;
                             content := default (content todo) new_content;
                             status := default (status todo) new_status |}
                     else todo) (todos state) |}.

Definition removeTodo (key : ustring) (state : TodoState) : TodoState :=
  {| todos := filter (fun todo => id todo ≠ key) (todos state) |}.

Definition clearTodos (state : TodoState) : TodoState := {| todos := [] |}.

End TodoStore.

(** ** renderer/services/ai/tools.ts: the tool todoWrite *)
Module TodoWrite.
Import TodoStore.

(** An element of the parameter [todos]; [id] is optional. *)
Record todo_input : Type := {
  ti_id : option ustring;
  ti_content : ustring;
  ti_status : TodoStatus
}.

Record result : Type := {
  success : bool;
  message : ustring;
  returned_todos : list Todo
}.

(** [clock i] is the value of Date.now() read while element [i] is
    mapped. *)
Definition mappedTodos (clock : nat -> Z) (inputs : list todo_input) : list Todo :=
  imap (fun i t =>
          {| id := or_else (ti_id t)
                     (u "todo-" ++ show_Z (clock i) ++ u "-" ++ show_nat i);
             content := ti_content t;
             status := ti_status t |}) inputs.

Definition execute (clock : nat -> Z) (inputs : list todo_input) (state : TodoState)
  : result * TodoState :=
  let mapped := mappedTodos clock inputs in
  ({| success := true;
      message := u "Updated " ++ show_nat (length inputs) ++ u " todo(s)";
      returned_todos := map (fun t => {| id := id t; content := content t;
                                         status := status t |}) mapped |},
   setTodos mapped state).

End TodoWrite.

(** ** renderer/stores/questionStore.ts *)
Module QuestionStore.

Record QuestionOption : Type := {
  o_id : ustring;
  o_label : ustring
}.

Record Question : Type := {
  id : ustring;
  question : ustring;
  options : list QuestionOption;
  allowCustom : bool;
  selectedOptionId : option ustring;
  customAnswer : option ustring
}.

(** A question as setQuestions receives it; its [id] may be missing or
    empty at run time, which is what the fallback is for. *)
Record question_input : Type := {
  qi_id : option ustring;
  qi_question : ustring;
  qi_options : list QuestionOption;
  qi_allowCustom : bool
}.

Record QuestionSet : Type := {
  set_id : ustring;
  questions : list Question;
  currentIndex : Z;
  submitted : bool
}.

Record State : Type := { activeQuestionSet : option QuestionSet }.

Definition initial : State := {| activeQuestionSet := None |}.

Record Answer : Type := {
  selectedOption : option ustring;
  answer_customAnswer : option ustring
}.

Definition with_questions (qs : QuestionSet) (new_questions : list Question) : QuestionSet :=
  {| set_id := set_id qs; questions := new_questions;
     currentIndex := currentIndex qs; submitted := submitted qs |}.

Definition with_index (qs : QuestionSet) (i : Z) : QuestionSet :=
  {| set_id := set_id qs; questions := questions qs;
     currentIndex := i; submitted := submitted qs |}.

(** [now] is the value of Date.now(). *)
Definition setQuestions (now : Z) (inputs : list question_input) (state : State)
  : ustring * State :=
  let new_id := u "qs-" ++ show_Z now in
  (new_id,
   {| activeQuestionSet :=
        Some {| set_id := new_id;
                questions :=
                  imap (fun i q =>
                          {| id := or_else (qi_id q) (u "q-" ++ show_nat i);
                             question := qi_question q;
                             options := qi_options q;
                             allowCustom := qi_allowCustom q;
                             selectedOptionId := None;
                             customAnswer := None |}) inputs;
                currentIndex := 0;
                submitted := false |} |}).

(** [{...q, selectedOptionId: optionId, customAnswer: undefined}] *)
Definition with_selection (q : Question) (optionId : ustring) : Question :=
  {| id := id q; question := question q; options := options q;
     allowCustom := allowCustom q;
     selectedOptionId := Some optionId; customAnswer := None |}.

(** [{...q, selectedOptionId: undefined, customAnswer: answer}] *)
Definition with_custom (q : Question) (answer : ustring) : Question :=
  {| id := id q; question := question q; options := options q;
     allowCustom := allowCustom q;
     selectedOptionId := None; customAnswer := Some answer |}.

Definition selectOption (questionId optionId : ustring) (state : State) : State :=
  match activeQuestionSet state with
  | None => state
  | Some qs =>
      {| activeQuestionSet :=
           Some (with_questions qs
                   (map (fun q => if decide (id q = questionId)
                                  then with_selection q optionId else q)
                        (questions qs))) |}
  end.

Definition setCustomAnswer (questionId answer : ustring) (state : State) : State :=
  match activeQuestionSet state with
  | None => state
  | Some qs =>
      {| activeQuestionSet :=
           Some (with_questions qs
                   (map (fun q => if decide (id q = questionId)
                                  then with_custom q answer else q)
                        (questions qs))) |}
  end.

Definition nextQuestion (state : State) : State :=
  match activeQuestionSet state with
  | None => state
  | Some qs =>
      {| activeQuestionSet :=
           Some (with_index qs
                   (Z.min (currentIndex qs + 1) (Z.of_nat (length (questions qs)) - 1))) |}
  end.

Definition prevQuestion (state : State) : State :=
  match activeQuestionSet state with
  | None => state
  | Some qs =>
      {| activeQuestionSet := Some (with_index qs (Z.max (currentIndex qs - 1) 0)) |}
  end.

(** The answer recorded for one question: the label of the selected
    option, when the selected id is non-empty and an option has it. *)
Definition answer_of (q : Question) : Answer :=
  {| selectedOption :=
       match selectedOptionId q with
       | Some sel =>
           if truthy sel
           then o_label <$> List.find (fun o => bool_decide (o_id o = sel)) (options q)
           else None
       | None => None
       end;
     answer_customAnswer := customAnswer q |}.

(** The record [answers], a plain object: its own properties, and the
    object that an assignment under the name __proto__ has made its
    prototype, if any.  Such an assignment reaches the setter that
    Object.prototype has for that name: the value being an object, as
    every answer is, it becomes the prototype of the record, and the
    record gets no property.  Under every other name an assignment
    creates or overwrites an own property. *)
Record Answers : Type := {
  own : gmap ustring Answer;
  prototype : option Answer
}.

(** The object literal without members. *)
Definition no_answers : Answers := {| own := ∅; prototype := None |}.

(** [answers[key] = value] *)
Definition assign (answers : Answers) (key : ustring) (value : Answer) : Answers :=
  if decide (key = u "__proto__")
  then {| own := own answers; prototype := Some value |}
  else {| own := <[key := value]> (own answers); prototype := prototype answers |}.

(** The loop [answers[q.id] = ...] over the questions, in order. *)
Definition collect (qs : list Question) : Answers :=
  foldl (fun answers q => assign answers (id q) (answer_of q)) no_answers qs.

Definition submitAnswers (state : State) : Answers * State :=
  match activeQuestionSet state with
  | None => (no_answers, state)
  | Some qs =>
      (collect (questions qs),
       {| activeQuestionSet :=
            Some {| set_id := set_id qs; questions := questions qs;
                    currentIndex := currentIndex qs; submitted := true |} |})
  end.

Definition clearQuestions (state : State) : State := {| activeQuestionSet := None |}.

Definition opt_truthy (o : option ustring) : bool :=
  match o with Some s => truthy s | None => false end.

Definition hasUnansweredQuestions (state : State) : bool :=
  match activeQuestionSet state with
  | None => false
  | Some qs =>
      if submitted qs then false
      else existsb (fun q => negb (opt_truthy (selectedOptionId q))
                             && negb (opt_truthy (customAnswer q))) (questions qs)
  end.

(** The operations of the store, as the tool layer and the panel issue
    them one after the other. *)
Inductive op : Type :=
| OpSetQuestions (now : Z) (inputs : list question_input)
| OpSelectOption (questionId optionId : ustring)
| OpSetCustomAnswer (questionId answer : ustring)
| OpNextQuestion
| OpPrevQuestion
| OpSubmitAnswers
| OpClearQuestions.

Definition step (state : State) (o : op) : State :=
  match o with
  | OpSetQuestions now inputs => snd (setQuestions now inputs state)
  | OpSelectOption q o => selectOption q o state
  | OpSetCustomAnswer q a => setCustomAnswer q a state
  | OpNextQuestion => nextQuestion state
  | OpPrevQuestion => prevQuestion state
  | OpSubmitAnswers => snd (submitAnswers state)
  | OpClearQuestions => clearQuestions state
  end.

Definition run (ops : list op) (state : State) : State := foldl step state ops.

(** The questions of the active set; none when there is no set. *)
Definition active_questions (state : State) : list Question :=
  match activeQuestionSet state with
  | Some qs => questions qs
  | None => []
  end.

(** No question holds a selected option id and a custom answer at once. *)
Definition exclusive (q : Question) : Prop :=
  selectedOptionId q = None ∨ customAnswer q = None.

End QuestionStore.

(** ** renderer/stores/browserStore.ts *)
Module BrowserStore.

(** The store also holds a pending operation, a closure that no tool
    reads or writes. *)
Record State : Type := { showSelectionDialog : bool }.

Definition initial : State := {| showSelectionDialog := false |}.

Definition setShowSelectionDialog (show : bool) (state : State) : State :=
  {| showSelectionDialog := show |}.

End BrowserStore.

(** ** renderer/services/ai/tools.ts: the browser tools *)
Module BrowserTools.
Import BrowserStore.

Record Settings : Type := { preferredBrowser : option ustring }.

Inductive browser_call : Type :=
| Navigate (url : ustring)
| GetContent (selector : option ustring)
| Click (selector : ustring)
| TypeText (selector text : ustring)
| Press (key : ustring)
| GetLinks
| Scroll (direction : ustring)
| Screenshot
| Close.

(** The object with which the browser automation collaborator answers. *)
Record browser_response : Type := {
  r_error : bool;
  r_message : option ustring;
  r_url : option ustring;
  r_title : option ustring;
  r_screenshot : option ustring;
  r_content : option ustring;
  r_count : option Z;
  r_links : option (list ustring);
  r_image : option ustring
}.

(** [window.api] as the browser tools use it: the settings record (null
    when there is none) and the browser automation calls; either may
    reject. *)
Record api : Type := {
  getSettings : outcome (option Settings);
  browser : browser_call -> outcome browser_response
}.

(** What a tool does that can be observed from outside. *)
Inductive event : Type :=
| EvGetSettings
| EvShowSelectionDialog (show : bool)
| EvBrowser (call : browser_call).

Record world : Type := {
  store : State;
  trace : list event
}.

(** Computations of the renderer: they read and write the browser store,
    append to the trace, and return or throw. *)
Definition Eff (A : Type) : Type := world -> outcome A * world.

Definition ret {A} (a : A) : Eff A := fun w => (Returned a, w).

Definition bind {A B} (m : Eff A) (f : A -> Eff B) : Eff B :=
  fun w =>
    match m w with
    | (Returned a, w') => f a w'
    | (Thrown e, w') => (Thrown e, w')
    end.

Definition try_catch {A} (body : Eff A) (handler : ustring -> Eff A) : Eff A :=
  fun w =>
    match body w with
    | (Returned a, w') => (Returned a, w')
    | (Thrown e, w') => handler e w'
    end.

Definition emit (e : event) : Eff unit :=
  fun w => (Returned tt, {| store := store w; trace := trace w ++ [e] |}).

Definition await {A} (e : event) (o : outcome A) : Eff A :=
  fun w => (o, {| store := store w; trace := trace w ++ [e] |}).

Definition modify (f : State -> State) : Eff unit :=
  fun w => (Returned tt, {| store := f (store w); trace := trace w |}).

#[global] Instance Eff_ret : MRet Eff := @ret.
#[global] Instance Eff_bind : MBind Eff := fun A B f m => bind m f.

Definition is_configured (settings : option Settings) : bool :=
  match settings with
  | Some s => match preferredBrowser s with
              | Some b => truthy b
              | None => false
              end
  | None => false
  end.

Record check_result : Type := { configured : bool; needsSetup : bool }.

Definition checkBrowserConfigured (a : api) : Eff check_result :=
  settings ← await EvGetSettings (getSettings a);
  if negb (is_configured settings) then
    emit (EvShowSelectionDialog true);;
    modify (setShowSelectionDialog true);;
    ret {| configured := false; needsSetup := true |}
  else ret {| configured := true; needsSetup := false |}.

(** The objects that the executors return; a member that an object does
    not have is [None], or [false] for the flags. *)
Record tool_result : Type := {
  error : bool;
  success : bool;
  needsBrowserSetup : bool;
  message : option ustring;
  suggestion : option ustring;
  url : option ustring;
  title : option ustring;
  screenshot : option ustring;
  content : option ustring;
  count : option Z;
  links : option (list ustring);
  image : option ustring
}.

Definition failure (msg : ustring) (sugg : option ustring) : tool_result :=
  {| error := true; success := false; needsBrowserSetup := false;
     message := Some msg; suggestion := sugg;
     url := None; title := None; screenshot := None; content := None;
     count := None; links := None; image := None |}.

Definition setup_needed : tool_result :=
  {| error := true; success := false; needsBrowserSetup := true;
     message := Some (u "Browser not configured. A dialog has been shown to the user to select their preferred browser.");
     suggestion := Some (u "Wait for the user to select a browser, then try again.");
     url := None; title := None; screenshot := None; content := None;
     count := None; links := None; image := None |}.

Definition succeeded (msg : option ustring) : tool_result :=
  {| error := false; success := true; needsBrowserSetup := false;
     message := msg; suggestion := None;
     url := None; title := None; screenshot := None; content := None;
     count := None; links := None; image := None |}.

(** [a || b] where both may be undefined, and the template literal of
    the outcome. *)
Definition or_opt (a b : option ustring) : option ustring :=
  match a with
  | Some s => if truthy s then Some s else b
  | None => b
  end.

Definition template (o : option ustring) : ustring := default (u "undefined") o.

Definition browserNavigate (a : api) (target : ustring) : Eff tool_result :=
  try_catch
    (check ← checkBrowserConfigured a;
     if negb (configured check) then ret setup_needed
     else
       result ← await (EvBrowser (Navigate target)) (browser a (Navigate target));
       if r_error result then
         ret (failure (or_else (r_message result) (u "Navigation failed"))
                (Some (u "Check if the URL is valid and try again")))
       else
         ret {| error := false; success := true; needsBrowserSetup := false;
                message := Some (u "Navigated to "
                                 ++ template (or_opt (r_title result) (r_url result)));
                suggestion := None;
                url := r_url result; title := r_title result;
                screenshot := r_screenshot result; content := None;
                count := None; links := None; image := None |})
    (fun msg => ret (failure msg (Some (u "The browser may not be available. Try again.")))).

Definition browserGetContent (a : api) (selector : option ustring) : Eff tool_result :=
  try_catch
    (result ← await (EvBrowser (GetContent selector)) (browser a (GetContent selector));
     if r_error result then
       ret (failure (or_else (r_message result) (u "Failed to get content"))
              (Some (if match selector with Some sel => truthy sel | None => false end
                     then u "The selector may not exist on this page. Try a different one."
                     else u "Navigate to a page first.")))
     else
       ret {| error := false; success := true; needsBrowserSetup := false;
              message := None; suggestion := None;
              url := r_url result; title := r_title result;
              screenshot := r_screenshot result; content := r_content result;
              count := None; links := None; image := None |})
    (fun msg => ret (failure msg (Some (u "Make sure you have navigated to a page first")))).

Definition browserClick (a : api) (selector : ustring) : Eff tool_result :=
  try_catch
    (result ← await (EvBrowser (Click selector)) (browser a (Click selector));
     if r_error result then
       ret (failure (or_else (r_message result) (u "Click failed"))
              (Some (u "The element may not exist or may not be clickable. Try a different selector.")))
     else
       ret {| error := false; success := true; needsBrowserSetup := false;
              message := Some (u "Clicked on " ++ quote ++ selector ++ quote);
              suggestion := None;
              url := r_url result; title := r_title result;
              screenshot := r_screenshot result; content := None;
              count := None; links := None; image := None |})
    (fun msg => ret (failure msg (Some (u "Check if the element exists and is visible")))).

Definition browserType (a : api) (selector text : ustring) : Eff tool_result :=
  try_catch
    (result ← await (EvBrowser (TypeText selector text))
                (browser a (TypeText selector text));
     if r_error result then
       ret (failure (or_else (r_message result) (u "Type failed"))
              (Some (u "The input field may not exist. Try a different selector.")))
     else
       ret {| error := false; success := true; needsBrowserSetup := false;
              message := Some (u "Typed " ++ quote ++ text ++ quote ++ u " into " ++ selector);
              suggestion := None;
              url := None; title := None;
              screenshot := r_screenshot result; content := None;
              count := None; links := None; image := None |})
    (fun msg => ret (failure msg (Some (u "Check if the input field exists and is editable")))).

Definition browserPress (a : api) (key : ustring) : Eff tool_result :=
  try_catch
    (result ← await (EvBrowser (Press key)) (browser a (Press key));
     if r_error result then
       ret (failure (or_else (r_message result) (u "Key press failed")) None)
     else
       ret {| error := false; success := true; needsBrowserSetup := false;
              message := Some (u "Pressed " ++ key); suggestion := None;
              url := r_url result; title := None;
              screenshot := r_screenshot result; content := None;
              count := None; links := None; image := None |})
    (fun msg => ret (failure msg None)).

Definition browserGetLinks (a : api) : Eff tool_result :=
  try_catch
    (result ← await (EvBrowser GetLinks) (browser a GetLinks);
     if r_error result then
       ret (failure (or_else (r_message result) (u "Failed to get links"))
              (Some (u "Navigate to a page first")))
     else
       ret {| error := false; success := true; needsBrowserSetup := false;
              message := None; suggestion := None;
              url := None; title := None; screenshot := None; content := None;
              count := r_count result; links := r_links result; image := None |})
    (fun msg => ret (failure msg None)).

Definition browserScroll (a : api) (direction : ustring) : Eff tool_result :=
  try_catch
    (result ← await (EvBrowser (Scroll direction)) (browser a (Scroll direction));
     if r_error result then
       ret (failure (or_else (r_message result) (u "Scroll failed")) None)
     else
       ret {| error := false; success := true; needsBrowserSetup := false;
              message := Some (u "Scrolled " ++ direction); suggestion := None;
              url := None; title := None;
              screenshot := r_screenshot result; content := None;
              count := None; links := None; image := None |})
    (fun msg => ret (failure msg None)).

Definition browserScreenshot (a : api) : Eff tool_result :=
  try_catch
    (result ← await (EvBrowser Screenshot) (browser a Screenshot);
     if r_error result then
       ret (failure (or_else (r_message result) (u "Screenshot failed"))
              (Some (u "Navigate to a page first")))
     else
       ret {| error := false; success := true; needsBrowserSetup := false;
              message := Some (u "Screenshot captured"); suggestion := None;
              url := r_url result; title := r_title result;
              screenshot := None; content := None;
              count := None; links := None; image := r_image result |})
    (fun msg => ret (failure msg None)).

Definition browserClose (a : api) : Eff tool_result :=
  try_catch
    (result ← await (EvBrowser Close) (browser a Close);
     if r_error result then
       ret (failure (or_else (r_message result) (u "Close failed")) None)
     else ret (succeeded (Some (u "Browser closed"))))
    (fun msg => ret (failure msg None)).

(** The eight tools of the browser session that act on a page, by name,
    with their arguments. *)
Inductive tool_call : Type :=
| CallNavigate (url : ustring)
| CallClick (selector : ustring)
| CallType (selector text : ustring)
| CallPress (key : ustring)
| CallScroll (direction : ustring)
| CallGetContent (selector : option ustring)
| CallGetLinks
| CallScreenshot.

Definition execute (a : api) (c : tool_call) : Eff tool_result :=
  match c with
  | CallNavigate target => browserNavigate a target
  | CallClick selector => browserClick a selector
  | CallType selector text => browserType a selector text
  | CallPress key => browserPress a key
  | CallScroll direction => browserScroll a direction
  | CallGetContent selector => browserGetContent a selector
  | CallGetLinks => browserGetLinks a
  | CallScreenshot => browserScreenshot a
  end.

(** The call of the collaborator that a tool dispatches to. *)
Definition dispatch_of (c : tool_call) : browser_call :=
  match c with
  | CallNavigate target => Navigate target
  | CallClick selector => Click selector
  | CallType selector text => TypeText selector text
  | CallPress key => Press key
  | CallScroll direction => Scroll direction
  | CallGetContent selector => GetContent selector
  | CallGetLinks => GetLinks
  | CallScreenshot => Screenshot
  end.

Definition is_dialog_signal (e : event) : bool :=
  match e with EvShowSelectionDialog true => true | _ => false end.

Definition is_dispatch (e : event) : bool :=
  match e with EvBrowser _ => true | _ => false end.

Definition signals (t : list event) : nat := length (filter (fun e => is_dialog_signal e = true) t).
Definition dispatches (t : list event) : nat := length (filter (fun e => is_dispatch e = true) t).

Definition start : world := {| store := initial; trace := [] |}.

End BrowserTools.

(** ** More of JavaScript: split, includes, and the members of a plain object *)

(** [s.split(sep)] for a separator of one code unit: never empty, one more
    piece than there are separators. *)
Fixpoint js_split (sep : N) (s : ustring) : list ustring :=
  match s with
  | [] => [[]]
  | c :: s' =>
      if c =? sep then [] :: js_split sep s'
      else match js_split sep s' with
           | piece :: pieces => (c :: piece) :: pieces
           | [] => [[c]]
           end
  end.

(** [hay.includes(needle)] *)
Fixpoint starts_with (needle hay : ustring) : bool :=
  match needle, hay with
  | [], _ => true
  | c :: needle', d :: hay' => (c =? d) && starts_with needle' hay'
  | _ :: _, [] => false
  end.

Fixpoint includes (needle hay : ustring) : bool :=
  starts_with needle hay
  || match hay with
     | _ :: hay' => includes needle hay'
     | [] => false
     end.

Module JsObject.

(** The property names that every plain object inherits from
    Object.prototype. *)
Definition prototype_names : list ustring :=
  map u ["constructor"; "__defineGetter__"; "__defineSetter__"; "hasOwnProperty";
         "__lookupGetter__"; "__lookupSetter__"; "isPrototypeOf";
         "propertyIsEnumerable"; "toString"; "valueOf"; "__proto__";
         "toLocaleString"].

(** What [object[key]] evaluates to on an object literal whose own
    properties are [o]: an own property, a member of the prototype (a
    function or an object, which is truthy), or undefined. *)
Inductive member (A : Type) : Type :=
| Own (a : A)
| Inherited (name : ustring)
| Undefined.
Arguments Own {A} a.
Arguments Inherited {A} name.
Arguments Undefined {A}.

Definition get {A} (o : gmap ustring A) (key : ustring) : member A :=
  match o !! key with
  | Some a => Own a
  | None => if bool_decide (key ∈ prototype_names) then Inherited key else Undefined
  end.

End JsObject.

(** ** main/ipc/index.ts: the handler shell:execute *)

(** The handler awaits the execution primitive outside any try block: it
    returns the two streams, or what the primitive rejected with is thrown
    as it is. *)
Inductive shell_result : Type :=
| ShellReturned (stdout stderr : ustring)
| ShellThrown (e : exec_error).

(** [home] is app.getPath('home'). *)
Definition shell_execute (h : host) (home : ustring) (command : ustring)
    (cwd : option ustring) : shell_result * list exec_call :=
  let opts := {| eo_cwd := or_else cwd home; eo_timeout := 30000;
                 eo_maxBuffer := 1024 * 1024 * 10 |} in
  let call := {| ec_command := command; ec_options := opts |} in
  match execAsync h command opts with
  | ExecResolved stdout stderr => (ShellReturned stdout stderr, [call])
  | ExecRejected err => (ShellThrown err, [call])
  end.

(** ** main/ipc/index.ts: the handler fs:readFileBase64 *)

(** What the handler only calls: readFile followed by
    [buffer.toString('base64')] (the message of the rejection when the file
    cannot be read), String.prototype.toLowerCase, and the text that a
    template literal prints for a member of Object.prototype. *)
Record file_reader : Type := {
  readFile_base64 : ustring -> outcome ustring;
  toLowerCase : ustring -> ustring;
  inherited_text : ustring -> ustring
}.

Definition mimeTypes : gmap ustring ustring :=
  list_to_map
    [ (u "png", u "image/png");
      (u "jpg", u "image/jpeg");
      (u "jpeg", u "image/jpeg");
      (u "gif", u "image/gif");
      (u "webp", u "image/webp");
      (u "svg", u "image/svg+xml");
      (u "bmp", u "image/bmp");
      (u "ico", u "image/x-icon");
      (u "pdf", u "application/pdf") ].

(** The member [mimeType] of the result: a string, or the member of
    Object.prototype that the lookup in [mimeTypes] found. *)
Inductive mime_value : Type :=
| MimeString (s : ustring)
| MimeInherited (name : ustring).

Record base64_result : Type := {
  b_base64 : ustring;
  b_mimeType : mime_value;
  b_dataUrl : ustring
}.

(** [path.split('.').pop()?.toLowerCase() || ''] *)
Definition extension (R : file_reader) (path : ustring) : ustring :=
  or_else (toLowerCase R <$> last (js_split 46 path)) [].

Definition mime_text (R : file_reader) (m : mime_value) : ustring :=
  match m with
  | MimeString s => s
  | MimeInherited name => inherited_text R name
  end.

Definition fs_readFileBase64 (R : file_reader) (path : ustring) : outcome base64_result :=
  match readFile_base64 R path with
  | Thrown m => Thrown m
  | Returned base64 =>
      let ext := extension R path in
      let mimeType :=
        match JsObject.get mimeTypes ext with
        | JsObject.Own s => MimeString (or_else (Some s) (u "application/octet-stream"))
        | JsObject.Inherited name => MimeInherited name
        | JsObject.Undefined => MimeString (u "application/octet-stream")
        end in
      Returned {| b_base64 := base64;
                  b_mimeType := mimeType;
                  b_dataUrl := u "data:" ++ mime_text R mimeType ++ u ";base64," ++ base64 |}
  end.

(** [window.api.readFileBase64]: the bridge invokes the handler. *)
Definition api_readFileBase64 (h : host) (R : file_reader) (path : ustring)
  : outcome base64_result :=
  match fs_readFileBase64 R path with
  | Returned r => Returned r
  | Thrown m => Thrown (invoke_error h (u "fs:readFileBase64") m)
  end.

(** ** renderer/services/ai/tools.ts: the tool viewImage *)

Inductive image_result : Type :=
| ImageLoaded (path : ustring) (mimeType : mime_value) (image message : ustring)
    (* type: 'image' *)
| ImageError (message suggestion : ustring) (requiresRestart retryable : bool).
    (* error: true *)

(** [api] is window.api.readFileBase64. *)
Definition tool_viewImage (api : ustring -> outcome base64_result) (path : ustring)
  : image_result :=
  match api path with
  | Returned result =>
      ImageLoaded path (b_mimeType result) (b_dataUrl result)
        (u "Image loaded successfully. The image is now visible to you.")
  | Thrown errorMessage =>
      let isHandlerMissing := includes (u "No handler registered") errorMessage in
      ImageError errorMessage
        (if isHandlerMissing
         then u "IMPORTANT: Tell the user this error: " ++ quote
              ++ u "The image viewing feature requires a full app restart. Please close and reopen the app, then try again."
              ++ quote
              ++ u " Do NOT retry this tool - it will fail until the app is restarted."
         else u "Check if the file exists, is a valid image format (PNG, JPG, GIF, WEBP), and you have permission to read it. You may retry once if the path was incorrect.")
        isHandlerMissing (negb isHandlerMissing)
  end.

(** ** renderer/services/ai/tools.ts: formatFileSize *)

(** [(num / den).toFixed(1)] for a size [num] below 2^53 and a power of two
    [den]: the quotient is exact, and toFixed takes the nearest number of
    tenths, the larger of two that are equally near. *)
Definition tenths (num den : Z) : Z := ((20 * num + den) / (2 * den))%Z.

Definition toFixed1 (num den : Z) : ustring :=
  show_Z (tenths num den / 10) ++ u "." ++ show_Z (tenths num den mod 10).

Definition formatFileSize (bytes : Z) : ustring :=
  if (bytes <? 1024)%Z then show_Z bytes ++ u " B"
  else if (bytes <? 1024 * 1024)%Z then toFixed1 bytes 1024 ++ u " KB"
  else if (bytes <? 1024 * 1024 * 1024)%Z then toFixed1 bytes (1024 * 1024) ++ u " MB"
  else toFixed1 bytes (1024 * 1024 * 1024) ++ u " GB".

(** ** The permission handlers (registerPermissionHandlers) *)
Module Permissions.

(** A row of the table of persisted permissions, of which the pair of
    [path] and [operation] is the unique key [path_operation]; an object of
    the same shape is what a grant for the session returns. *)
Record Permission : Type := {
  id : ustring;
  path : ustring;
  operation : ustring;
  scope : ustring;
  createdAt : Z
}.

(** The state that the handlers share: the Map [sessionPermissions], as
    its entries in the order of insertion, and the table behind
    [prisma.permission]. *)
Record State : Type := {
  sessionPermissions : list (ustring * bool);
  table : list Permission
}.

Definition initial : State := {| sessionPermissions := []; table := [] |}.

Definition permissionKey (path operation : ustring) : ustring :=
  path ++ u ":" ++ operation.

(** Map.prototype.has, set and delete: [set] keeps the place of a key that
    is present and appends one that is not. *)
Definition map_has (key : ustring) (m : list (ustring * bool)) : bool :=
  existsb (fun entry => bool_decide (fst entry = key)) m.

Fixpoint map_set (key : ustring) (value : bool) (m : list (ustring * bool))
  : list (ustring * bool) :=
  match m with
  | [] => [(key, value)]
  | entry :: m' =>
      if bool_decide (fst entry = key) then (key, value) :: m'
      else entry :: map_set key value m'
  end.

Definition map_delete (key : ustring) (m : list (ustring * bool))
  : list (ustring * bool) :=
  filter (fun entry => fst entry ≠ key) m.

(** The queries of the table by its unique key. *)
Definition is_row (path operation : ustring) (row : Permission) : bool :=
  bool_decide (Permissions.path row = path ∧ Permissions.operation row = operation).

Definition findUnique (path operation : ustring) (rows : list Permission)
  : option Permission :=
  List.find (is_row path operation) rows.

(** [upsert]: the row of the key gets the new scope, or a row is created,
    whose [id] and [createdAt] are the defaults [fresh] and [now] of the
    table. *)
Definition upsert (fresh : ustring) (now : Z) (path operation scope : ustring)
    (rows : list Permission) : Permission * list Permission :=
  match findUnique path operation rows with
  | Some row =>
      let row' := {| id := id row; path := Permissions.path row;
                     operation := Permissions.operation row;
                     scope := scope; createdAt := createdAt row |} in
      (row', map (fun r => if is_row path operation r then row' else r) rows)
  | None =>
      let row := {| id := fresh; path := path; operation := operation;
                    scope := scope; createdAt := now |} in
      (row, rows ++ [row])
  end.

(** [delete], whose rejection for a missing row the handler ignores. *)
Definition delete_row (path operation : ustring) (rows : list Permission)
  : list Permission :=
  filter (fun r => is_row path operation r = false) rows.

Inductive checked : Type :=
| CheckedSession (path operation : ustring)   (* scope: 'session' *)
| CheckedRow (row : Permission)
| CheckedNull.

Definition check (path operation : ustring) (state : State) : checked :=
  let key := permissionKey path operation in
  if map_has key (sessionPermissions state) then CheckedSession path operation
  else match findUnique path operation (table state) with
       | Some permission => CheckedRow permission
       | None => CheckedNull
       end.

Definition grant (fresh : ustring) (now : Z) (path operation scope : ustring)
    (state : State) : Permission * State :=
  let key := permissionKey path operation in
  if bool_decide (scope = u "session") then
    ({| id := key; path := path; operation := operation; scope := scope;
        createdAt := now |},
     {| sessionPermissions := map_set key true (sessionPermissions state);
        table := table state |})
  else
    let (row, rows) := upsert fresh now path operation scope (table state) in
    (row, {| sessionPermissions := sessionPermissions state; table := rows |}).

Definition revoke (path operation : ustring) (state : State) : State :=
  let key := permissionKey path operation in
  {| sessionPermissions := map_delete key (sessionPermissions state);
     table := delete_row path operation (table state) |}.

(** An element of the list of permissions:list: a row of the table, or the
    object made from a key of the Map, whose [path] and [operation] are the
    first two pieces of [key.split(':')]; a piece that is missing is
    undefined. *)
Inductive listed : Type :=
| ListedRow (row : Permission)
| ListedSession (id : ustring) (path operation : option ustring) (createdAt : Z).

(** [clock i] is the value of [new Date()] while the key at index [i] is
    mapped. *)
Definition list_permissions (clock : nat -> Z) (state : State) : list listed :=
  let persisted := table state in
  let session :=
    imap (fun i entry =>
            let key := fst entry in
            let pieces := js_split 58 key in
            ListedSession key (pieces !! 0%nat) (pieces !! 1%nat) (clock i))
         (sessionPermissions state) in
  map ListedRow persisted ++ session.

Definition clearSession (state : State) : State :=
  {| sessionPermissions := []; table := table state |}.

End Permissions.

(** ** The attachment store (useAttachmentStore) *)
Module AttachmentStore.

Inductive attachment_type : Type := image | file.

Record Attachment : Type := {
  id : ustring;
  type : attachment_type;
  name : ustring;
  data : ustring;
  mimeType : ustring
}.

Record State : Type := { attachments : gmap ustring (list Attachment) }.

Definition initial : State := {| attachments := ∅ |}.

(** The key of a message: the conversation and the first 50 code units
    of its content. *)
Definition hashKey (conversationId content : ustring) : ustring :=
  conversationId ++ u ":" ++ take 50 content.

Definition storeAttachments (key : ustring) (new_attachments : list Attachment)
    (state : State) : State :=
  {| attachments := <[key := new_attachments]> (attachments state) |}.

(** What getAttachments returns: a list, or the member of Object.prototype
    that the key names when the record has no such key of its own. *)
Inductive got : Type :=
| GotAttachments (l : list Attachment)
| GotInherited (name : ustring).

Definition getAttachments (key : ustring) (state : State) : got :=
  match JsObject.get (attachments state) key with
  | JsObject.Own l => GotAttachments l
  | JsObject.Inherited name => GotInherited name
  | JsObject.Undefined => GotAttachments []
  end.

Definition clear (state : State) : State := {| attachments := ∅ |}.

End AttachmentStore.

(** ** main/ipc/skillregistry.ipc.ts: the handler skillregistry:getContent *)

(** What [fetch] does for the page of a skill: it rejects, or resolves
    with a response, whose [text()] may reject in its turn ([None]). *)
Inductive text_outcome : Type :=
| TextRejected (message : ustring)
| TextResponse (ok : bool) (status : Z) (body : option ustring).

Definition skill_url (skillId : ustring) : ustring :=
  u "https://skillregistry.io/skills/" ++ skillId.

Definition skillregistry_getContent (fetch : ustring -> text_outcome)
    (skillId : ustring) : option ustring :=
  match fetch (skill_url skillId) with
  | TextRejected _ => None
  | TextResponse ok _ body => if negb ok then None else body
  end.

(** ** renderer/services/ai/tools.ts: the tool installSkill, and
    handleInstall of renderer/components/skills/SkillsMarketplace.tsx *)
Module SkillTools.

(** An installed skill, of which only the name is read. *)
Record Skill : Type := { name : ustring }.

(** The argument of window.api.createSkill. *)
Record skill_data : Type := {
  sd_name : ustring;
  sd_description : ustring;
  sd_content : ustring;
  sd_sourceUrl : ustring
}.

(** [window.api] as the two installers use it; each call may reject. *)
Record api : Type := {
  getSkills : outcome (list Skill);
  skillRegistryGetContent : ustring -> outcome (option ustring);
  createSkill : skill_data -> outcome unit
}.

Inductive event : Type :=
| EvGetSkills
| EvGetContent (skillId : ustring)
| EvCreateSkill (data : skill_data).

Inductive install_result : Type :=
| AlreadyInstalled (message : ustring)            (* success: true *)
| ContentMissing (message suggestion : ustring)   (* error: true *)
| Installed (name message skillContent note : ustring)
| InstallError (message suggestion : ustring).    (* error: true *)

Definition preview (content : ustring) : ustring :=
  take 500 content ++ (if (500 <? length content)%nat then u "..." else []).

Definition install_error (message : ustring) : install_result :=
  InstallError message
    (u "Try searching for the skill again or use the browser instead.").

Definition content_missing (skillId : ustring) : install_result :=
  ContentMissing (u "Failed to fetch skill content for " ++ skillId)
    (u "The skill may have been removed. Try searching again.").

Definition installSkill (a : api) (skillId name description : ustring)
  : install_result * list event :=
  match getSkills a with
  | Thrown message => (install_error message, [EvGetSkills])
  | Returned existingSkills =>
      if existsb (fun s => bool_decide (SkillTools.name s = name)) existingSkills then
        (AlreadyInstalled (u "Skill " ++ quote ++ name ++ quote
                           ++ u " is already installed. You can use it now."),
         [EvGetSkills])
      else
        match skillRegistryGetContent a skillId with
        | Thrown message => (install_error message, [EvGetSkills; EvGetContent skillId])
        | Returned None => (content_missing skillId, [EvGetSkills; EvGetContent skillId])
        | Returned (Some content) =>
            if negb (truthy content) then
              (content_missing skillId, [EvGetSkills; EvGetContent skillId])
            else
              let data := {| sd_name := name; sd_description := description;
                             sd_content := content;
                             sd_sourceUrl := skill_url skillId |} in
              let events := [EvGetSkills; EvGetContent skillId; EvCreateSkill data] in
              match createSkill a data with
              | Thrown message => (install_error message, events)
              | Returned _ =>
                  (Installed name
                     (u "Successfully installed skill " ++ quote ++ name ++ quote
                      ++ u ". The skill instructions are now available. You can use them to help the user.")
                     (preview content)
                     (u "The full skill content is now part of your context. Follow the instructions in the skill to help the user."),
                   events)
              end
        end
  end.

(** handleInstall of the marketplace: fetchSkillContent throws on a
    missing content, and the handler of the button catches whatever is
    thrown. *)
Definition handleInstall (a : api) (skill : RegistrySkill) : list event :=
  match skillRegistryGetContent a (sk_id skill) with
  | Thrown _ => [EvGetContent (sk_id skill)]
  | Returned None => [EvGetContent (sk_id skill)]
  | Returned (Some content) =>
      if negb (truthy content) then [EvGetContent (sk_id skill)]
      else [EvGetContent (sk_id skill);
            EvCreateSkill {| sd_name := sk_name skill;
                             sd_description := sk_description skill;
                             sd_content := content;
                             sd_sourceUrl := skill_url (sk_id skill) |}]
  end.

End SkillTools.

(** ** renderer/services/ai/tools.ts: the tool askQuestion *)
Module AskQuestion.
Import QuestionStore.

Record result : Type := {
  success : bool;
  message : ustring;
  questionSetId : ustring;
  questionCount : nat;
  waitingForResponse : bool
}.

(** The store operation does not throw, so that the catch block of the
    executor is never entered. *)
Definition execute (now : Z) (inputs : list question_input) (state : State)
  : result * State :=
  let (new_id, state') := setQuestions now inputs state in
  ({| success := true;
      message := u "Questions displayed to user. Waiting for their response...";
      questionSetId := new_id;
      questionCount := length inputs;
      waitingForResponse := true |},
   state').

(** What the schema of the parameters admits: one to five questions, each
    with an id and two to five options. *)
Definition admitted (inputs : list question_input) : Prop :=
  (1 ≤ length inputs ≤ 5)%nat
  ∧ Forall (fun q => is_Some (qi_id q) ∧ (2 ≤ length (qi_options q) ≤ 5)%nat) inputs.

End AskQuestion.

(** ** main/database.ts *)
Module Database.

(** What the module only calls: the packaging flag and the directories of
    the application, path.join, the two calls of the file system, and the
    calls on a client that may reject; the outcome of the write of the
    default settings is not among them, as it is only logged. *)
Record environment : Type := {
  isPackaged : bool;
  process_cwd : ustring;
  userData : ustring;
  resourcesPath : ustring;
  join : list ustring -> ustring;
  existsSync : ustring -> bool;
  copyFileSync : ustring -> ustring -> outcome unit;
  connect : ustring -> outcome unit;
  disconnect : ustring -> outcome unit
}.

(** A client, told from others by the address of its data source. *)
Record PrismaClient : Type := { url : ustring }.

(** The variable [prisma] of the module. *)
Record State : Type := { prisma : option PrismaClient }.

Definition initial : State := {| prisma := None |}.

Inductive event : Type :=
| EvCopyFile (source destination : ustring)
| EvConnect (url : ustring)
| EvUpsertSettings (url : ustring)
| EvDisconnect (url : ustring).

(** The part of initDatabase after the path is known: the client is
    assigned to the variable before it connects, and a failure to write
    the default settings is logged, not thrown. *)
Definition open_client (env : environment) (dbPath : ustring) (events : list event)
  : outcome PrismaClient * State * list event :=
  let client := {| url := u "file:" ++ dbPath |} in
  let state := {| prisma := Some client |} in
  match connect env (url client) with
  | Thrown message => (Thrown message, state, events ++ [EvConnect (url client)])
  | Returned _ =>
      (Returned client, state,
       events ++ [EvConnect (url client); EvUpsertSettings (url client)])
  end.

Definition initDatabase (env : environment) (state : State)
  : outcome PrismaClient * State * list event :=
  match prisma state with
  | Some client => (Returned client, state, [])
  | None =>
      let isDev := negb (isPackaged env) in
      if isDev then
        open_client env (join env [process_cwd env; u "prisma"; u "dev.db"]) []
      else
        let dbPath := join env [userData env; u "open-cowork.db"] in
        let templateDbPath := join env [resourcesPath env; u "prisma"; u "dev.db"] in
        if negb (existsSync env dbPath) && existsSync env templateDbPath then
          match copyFileSync env templateDbPath dbPath with
          | Thrown message => (Thrown message, state, [EvCopyFile templateDbPath dbPath])
          | Returned _ => open_client env dbPath [EvCopyFile templateDbPath dbPath]
          end
        else open_client env dbPath []
  end.

Definition getDatabase (state : State) : outcome PrismaClient :=
  match prisma state with
  | None => Thrown (u "Database not initialized. Call initDatabase first.")
  | Some client => Returned client
  end.

Definition closeDatabase (env : environment) (state : State)
  : outcome unit * State * list event :=
  match prisma state with
  | Some client =>
      match disconnect env (url client) with
      | Thrown message => (Thrown message, state, [EvDisconnect (url client)])
      | Returned _ => (Returned tt, {| prisma := None |}, [EvDisconnect (url client)])
      end
  | None => (Returned tt, state, [])
  end.

End Database.

(** ** Concrete collaborators

    Hosts on which the definitions above can be run: the bridge rejects as
    ipcRenderer.invoke does, with the message of the handler behind a fixed
    prefix that names the channel. *)
Definition electron_invoke_error (channel message : ustring) : ustring :=
  u "Error invoking remote method '" ++ channel ++ u "': Error: " ++ message.

(** Every command succeeds and prints nothing. *)
Definition quiet_host : host :=
  {| execAsync := fun _ _ => ExecResolved [] [];
     process_cwd := u "/home/user";
     invoke_error := electron_invoke_error |}.

(** Every command exits with the given code, having written [out] and
    [err]; the message is the one child_process.exec composes. *)
Definition exit_error (command : ustring) (n : Z) (out err : ustring) : exec_error :=
  {| e_code := Some (CodeNum n); e_killed := false;
     e_stdout := Some out; e_stderr := Some err;
     e_message := Some (u "Command failed: " ++ command ++ [10] ++ err) |}.

Definition exiting_host (n : Z) (out err : ustring) : host :=
  {| execAsync := fun command _ => ExecRejected (exit_error command n out err);
     process_cwd := u "/home/user";
     invoke_error := electron_invoke_error |}.

(** One file, whatever the path. *)
Definition single_file (content : ustring) : filesystem :=
  {| fs_stat := fun _ => Some false;
     fs_resolve := fun path => path;
     fs_glob_files := fun _ => [];
     fs_readFile := fun _ => Some content |}.

(** ** The statements of the specification that the code is compared with *)

(** The timeout that reaches the execution primitive, in the words of the
    specification: the smaller of the timeout of the caller and 120000 when
    there is one, 30000 otherwise. *)
Definition claimed_timeout (timeout : option Z) : Z :=
  match timeout with
  | Some t => Z.min t 120000
  | None => 30000
  end.

(** The timeouts of the calls of the execution primitive in a trace. *)
Definition timeouts (calls : list exec_call) : list Z :=
  map (fun c => eo_timeout (ec_options c)) calls.

(** The process of the command ran to its end and left the exit code [n],
    having written [out] and [err]: exec rejects with an error that carries
    the three, and it did not kill the process. *)
Definition exited_with (o : exec_outcome) (n : Z) (out err : ustring)
    (msg : option ustring) : Prop :=
  o = ExecRejected {| e_code := Some (CodeNum n); e_killed := false;
                      e_stdout := Some out; e_stderr := Some err;
                      e_message := msg |}.

(** The exit code and the two streams that a result of the tool bash
    reports for a command that failed. *)
Definition reported (r : bash_tool_result) : option (js_code * ustring * ustring) :=
  match r with
  | BashFailed exitCode stdout stderr _ _ => Some (exitCode, stdout, stderr)
  | _ => None
  end.

(** The options with which the handler calls the execution primitive. *)
Definition exec_opts (h : host) (cwd : option ustring) (timeout : Z) : exec_options :=
  {| eo_cwd := or_else cwd (process_cwd h); eo_timeout := timeout;
     eo_maxBuffer := 10 * 1024 * 1024 |}.

(** No preferred browser is configured: the settings record is missing, or
    its member is missing or empty. *)
Definition unconfigured (a : BrowserTools.api) : Prop :=
  ∃ settings, BrowserTools.getSettings a = Returned settings
              ∧ BrowserTools.is_configured settings = false.

(** A call of a browser tool from the world [w] fails fast: it returns a
    result marked needsBrowserSetup, raises the signal of the selection
    dialog once, and does not reach the collaborator. *)
Definition fails_fast (a : BrowserTools.api) (c : BrowserTools.tool_call)
    (w : BrowserTools.world) : Prop :=
  ∃ r w', BrowserTools.execute a c w = (Returned r, w')
          ∧ BrowserTools.needsBrowserSetup r = true
          ∧ ∃ events, BrowserTools.trace w' = BrowserTools.trace w ++ events
                      ∧ BrowserTools.signals events = 1%nat
                      ∧ BrowserTools.dispatches events = 0%nat.

(** A browser in which no page is open, and no settings record. *)
Definition no_page : BrowserTools.browser_response :=
  {| BrowserTools.r_error := true;
     BrowserTools.r_message := Some (u "No page open");
     BrowserTools.r_url := None; BrowserTools.r_title := None;
     BrowserTools.r_screenshot := None; BrowserTools.r_content := None;
     BrowserTools.r_count := None; BrowserTools.r_links := None;
     BrowserTools.r_image := None |}.

Definition fresh_install : BrowserTools.api :=
  {| BrowserTools.getSettings := Returned (Some {| BrowserTools.preferredBrowser := None |});
     BrowserTools.browser := fun _ => Returned no_page |}.

(** The registry cannot be reached: every fetch rejects. *)
Definition offline (fetch : registry_url -> fetch_outcome) : Prop :=
  ∀ url, ∃ message, fetch url = FetchRejected message.

Definition unplugged : registry_url -> fetch_outcome :=
  fun _ => FetchRejected (u "fetch failed").

(** Two strings that differ in the case of ASCII letters only. *)
Definition same_letter (a b : N) : Prop := to_upper a = to_upper b.
Definition same_letters (s t : ustring) : Prop := Forall2 same_letter s t.

(** [stretch s t]: [t] is [s] with some of its white-space characters
    repeated, so that the runs of white space between the tokens of [s] are
    longer in [t]. *)
Inductive stretch : ustring -> ustring -> Prop :=
| stretch_nil : stretch [] []
| stretch_same (c : N) (s t : ustring) :
    stretch s t -> stretch (c :: s) (c :: t)
| stretch_more (w : N) (s t : ustring) :
    is_space w = true -> stretch (w :: s) t -> stretch (w :: s) (w :: t).

(** [needle] occurs in [hay]. *)
Definition contains (needle hay : ustring) : Prop :=
  ∃ before after, hay = before ++ needle ++ after.

(** An atom that matches no white-space character, decided on its text:
    a pattern character that is none, or a class whose ranges lie between
    the space and the no-break space. *)
Definition atom_rejects_space (a : atom) : bool :=
  match a with
  | Lit c => negb (is_space c)
  | Class ranges => forallb (fun r => (32 <? fst r) && (snd r <? 160)) ranges
  | Space => false
  | Dot => false
  end.

(** A pattern in which white space is matched under a quantifier only. *)
Fixpoint space_quantified (r : regex) : bool :=
  match r with
  | Empty | WordB | Star _ | Plus _ => true
  | Atom a => atom_rejects_space a
  | Seq r1 r2 | Alt r1 r2 => space_quantified r1 && space_quantified r2
  | Group r | Opt r => space_quantified r
  end.

(** The last pattern of BLOCKED_PATTERNS. *)
Definition device_pattern : regex :=
  seqs [lits ">"; Star Space; lits "/dev/";
        Group (Alt (lits "sda") (Alt (lits "hda") (lits "null")))].

(** ** Notions used in the proofs *)

(** The timeout that the tool hands to the bridge. *)
Definition tool_timeout (args : bash_args) : Z :=
  Z.min (num_or (ba_timeout args) 30000) 120000.

(** The code units before the current position of two matches agree up to
    the case of letters, and so do two continuations. *)
Definition same_prev (p q : option N) : Prop := option_Forall2 same_letter p q.

Definition cont_same (k k' : cont) : Prop :=
  ∀ p q s t, same_prev p q → same_letters s t → k p s = k' q t.

(** A continuation that accepts a rest accepts the stretched rest. *)
Definition cont_stretch (k k' : cont) : Prop :=
  ∀ p s t, stretch s t → k p s = true → k' p t = true.

(** A question without a selection and without a custom answer, and the
    answer that is recorded for it. *)
Definition unanswered (q : QuestionStore.Question) : Prop :=
  QuestionStore.selectedOptionId q = None ∧ QuestionStore.customAnswer q = None.

Definition blank : QuestionStore.Answer :=
  {| QuestionStore.selectedOption := None; QuestionStore.answer_customAnswer := None |}.

(** Settles the comparisons of a goal about a code unit whose range is
    known from the hypotheses. *)
Ltac decide_ranges :=
  unfold is_space, is_line_terminator, is_word, to_upper, to_lower; unfold in_range;
  repeat match goal with
    | |- context [(?a <=? ?b)] =>
        first [ replace (a <=? b) with true by (symmetry; apply N.leb_le; lia)
              | replace (a <=? b) with false by (symmetry; apply N.leb_gt; lia) ]
    | |- context [(?a =? ?b)] =>
        first [ replace (a =? b) with true by (symmetry; apply N.eqb_eq; lia)
              | replace (a =? b) with false by (symmetry; apply N.eqb_neq; lia) ]
    | |- context [(?a <? ?b)] =>
        first [ replace (a <? b) with true by (symmetry; apply N.ltb_lt; lia)
              | replace (a <? b) with false by (symmetry; apply N.ltb_ge; lia) ]
    end;
  cbn [andb orb negb].

(** Unfolds the plumbing of the computations of the renderer. *)
Ltac unfold_eff :=
  unfold BrowserTools.try_catch, mbind, BrowserTools.Eff_bind, BrowserTools.bind,
         BrowserTools.await, mret, BrowserTools.Eff_ret, BrowserTools.ret.

(** ** Notions and collaborators of the further properties *)

(** Two code units before a position that a word boundary cannot tell
    apart, and two continuations of which the second accepts the rest
    followed by [post] wherever the first accepts the rest. *)
Definition same_wordness (p q : option N) : Prop := is_word_opt p = is_word_opt q.

Definition cont_extend (post : ustring) (k k' : cont) : Prop :=
  ∀ p q t, same_wordness p q → k p t = true → k' q (t ++ post) = true.

(** Every command is killed when its timeout expires: exec rejects with
    an error that has no exit code. *)
Definition hanging_host : host :=
  {| execAsync := fun command _ =>
       ExecRejected {| e_code := None; e_killed := true;
                       e_stdout := Some []; e_stderr := Some [];
                       e_message := Some (u "Command failed: " ++ command ++ [10]) |};
     process_cwd := u "/home/user";
     invoke_error := electron_invoke_error |}.

(** The matching lines of a file in the order of the lines, those of the
    files in the order of the files, and the files that a search path
    stands for. *)
Fixpoint line_matches (E : engine) (regex : RegExp E) (filePath : ustring) (i : nat)
    (lines : list ustring) : list grep_match :=
  match lines with
  | [] => []
  | line :: rest =>
      match match_first E regex line with
      | Some m => [{| gm_file := filePath; gm_line := i + 1;
                      gm_content := substring0 200 (trim line); gm_match := m |}]
      | None => []
      end ++ line_matches E regex filePath (S i) rest
  end.

Definition file_matches (E : engine) (fs : filesystem) (regex : RegExp E)
    (filePath : ustring) : list grep_match :=
  match fs_readFile fs filePath with
  | Some content => line_matches E regex filePath 0 (split_lines content)
  | None => []
  end.

Definition all_matches (E : engine) (fs : filesystem) (regex : RegExp E)
    (files : list ustring) : list grep_match :=
  flat_map (file_matches E fs regex) files.

Definition searched_files (fs : filesystem) (searchPath : ustring) : list ustring :=
  match fs_stat fs (fs_resolve fs searchPath) with
  | Some true => fs_glob_files fs (fs_resolve fs searchPath)
  | Some false => [fs_resolve fs searchPath]
  | None => []
  end.

(** The number of entries at which the loops of grep stop: the least
    whole number that is no less than the cap, and none when the cap is
    NaN or the positive infinity, which no length reaches. *)
Definition entries_allowed (cap : js_number) : option nat :=
  match cap with
  | Finite q => Some (Z.to_nat (Qceiling q))
  | Infinite true => Some 0%nat
  | Infinite false => None
  | NaN => None
  end.

(** The entries of a list that remain to be taken under a cap when
    [taken] of them have been taken already. *)
Definition still_allowed {A : Type} (cap : js_number) (taken : nat) (l : list A) : list A :=
  match entries_allowed cap with
  | Some n => take (n - taken) l
  | None => l
  end.

(** A file of four lines that all contain the word sought. *)
Definition four_todos : ustring :=
  u "todo 1" ++ [10] ++ u "todo 2" ++ [10] ++ u "todo 3" ++ [10] ++ u "todo 4".

(** The page of a skill cannot be had: the fetch rejects, the status is
    an error, or the body cannot be read or is empty. *)
Definition unavailable (o : text_outcome) : Prop :=
  match o with
  | TextRejected _ => True
  | TextResponse ok _ body => ok = false ∨ body = None ∨ body = Some []
  end.

(** [window.api] of the installers over the handler of the registry, with
    the skills that are installed and the outcome of createSkill. *)
Definition registry_api (installed : list SkillTools.Skill)
    (fetch : ustring -> text_outcome)
    (create : SkillTools.skill_data -> outcome unit) : SkillTools.api :=
  {| SkillTools.getSkills := Returned installed;
     SkillTools.skillRegistryGetContent :=
       fun skillId => Returned (skillregistry_getContent fetch skillId);
     SkillTools.createSkill := create |}.

(** A registry that serves the same page for every skill. *)
Definition serving (content : ustring) : ustring -> text_outcome :=
  fun _ => TextResponse true 200 (Some content).

(** Strings of ASCII characters, and what toLowerCase does to them. *)
Definition ascii (s : ustring) : Prop := Forall (fun c => c < 128) s.

Definition lower_ascii (s : ustring) : ustring := map to_lower s.

Definition lowers_ascii (R : file_reader) : Prop :=
  ∀ s, ascii s → toLowerCase R s = lower_ascii s.

(** Every file holds the same bytes; the strings are ASCII. *)
Definition plain_reader (base64 : ustring) : file_reader :=
  {| readFile_base64 := fun _ => Returned base64;
     toLowerCase := lower_ascii;
     inherited_text := fun _ => u "[object Object]" |}.

(** The divisors and the unit names of formatFileSize. *)
Definition size_units : list (Z * ustring) :=
  [(1024, u " KB"); (1024 * 1024, u " MB"); (1024 * 1024 * 1024, u " GB")]%Z.

(** The index of the active question set points at one of its questions,
    unless there are none. *)
Definition index_ok (state : QuestionStore.State) : Prop :=
  match QuestionStore.activeQuestionSet state with
  | Some qs =>
      QuestionStore.questions qs = []
      ∨ (0 ≤ QuestionStore.currentIndex qs
           < Z.of_nat (length (QuestionStore.questions qs)))%Z
  | None => True
  end.

(** Two questions as the tool askQuestion receives them, and the store
    after they were asked. *)
Definition language_question : QuestionStore.question_input :=
  {| QuestionStore.qi_id := Some (u "lang");
     QuestionStore.qi_question := u "Which language?";
     QuestionStore.qi_options :=
       [{| QuestionStore.o_id := u "ts"; QuestionStore.o_label := u "TypeScript" |};
        {| QuestionStore.o_id := u "py"; QuestionStore.o_label := u "Python" |}];
     QuestionStore.qi_allowCustom := true |}.

Definition framework_question : QuestionStore.question_input :=
  {| QuestionStore.qi_id := Some (u "framework");
     QuestionStore.qi_question := u "Which framework?";
     QuestionStore.qi_options :=
       [{| QuestionStore.o_id := u "react"; QuestionStore.o_label := u "React" |};
        {| QuestionStore.o_id := u "vue"; QuestionStore.o_label := u "Vue" |}];
     QuestionStore.qi_allowCustom := true |}.

Definition asked : QuestionStore.State :=
  snd (QuestionStore.setQuestions 1700000000000
         [language_question; framework_question] QuestionStore.initial).

(** The first of the two as the store holds it, and the store after both
    were answered. *)
Definition language_stored : QuestionStore.Question :=
  {| QuestionStore.id := u "lang";
     QuestionStore.question := u "Which language?";
     QuestionStore.options :=
       [{| QuestionStore.o_id := u "ts"; QuestionStore.o_label := u "TypeScript" |};
        {| QuestionStore.o_id := u "py"; QuestionStore.o_label := u "Python" |}];
     QuestionStore.allowCustom := true;
     QuestionStore.selectedOptionId := None;
     QuestionStore.customAnswer := None |}.

Definition answered : QuestionStore.State :=
  QuestionStore.setCustomAnswer (u "framework") (u "Svelte")
    (QuestionStore.selectOption (u "lang") (u "ts") asked).

(** A question whose id is the name __proto__, which the schema of the
    tool admits as it admits every string. *)
Definition proto_question : QuestionStore.question_input :=
  {| QuestionStore.qi_id := Some (u "__proto__");
     QuestionStore.qi_question := u "Which prototype?";
     QuestionStore.qi_options :=
       [{| QuestionStore.o_id := u "a"; QuestionStore.o_label := u "Paper" |};
        {| QuestionStore.o_id := u "b"; QuestionStore.o_label := u "Clay" |}];
     QuestionStore.qi_allowCustom := true |}.

(** A preferred browser is configured and a page is open. *)
Definition page_open : BrowserTools.browser_response :=
  {| BrowserTools.r_error := false;
     BrowserTools.r_message := None;
     BrowserTools.r_url := Some (u "https://github.com/");
     BrowserTools.r_title := Some (u "GitHub");
     BrowserTools.r_screenshot := None; BrowserTools.r_content := None;
     BrowserTools.r_count := None; BrowserTools.r_links := None;
     BrowserTools.r_image := None |}.

Definition chrome_ready : BrowserTools.api :=
  {| BrowserTools.getSettings :=
       Returned (Some {| BrowserTools.preferredBrowser := Some (u "chrome") |});
     BrowserTools.browser := fun _ => Returned page_open |}.

(* ===================================================================== *)
(** * Part II: properties                                                  *)
(* ===================================================================== *)

(** ** The literals of BLOCKED_PATTERNS

    The abstract syntax above prints to the text of the ten literals of the
    source. *)
Example BLOCKED_PATTERNS_source :
  map toString BLOCKED_PATTERNS =
  map u [ "/\brm\s+(-[a-zA-Z]*f|-[a-zA-Z]*r|--force|--recursive)/i";
          "/\brm\s+-rf\b/i";
          "/\brm\s+-fr\b/i";
          "/\bsudo\s+rm\b/i";
          "/\bmkfs\b/i";
          "/\bdd\s+.*\bof=/i";
          "/\b:.*\(\).*\{.*:\|.*\}/i";
          "/\bchmod\s+(-[a-zA-Z]*)?\s*(000|777|a-rwx)/i";
          "/\bchown\s+.*\//i";
          "/>\s*\/dev\/(sda|hda|null)/i" ].
Proof. vm_compute. reflexivity. Qed.

(** ** Characters *)

Lemma same_letter_cases (a b : N) :
  same_letter a b →
  a = b ∨ (97 <= a <= 122 ∧ b = a - 32) ∨ (97 <= b <= 122 ∧ a = b - 32).
Proof.
  unfold same_letter, to_upper, in_range. intros H.
  destruct (N.leb_spec 97 a), (N.leb_spec a 122), (N.leb_spec 97 b), (N.leb_spec b 122);
    cbn in H; lia.
Qed.

Lemma lower_letter_class (c : N) :
  97 <= c <= 122 →
  is_space c = false ∧ is_line_terminator c = false ∧ is_word c = true
  ∧ to_upper c = c - 32 ∧ to_lower c = c.
Proof. intros Hc. repeat split; decide_ranges; reflexivity. Qed.

Lemma upper_letter_class (c : N) :
  65 <= c <= 90 →
  is_space c = false ∧ is_line_terminator c = false ∧ is_word c = true
  ∧ to_upper c = c ∧ to_lower c = c + 32.
Proof. intros Hc. repeat split; decide_ranges; reflexivity. Qed.

(** A lower-case letter and its upper case are accepted by the same atoms
    and are both word characters. *)
Lemma atom_ok_lower_upper (a : atom) (c : N) :
  97 <= c <= 122 → atom_ok a c = atom_ok a (c - 32).
Proof.
  intros Hc.
  destruct (lower_letter_class c Hc) as (Hs & Hl & _ & Hu & Hlo).
  destruct (upper_letter_class (c - 32) ltac:(lia)) as (Hs' & Hl' & _ & Hu' & Hlo').
  destruct a as [x|ranges| |]; cbn.
  - unfold canon. by rewrite Hu, Hu'.
  - rewrite Hu, Hlo, Hu', Hlo'. replace (c - 32 + 32) with c by lia.
    induction ranges as [|r ranges IH]; cbn; [done|]. rewrite IH. f_equal.
    by destruct (in_range _ _ c), (in_range _ _ (c - 32)).
  - by rewrite Hs, Hs'.
  - by rewrite Hl, Hl'.
Qed.

Lemma is_word_lower_upper (c : N) : 97 <= c <= 122 → is_word c = is_word (c - 32).
Proof.
  intros Hc. destruct (lower_letter_class c Hc) as (_ & _ & -> & _).
  by destruct (upper_letter_class (c - 32) ltac:(lia)) as (_ & _ & -> & _).
Qed.

Lemma atom_ok_same_letter (a : atom) (c d : N) :
  same_letter c d → atom_ok a c = atom_ok a d.
Proof.
  intros H. destruct (same_letter_cases c d H) as [->|[[Hc ->]|[Hd ->]]]; [done|..].
  - by apply atom_ok_lower_upper.
  - symmetry. by apply atom_ok_lower_upper.
Qed.

Lemma is_word_same_letter (c d : N) : same_letter c d → is_word c = is_word d.
Proof.
  intros H. destruct (same_letter_cases c d H) as [->|[[Hc ->]|[Hd ->]]]; [done|..].
  - by apply is_word_lower_upper.
  - symmetry. by apply is_word_lower_upper.
Qed.

(** ** Matching is blind to the case of letters *)

Lemma is_word_opt_same p q : same_prev p q → is_word_opt p = is_word_opt q.
Proof. intros [c d H|]; cbn; [by apply is_word_same_letter | done]. Qed.

Lemma star_loop_same (a : atom) (k k' : cont) :
  cont_same k k' →
  ∀ s t p q, same_prev p q → same_letters s t → star_loop a p s k = star_loop a q t k'.
Proof.
  intros Hk s t p q Hp Hst. revert p q Hp.
  induction Hst as [|c d s t Hcd Hst IH]; intros p q Hp; cbn.
  - apply Hk; [done | constructor].
  - rewrite (atom_ok_same_letter a c d Hcd).
    rewrite (IH (Some c) (Some d)) by by constructor.
    f_equal. apply Hk; [done | by constructor].
Qed.

Lemma matches_same (r : regex) :
  ∀ k k' s t p q, cont_same k k' → same_prev p q → same_letters s t →
                  matches r p s k = matches r q t k'.
Proof.
  induction r as [|a| |r1 IH1 r2 IH2|r1 IH1 r2 IH2|r IH|r IH|a|a];
    intros k k' s t p q Hk Hp Hst; cbn.
  - by apply Hk.
  - destruct Hst as [|c d s t Hcd Hst]; [done|].
    rewrite (atom_ok_same_letter a c d Hcd). f_equal. apply Hk; [by constructor | done].
  - rewrite (is_word_opt_same p q Hp).
    replace (is_word_opt (head t)) with (is_word_opt (head s)).
    + destruct (xorb _ _); [by apply Hk | done].
    + apply is_word_opt_same. destruct Hst; cbn; by constructor.
  - apply IH1; [|done..]. intros p' q' s' t' Hp' Hst'. by apply IH2.
  - f_equal; [by apply IH1 | by apply IH2].
  - by apply IH.
  - f_equal; [by apply IH | by apply Hk].
  - by apply star_loop_same.
  - destruct Hst as [|c d s t Hcd Hst]; [done|].
    rewrite (atom_ok_same_letter a c d Hcd). f_equal.
    apply star_loop_same; [done | by constructor | done].
Qed.

Lemma scan_same (r : regex) :
  ∀ s t p q, same_prev p q → same_letters s t → scan r p s = scan r q t.
Proof.
  intros s t p q Hp Hst. revert p q Hp.
  induction Hst as [|c d s t Hcd Hst IH]; intros p q Hp; cbn.
  - f_equal. apply matches_same; [done | done | constructor].
  - f_equal.
    + apply matches_same; [done | done | by constructor].
    + apply IH. by constructor.
Qed.

Lemma test_same (r : regex) (s t : ustring) : same_letters s t → test r s = test r t.
Proof. intros H. apply scan_same; [constructor | done]. Qed.

Lemma first_blocked_same (s t : ustring) :
  same_letters s t → first_blocked s = first_blocked t.
Proof.
  intros H. unfold first_blocked.
  induction BLOCKED_PATTERNS as [|p ps IH]; cbn; [done|].
  by rewrite (test_same p s t H), IH.
Qed.

(** ** Matching tolerates longer runs of white space *)

Lemma space_not_letter (w : N) :
  is_space w = true → to_upper w = w ∧ to_lower w = w.
Proof.
  intros Hw. unfold to_upper, to_lower, in_range.
  destruct (N.leb_spec 97 w), (N.leb_spec w 122), (N.leb_spec 65 w), (N.leb_spec w 90);
    cbn; try done; exfalso; revert Hw.
  all: try (destruct (lower_letter_class w ltac:(lia)) as (-> & _); done).
  all: try (destruct (upper_letter_class w ltac:(lia)) as (-> & _); done).
Qed.

Lemma atom_rejects_space_ok (a : atom) (w : N) :
  atom_rejects_space a = true → is_space w = true → atom_ok a w = false.
Proof.
  intros Ha Hw. destruct (space_not_letter w Hw) as [Hu Hl].
  destruct a as [c|ranges| |]; cbn in *; try done.
  - unfold canon. rewrite Hu. apply N.eqb_neq. intros ->.
    apply negb_true_iff in Ha. unfold to_upper in Hw, Hu.
    destruct (in_range 97 122 c) eqn:Hc; [|congruence].
    unfold in_range in Hc. apply andb_true_iff in Hc as [H1%N.leb_le H2%N.leb_le].
    destruct (upper_letter_class (c - 32) ltac:(lia)) as (Hs & _). congruence.
  - rewrite Hu, Hl. induction ranges as [|[lo hi] ranges IH]; cbn in *; [done|].
    apply andb_true_iff in Ha as [Hr Ha]. rewrite (IH Ha), orb_false_r.
    apply andb_true_iff in Hr as [Hlo%N.ltb_lt Hhi%N.ltb_lt].
    rewrite !orb_diag. unfold in_range.
    destruct (N.leb_spec lo w), (N.leb_spec w hi); cbn; try done.
    exfalso. revert Hw. decide_ranges. done.
Qed.

Lemma stretch_head (s t : ustring) : stretch s t → head s = head t.
Proof. by intros []. Qed.

Lemma stretch_refl (s : ustring) : stretch s s.
Proof. induction s; by constructor. Qed.

Lemma star_loop_stretch (a : atom) (k k' : cont) :
  cont_stretch k k' →
  ∀ s t, stretch s t → ∀ p, star_loop a p s k = true → star_loop a p t k' = true.
Proof.
  intros Hk s t Hst.
  induction Hst as [|c s t Hst IH|w s t Hw Hst IH]; intros p; cbn.
  - apply Hk. constructor.
  - intros [[Hc Hs]%andb_true_iff|Hs]%orb_true_iff; apply orb_true_iff.
    + left. rewrite Hc. by apply IH.
    + right. revert Hs. apply Hk. by constructor.
  - intros [[Hc Hs]%andb_true_iff|Hs]%orb_true_iff; apply orb_true_iff.
    + left. rewrite Hc. apply IH. cbn. by rewrite Hc, Hs.
    + right. revert Hs. apply Hk. by constructor.
Qed.

Lemma matches_stretch (r : regex) :
  space_quantified r = true →
  ∀ k k' s t p, cont_stretch k k' → stretch s t →
                matches r p s k = true → matches r p t k' = true.
Proof.
  induction r as [|a| |r1 IH1 r2 IH2|r1 IH1 r2 IH2|r IH|r IH|a|a];
    intros Hr k k' s t p Hk Hst; cbn in *.
  - by apply Hk.
  - destruct Hst as [|c s t Hst|w s t Hw Hst]; [done|..].
    + intros [Hc Hs]%andb_true_iff. rewrite Hc. revert Hs. by apply Hk.
    + intros [Hc _]%andb_true_iff. by rewrite (atom_rejects_space_ok a w) in Hc.
  - rewrite <- (stretch_head s t Hst). destruct (xorb _ _); [by apply Hk | done].
  - apply andb_true_iff in Hr as [Hr1 Hr2].
    apply IH1; [done| |done]. intros p' s' t' Hst'. by apply IH2.
  - apply andb_true_iff in Hr as [Hr1 Hr2].
    intros [H|H]%orb_true_iff; apply orb_true_iff; [left|right]; revert H.
    + by apply IH1.
    + by apply IH2.
  - by apply IH.
  - intros [H|H]%orb_true_iff; apply orb_true_iff; [left|right]; revert H.
    + by apply IH.
    + by apply Hk.
  - by apply star_loop_stretch.
  - destruct Hst as [|c s t Hst|w s t Hw Hst]; [done|..].
    + intros [Hc Hs]%andb_true_iff. rewrite Hc. revert Hs. by apply star_loop_stretch.
    + intros [Hc Hs]%andb_true_iff. rewrite Hc. cbn.
      apply (star_loop_stretch a k k' Hk _ _ Hst). cbn. by rewrite Hc, Hs.
Qed.

Lemma scan_stretch (r : regex) :
  space_quantified r = true →
  ∀ s t, stretch s t → ∀ p, scan r p s = true → scan r p t = true.
Proof.
  intros Hr s t Hst.
  assert (Hk : cont_stretch (λ _ _, true) (λ _ _, true)) by done.
  induction Hst as [|c s t Hst IH|w s t Hw Hst IH]; intros p; cbn.
  - rewrite !orb_false_r. apply matches_stretch; [done..|constructor].
  - intros [H|H]%orb_true_iff; apply orb_true_iff; [left|right].
    + revert H. apply matches_stretch; [done..| by constructor].
    + by apply IH.
  - intros [H|H]%orb_true_iff; apply orb_true_iff; [left|right].
    + revert H. apply matches_stretch; [done..| by constructor].
    + apply IH. cbn. by rewrite H, orb_true_r.
Qed.

Lemma BLOCKED_PATTERNS_space_quantified :
  forallb space_quantified BLOCKED_PATTERNS = true.
Proof. vm_compute. reflexivity. Qed.

Lemma test_stretch (r : regex) (s t : ustring) :
  In r BLOCKED_PATTERNS → stretch s t → test r s = true → test r t = true.
Proof.
  intros Hin Hst. apply scan_stretch; [|done].
  pose proof BLOCKED_PATTERNS_space_quantified as H.
  rewrite forallb_forall in H. by apply H.
Qed.

(** ** The gate *)

Lemma first_blocked_Some (command : ustring) (q : regex) :
  first_blocked command = Some q → In q BLOCKED_PATTERNS ∧ test q command = true.
Proof. apply find_some. Qed.

Lemma first_blocked_complete (command : ustring) (p : regex) :
  In p BLOCKED_PATTERNS → test p command = true → ∃ q, first_blocked command = Some q.
Proof.
  intros Hin Ht. destruct (first_blocked command) as [q|] eqn:Hq; [by eexists|].
  pose proof (find_none _ _ Hq p Hin) as Hn. cbn in Hn. congruence.
Qed.

Lemma isBlocked_true (command : ustring) :
  isBlocked command = true ↔ ∃ p, In p BLOCKED_PATTERNS ∧ test p command = true.
Proof.
  unfold isBlocked. split.
  - destruct (first_blocked command) as [q|] eqn:Hq; [|done].
    intros _. exists q. by apply first_blocked_Some.
  - intros (p & Hin & Ht). by destruct (first_blocked_complete command p Hin Ht) as [q ->].
Qed.

Lemma tool_bash_blocked (h : host) (args : bash_args) (q : regex) :
  first_blocked (ba_command args) = Some q →
  tool_bash h args =
    (BashError (invoke_error h (u "fs:bash") (blocked_message q))
       (u "This command may be blocked for safety reasons, or the path may be invalid"),
     []).
Proof. intros H. unfold tool_bash, api_bash, fs_bash. by rewrite H. Qed.

Lemma blocked_message_names (q : regex) : contains (toString q) (blocked_message q).
Proof.
  exists (u "This command has been blocked for safety. The pattern " ++ quote),
         (quote ++ u " is not allowed. "
          ++ u "Destructive commands like rm -rf, sudo rm, mkfs, dd, etc. are not permitted.").
  apply app_assoc.
Qed.

Lemma contains_trans (a b c : ustring) : contains a b → contains b c → contains a c.
Proof.
  intros (x & y & ->) (x' & y' & ->). exists (x' ++ x), (y ++ y').
  by rewrite <- !app_assoc.
Qed.

(** C3. A command that one of the blocked patterns matches is classified as
    blocked by the gate; the tool bash does not execute it (no call of the
    execution primitive is made) and returns a failure whose message is the
    one the handler threw for the first pattern that matches, with the text
    of that pattern in it. The same pattern is found when letters of the
    command change case, and the command stays blocked when the runs of
    white space in it are made longer. *)
Theorem blocked_command_refused (h : host) (args : bash_args) (p : regex) :
  In p BLOCKED_PATTERNS →
  test p (ba_command args) = true →
  ∃ q, first_blocked (ba_command args) = Some q
       ∧ In q BLOCKED_PATTERNS ∧ test q (ba_command args) = true
       ∧ isBlocked (ba_command args) = true
       ∧ tool_bash h args =
           (BashError (invoke_error h (u "fs:bash") (blocked_message q))
              (u "This command may be blocked for safety reasons, or the path may be invalid"),
            [])
       ∧ bash_is_failure (fst (tool_bash h args)) = true
       ∧ contains (toString q) (blocked_message q)
       ∧ ((∀ m, contains m (invoke_error h (u "fs:bash") m)) →
          ∃ message suggestion, fst (tool_bash h args) = BashError message suggestion
                                ∧ contains (toString q) message)
       ∧ (∀ command', same_letters (ba_command args) command' →
                      first_blocked command' = Some q)
       ∧ (∀ command', stretch (ba_command args) command' → isBlocked command' = true).
Proof.
  intros Hin Ht. destruct (first_blocked_complete _ p Hin Ht) as [q Hq].
  destruct (first_blocked_Some _ q Hq) as [Hqin Hqt].
  pose proof (tool_bash_blocked h args q Hq) as Htool.
  exists q. split; [done|]. split; [done|]. split; [done|].
  split; [unfold isBlocked; by rewrite Hq|]. split; [done|].
  split; [by rewrite Htool|]. split; [apply blocked_message_names|].
  split; [|split].
  - intros Hkeeps. rewrite Htool. eexists _, _. split; [reflexivity|].
    eapply contains_trans; [apply blocked_message_names | apply Hkeeps].
  - intros c' Hc'. by rewrite <- (first_blocked_same _ _ Hc').
  - intros c' Hc'. apply isBlocked_true. exists p. split; [done|].
    by apply (test_stretch p (ba_command args)).
Qed.

Lemma blocked_command_refused_witness :
  ∃ q, first_blocked (u "sudo   RM -rf /") = Some q
       ∧ In q BLOCKED_PATTERNS ∧ test q (u "sudo   RM -rf /") = true
       ∧ isBlocked (u "sudo   RM -rf /") = true
       ∧ tool_bash quiet_host
           {| ba_command := u "sudo   RM -rf /"; ba_cwd := None; ba_timeout := None |} =
           (BashError (invoke_error quiet_host (u "fs:bash") (blocked_message q))
              (u "This command may be blocked for safety reasons, or the path may be invalid"),
            [])
       ∧ bash_is_failure
           (fst (tool_bash quiet_host
                   {| ba_command := u "sudo   RM -rf /"; ba_cwd := None;
                      ba_timeout := None |})) = true
       ∧ contains (toString q) (blocked_message q)
       ∧ ((∀ m, contains m (invoke_error quiet_host (u "fs:bash") m)) →
          ∃ message suggestion,
            fst (tool_bash quiet_host
                   {| ba_command := u "sudo   RM -rf /"; ba_cwd := None;
                      ba_timeout := None |}) = BashError message suggestion
            ∧ contains (toString q) message)
       ∧ (∀ command', same_letters (u "sudo   RM -rf /") command' →
                      first_blocked command' = Some q)
       ∧ (∀ command', stretch (u "sudo   RM -rf /") command' → isBlocked command' = true).
Proof.
  apply (blocked_command_refused quiet_host
           {| ba_command := u "sudo   RM -rf /"; ba_cwd := None; ba_timeout := None |}
           (seqs [WordB; lits "sudo"; Plus Space; lits "rm"; WordB])).
  - do 3 right. left. reflexivity.
  - vm_compute. reflexivity.
Defined.

(** The command of the specification, traced: the first of the patterns
    that match it is the first of the list; the command is [sudo rm -rf /]
    with a longer run of spaces and two letters in upper case. *)
Example sudo_rm_first_pattern :
  option_map toString (first_blocked (u "sudo   RM -rf /"))
  = Some (u "/\brm\s+(-[a-zA-Z]*f|-[a-zA-Z]*r|--force|--recursive)/i")
  ∧ stretch (u "sudo rm -rf /") (u "sudo   rm -rf /")
  ∧ same_letters (u "sudo   rm -rf /") (u "sudo   RM -rf /").
Proof.
  split; [vm_compute; reflexivity|]. split.
  - vm_compute. do 4 apply stretch_same. do 2 (apply stretch_more; [reflexivity|]).
    apply stretch_refl.
  - vm_compute. repeat constructor.
Qed.

(** The bridge of the concrete hosts keeps the message of the handler, so
    the message that the tool returns for a blocked command has the text
    of the pattern in it. *)
Lemma electron_keeps_message (channel m : ustring) :
  contains m (electron_invoke_error channel m).
Proof.
  exists (u "Error invoking remote method '" ++ channel ++ u "': Error: "), [].
  unfold electron_invoke_error. by rewrite app_nil_r, <- !app_assoc.
Qed.

Example sudo_rm_message :
  ∃ message suggestion,
    fst (tool_bash quiet_host
           {| ba_command := u "sudo   RM -rf /"; ba_cwd := None; ba_timeout := None |})
    = BashError message suggestion
    ∧ contains (u "/\brm\s+(-[a-zA-Z]*f|-[a-zA-Z]*r|--force|--recursive)/i") message.
Proof.
  eexists _, _. split; [vm_compute; reflexivity|].
  eapply contains_trans; [|apply (electron_keeps_message (u "fs:bash"))].
  match goal with
  | |- contains ?t _ => change t with (toString (hd Empty BLOCKED_PATTERNS))
  end.
  apply blocked_message_names.
Qed.

(** ** Redirections to device files *)

Lemma scan_skip (r : regex) (s : ustring) :
  (∀ p, matches r p s (λ _ _, true) = true) →
  ∀ before p, scan r p (before ++ s) = true.
Proof.
  intros Hs before. induction before as [|c before IH]; intros p; cbn.
  - destruct s; cbn; by rewrite Hs.
  - by rewrite IH, orb_true_r.
Qed.

Lemma star_loop_spaces (k : cont) (spaces rest : ustring) :
  Forall (λ c, is_space c = true) spaces →
  (∀ p, k p rest = true) →
  ∀ p, star_loop Space p (spaces ++ rest) k = true.
Proof.
  intros Hsp Hk. induction Hsp as [|c spaces Hc Hsp IH]; intros p; cbn.
  - destruct rest; cbn; rewrite Hk; [done | apply orb_true_r].
  - by rewrite Hc, IH.
Qed.

Lemma device_pattern_last : last BLOCKED_PATTERNS = Some device_pattern.
Proof. reflexivity. Qed.

Lemma device_pattern_listed : In device_pattern BLOCKED_PATTERNS.
Proof. apply list_elem_of_In, last_Some_elem_of, device_pattern_last. Qed.

Lemma device_pattern_matches (spaces target after : ustring) :
  Forall (λ c, is_space c = true) spaces →
  In target [u "sda"; u "hda"; u "null"] →
  ∀ p, matches device_pattern p (u ">" ++ spaces ++ (u "/dev/" ++ target) ++ after)
         (λ _ _, true) = true.
Proof.
  intros Hsp Ht p. unfold device_pattern. cbn [seqs].
  change (lits ">") with (Atom (Lit 62)). change (u ">") with [62].
  cbn [matches app]. change (atom_ok (Lit 62) 62) with true. cbn [andb].
  apply (star_loop_spaces _ spaces); [done|]. intros p'.
  destruct Ht as [<-|[<-|[<-|[]]]]; vm_compute; reflexivity.
Qed.

Lemma blocked_not_executed (h : host) (args : bash_args) :
  isBlocked (ba_command args) = true →
  bash_is_failure (fst (tool_bash h args)) = true ∧ snd (tool_bash h args) = [].
Proof.
  unfold isBlocked. destruct (first_blocked (ba_command args)) as [q|] eqn:Hq; [|done].
  intros _. by rewrite (tool_bash_blocked h args q Hq).
Qed.

Lemma same_letters_refl (s : ustring) : same_letters s s.
Proof. induction s; by constructor. Qed.

(** C10. The last of the blocked patterns matches a redirection to
    /dev/null as it matches one to /dev/sda or /dev/hda: whatever precedes
    and follows, however much white space stands after the [>] and in
    whatever case the path is written, the command is classified as
    blocked, and the tool bash returns a failure for it and makes no call of
    the execution primitive. *)
Theorem device_redirection_blocked (h : host) (before spaces target device after : ustring)
    (cwd : option ustring) (timeout : option Z) :
  Forall (λ c, is_space c = true) spaces →
  In target [u "sda"; u "hda"; u "null"] →
  same_letters (u "/dev/" ++ target) device →
  let command := before ++ u ">" ++ spaces ++ device ++ after in
  let args := {| ba_command := command; ba_cwd := cwd; ba_timeout := timeout |} in
  test device_pattern command = true
  ∧ isBlocked command = true
  ∧ bash_is_failure (fst (tool_bash h args)) = true
  ∧ snd (tool_bash h args) = [].
Proof.
  intros Hsp Ht Hdev command args.
  assert (Hm : test device_pattern command = true).
  { rewrite <- (test_same device_pattern
                  (before ++ u ">" ++ spaces ++ (u "/dev/" ++ target) ++ after) command).
    - apply scan_skip. by apply device_pattern_matches.
    - unfold command. apply Forall2_app; [apply same_letters_refl|].
      apply Forall2_app; [apply same_letters_refl|].
      apply Forall2_app; [apply same_letters_refl|].
      apply Forall2_app; [exact Hdev | apply same_letters_refl]. }
  assert (Hb : isBlocked command = true).
  { apply isBlocked_true. exists device_pattern. split; [apply device_pattern_listed | done]. }
  split; [done|]. split; [done|]. by apply (blocked_not_executed h args).
Qed.

Lemma device_redirection_blocked_witness :
  test device_pattern (u "ls > /dev/null") = true
  ∧ isBlocked (u "ls > /dev/null") = true
  ∧ bash_is_failure
      (fst (tool_bash quiet_host
              {| ba_command := u "ls > /dev/null"; ba_cwd := None; ba_timeout := None |})) = true
  ∧ snd (tool_bash quiet_host
           {| ba_command := u "ls > /dev/null"; ba_cwd := None; ba_timeout := None |}) = [].
Proof.
  apply (device_redirection_blocked quiet_host (u "ls ") (u " ") (u "null") (u "/dev/null") []
           None None).
  - repeat constructor.
  - do 2 right. left. reflexivity.
  - repeat constructor.
Defined.

(** For [ls > /dev/null] no earlier pattern matches: the message names the
    device pattern. *)
Example ls_dev_null_first_pattern :
  first_blocked (u "ls > /dev/null") = Some device_pattern.
Proof. vm_compute. reflexivity. Qed.

(** Commands that the tool description calls safe pass the gate. *)
Example safe_commands_allowed :
  map isBlocked [u "ls -la"; u "npm install"; u "git status"; u "git rm --cached x";
                 u "python script.py"; u "cat notes.txt | head"]
  = [false; false; false; false; false; false].
Proof. vm_compute. reflexivity. Qed.

(** ** The tool bash on commands that are not blocked *)

Example seconds_text_examples :
  map seconds_text [30000; 120000; 1500; 1050; 5]%Z
  = map u ["30"; "120"; "1.5"; "1.05"; "0.005"].
Proof. vm_compute. reflexivity. Qed.

Lemma num_or_nonzero (n : option Z) (d : Z) : d ≠ 0%Z → num_or n d ≠ 0%Z.
Proof.
  intros Hd. unfold num_or. destruct n as [n|]; [|done].
  destruct (Z.eqb_spec n 0); done.
Qed.

(** The handler keeps the timeout that the tool computed: it is never zero. *)
Lemma num_or_clamped (t : option Z) :
  num_or (Some (Z.min (num_or t 30000) 120000)) 30000 = Z.min (num_or t 30000) 120000.
Proof.
  pose proof (num_or_nonzero t 30000 ltac:(lia)) as Hnz.
  unfold num_or at 1.
  destruct (Z.eqb_spec (Z.min (num_or t 30000) 120000) 0); [lia | done].
Qed.

(** The result of the tool and its one call of the execution primitive,
    by the outcome of that call. *)
Lemma tool_bash_allowed (h : host) (args : bash_args) :
  first_blocked (ba_command args) = None →
  tool_bash h args =
    (match execAsync h (ba_command args) (exec_opts h (ba_cwd args) (tool_timeout args)) with
     | ExecResolved stdout stderr =>
         BashSucceeded stdout (if truthy stderr then Some stderr else None)
     | ExecRejected e =>
         if e_killed e then
           BashError (invoke_error h (u "fs:bash")
                        (u "Command timed out after " ++ seconds_text (tool_timeout args)
                         ++ u " seconds"))
             (u "This command may be blocked for safety reasons, or the path may be invalid")
         else
           let code := match e_code e with
                       | Some c => if code_truthy c then c else CodeNum 1
                       | None => CodeNum 1
                       end in
           let stderr := or_else (e_stderr e) (default (u "Command failed") (e_message e)) in
           BashFailed code (or_else (e_stdout e) []) stderr
             (u "Command failed with exit code " ++ code_text code)
             (if truthy stderr then u "Error output: " ++ stderr
              else u "Check the command syntax and try again")
     end,
     [{| ec_command := ba_command args;
         ec_options := exec_opts h (ba_cwd args) (tool_timeout args) |}]).
Proof.
  intros Hfree. unfold tool_bash, api_bash, fs_bash. rewrite Hfree.
  cbn [mbind option_bind bo_timeout bo_cwd]. rewrite num_or_clamped.
  fold (tool_timeout args). fold (exec_opts h (ba_cwd args) (tool_timeout args)).
  destruct (execAsync h _ _) as [out err|e].
  - cbn. destruct out, err; reflexivity.
  - destruct (e_killed e); [reflexivity|].
    cbn [br_exitCode br_stdout br_stderr].
    assert (Hcode : code_is_zero (match e_code e with
                       | Some c => if code_truthy c then c else CodeNum 1
                       | None => CodeNum 1
                       end) = false).
    { destruct (e_code e) as [[n|s]|]; cbn; [|by destruct s|done].
      destruct (Z.eqb_spec n 0); cbn; [done|]. by apply Z.eqb_neq. }
    rewrite Hcode. reflexivity.
Qed.

Lemma or_else_empty (s : ustring) : or_else (Some s) [] = s.
Proof. by destruct s. Qed.

(** C4, as the specification states it, fails where the process wrote
    nothing to its standard error: [false] exits with the code 1 and two
    empty streams, and the result of the tool reports the message of the
    error of the execution primitive in the place of the empty stream. *)
Lemma bash_silent_failure_stderr :
  first_blocked (u "false") = None
  ∧ exited_with (execAsync (exiting_host 1 [] []) (u "false")
                   (exec_opts (exiting_host 1 [] []) None 30000))
                1 [] [] (Some (u "Command failed: false" ++ [10]))
  ∧ reported (fst (tool_bash (exiting_host 1 [] [])
                     {| ba_command := u "false"; ba_cwd := None; ba_timeout := None |}))
    = Some (CodeNum 1, [], u "Command failed: false" ++ [10])
  ∧ reported (fst (tool_bash (exiting_host 1 [] [])
                     {| ba_command := u "false"; ba_cwd := None; ba_timeout := None |}))
    ≠ Some (CodeNum 1, [], []).
Proof.
  split; [vm_compute; reflexivity|]. split; [reflexivity|].
  split; [vm_compute; reflexivity|]. vm_compute. discriminate.
Qed.

(** C4, amended. When the process of an allowed command exits with a code
    other than zero, the tool returns (it does not throw) a failure that
    carries the exit code, the captured standard output, and the captured
    standard error when that is not empty; when it is empty the member holds
    the message of the error of the execution primitive, or "Command failed"
    when there is none. *)
Theorem bash_nonzero_exit_reported (h : host) (args : bash_args)
    (n : Z) (out err : ustring) (msg : option ustring) :
  first_blocked (ba_command args) = None →
  n ≠ 0%Z →
  exited_with (execAsync h (ba_command args)
                 (exec_opts h (ba_cwd args) (Z.min (num_or (ba_timeout args) 30000) 120000)))
              n out err msg →
  bash_is_failure (fst (tool_bash h args)) = true
  ∧ reported (fst (tool_bash h args)) =
      Some (CodeNum n, out,
            if truthy err then err else default (u "Command failed") msg)
  ∧ ∃ suggestion,
      fst (tool_bash h args) =
        BashFailed (CodeNum n) out
          (if truthy err then err else default (u "Command failed") msg)
          (u "Command failed with exit code " ++ show_Z n) suggestion.
Proof.
  intros Hfree Hn Hexit. unfold exited_with in Hexit.
  assert (Hres : ∃ suggestion,
             fst (tool_bash h args) =
               BashFailed (CodeNum n) out
                 (if truthy err then err else default (u "Command failed") msg)
                 (u "Command failed with exit code " ++ show_Z n) suggestion).
  { rewrite tool_bash_allowed by done. unfold tool_timeout. rewrite Hexit.
    cbn [e_killed e_code e_stdout e_stderr e_message code_truthy].
    rewrite (proj2 (Z.eqb_neq n 0) Hn).
    cbn [negb fst code_text]. rewrite or_else_empty. by eexists. }
  destruct Hres as [suggestion Hres]. rewrite Hres.
  split; [done|]. split; [done|]. by eexists.
Qed.

Lemma bash_nonzero_exit_reported_witness :
  bash_is_failure
    (fst (tool_bash (exiting_host 2 (u "partial") (u "ls: cannot access"))
            {| ba_command := u "ls /nowhere"; ba_cwd := None; ba_timeout := None |})) = true
  ∧ reported (fst (tool_bash (exiting_host 2 (u "partial") (u "ls: cannot access"))
                     {| ba_command := u "ls /nowhere"; ba_cwd := None; ba_timeout := None |}))
    = Some (CodeNum 2, u "partial", u "ls: cannot access").
Proof.
  destruct (bash_nonzero_exit_reported
              (exiting_host 2 (u "partial") (u "ls: cannot access"))
              {| ba_command := u "ls /nowhere"; ba_cwd := None; ba_timeout := None |}
              2 (u "partial") (u "ls: cannot access")
              (Some (u "Command failed: ls /nowhere" ++ [10] ++ u "ls: cannot access")))
    as (Hfail & Hrep & _).
  - vm_compute. reflexivity.
  - lia.
  - reflexivity.
  - split; [exact Hfail | exact Hrep].
Defined.

(** C5, as the specification states it, fails for the timeout 0: the
    claimed value is min(0, 120000) = 0, and the execution primitive is
    called with 30000. *)
Lemma bash_timeout_zero_dispatch :
  first_blocked (u "ls") = None
  ∧ claimed_timeout (Some 0%Z) = 0%Z
  ∧ timeouts (snd (tool_bash quiet_host
                     {| ba_command := u "ls"; ba_cwd := None; ba_timeout := Some 0%Z |}))
    = [30000%Z]
  ∧ timeouts (snd (tool_bash quiet_host
                     {| ba_command := u "ls"; ba_cwd := None; ba_timeout := Some 0%Z |}))
    ≠ [claimed_timeout (Some 0%Z)].
Proof.
  split; [vm_compute; reflexivity|]. split; [reflexivity|].
  split; [vm_compute; reflexivity|]. vm_compute. discriminate.
Qed.

(** C5, amended. For a command that is not blocked the tool makes one call
    of the execution primitive, and its timeout is min(t, 120000) when the
    caller gave a timeout t other than zero, and 30000 when the caller gave
    none or gave zero; a timeout of 200000 is dispatched as 120000. *)
Theorem bash_timeout_dispatched (h : host) (args : bash_args) :
  first_blocked (ba_command args) = None →
  timeouts (snd (tool_bash h args)) =
    [match ba_timeout args with
     | Some t => if (t =? 0)%Z then 30000%Z else Z.min t 120000
     | None => 30000%Z
     end]
  ∧ (ba_timeout args = Some 200000%Z → timeouts (snd (tool_bash h args)) = [120000%Z])
  ∧ (∀ t, ba_timeout args = Some t → t ≠ 0%Z →
          timeouts (snd (tool_bash h args)) = [claimed_timeout (ba_timeout args)])
  ∧ (ba_timeout args = None →
     timeouts (snd (tool_bash h args)) = [claimed_timeout (ba_timeout args)]).
Proof.
  intros Hfree. rewrite tool_bash_allowed by done. unfold timeouts, tool_timeout. cbn.
  split; [|split; [|split]].
  - f_equal. destruct (ba_timeout args) as [t|]; cbn; [|done].
    destruct (Z.eqb_spec t 0); [done | reflexivity].
  - intros ->. reflexivity.
  - intros t -> Ht. cbn. destruct (Z.eqb_spec t 0); [done | reflexivity].
  - intros ->. reflexivity.
Qed.

Lemma bash_timeout_dispatched_witness :
  timeouts (snd (tool_bash quiet_host
     {| ba_command := u "ls"; ba_cwd := None; ba_timeout := Some 200000%Z |})) = [120000%Z].
Proof.
  destruct (bash_timeout_dispatched quiet_host
     {| ba_command := u "ls"; ba_cwd := None; ba_timeout := Some 200000%Z |})
    as (_ & Hcap & _).
  - vm_compute. reflexivity.
  - apply Hcap. reflexivity.
Defined.

(** ** The handler fs:grep *)

Example split_and_trim :
  split_lines (u "a" ++ [10] ++ u "  b c " ++ [10]) = [u "a"; u "  b c "; []]
  ∧ trim (u "  b c ") = u "b c"
  ∧ escape (u "f(x) + [1].*") = u "f\(x\) \+ \[1\]\.\*".
Proof. vm_compute. repeat split. Qed.

(** The class of the replace call holds the syntax characters, all of them. *)
Lemma escaped_char_syntax (c : N) : escaped_char c = syntax_char c.
Proof.
  unfold escaped_char, syntax_char.
  repeat match goal with
         | |- context [u ?s] => let v := eval vm_compute in (u s) in change (u s) with v
         end.
  cbn [existsb].
  repeat match goal with
         | |- context [c =? ?k] => destruct (N.eqb_spec c k); [subst c; reflexivity|]
         end.
  reflexivity.
Qed.

Lemma backslash_escaped : escaped_char 92 = true.
Proof. reflexivity. Qed.

(** The escaped pattern is a literal source, and it denotes the pattern. *)
Lemma literal_source_escape (pattern : ustring) :
  literal_source (escape pattern) = Some pattern.
Proof.
  induction pattern as [|c pattern IH]; [done|].
  unfold escape in *. cbn [flat_map]. destruct (escaped_char c) eqn:Hc; cbn [app literal_source].
  - rewrite N.eqb_refl, <- escaped_char_syntax, Hc, IH. reflexivity.
  - destruct (N.eqb_spec c 92) as [->|_]; [by rewrite backslash_escaped in Hc|].
    by rewrite <- escaped_char_syntax, Hc, IH.
Qed.

Lemma build_regex_returns (E : engine) (same : N → N → bool) (pattern : ustring) :
  literal_faithful E same →
  ∃ regex, build_regex E pattern = Returned regex
           ∧ (new_RegExp_gi E pattern = None →
              ∀ line, match_first E regex line = find_ci same pattern line).
Proof.
  intros HE. unfold build_regex.
  destruct (new_RegExp_gi E pattern) as [regex|]; [by exists regex|].
  destruct (HE (escape pattern) pattern (literal_source_escape pattern)) as (regex & -> & Hm).
  by exists regex.
Qed.

(** The two loops depend on the regular expression through its first
    matches only. *)
Lemma search_lines_ext (E E' : engine) (regex : RegExp E) (regex' : RegExp E')
    (maxResults : js_number) (filePath : ustring) :
  (∀ line, match_first E regex line = match_first E' regex' line) →
  ∀ lines i results,
    search_lines E regex maxResults filePath i lines results
    = search_lines E' regex' maxResults filePath i lines results.
Proof.
  intros Hm lines. induction lines as [|line lines IH]; intros i results; cbn; [done|].
  by rewrite Hm, IH.
Qed.

Lemma search_files_ext (E E' : engine) (fs : filesystem) (regex : RegExp E)
    (regex' : RegExp E') (maxResults : js_number) :
  (∀ line, match_first E regex line = match_first E' regex' line) →
  ∀ files results,
    search_files E fs regex maxResults files results
    = search_files E' fs regex' maxResults files results.
Proof.
  intros Hm files. induction files as [|file files IH]; intros results; cbn; [done|].
  rewrite IH. destruct (fs_readFile fs file); [|done].
  by rewrite (search_lines_ext E E' regex regex' _ _ Hm).
Qed.

(** C6. The replace call escapes every syntax character of the pattern and
    nothing else: the escaped pattern is a source of pattern characters and
    escaped syntax characters that denotes the pattern. With an engine that
    reads every such source as the literal it denotes, the handler builds a
    regular expression from every pattern: when the constructor rejects the
    pattern, the escaped pattern is accepted. The handler therefore throws
    for a missing path only, never for the pattern, and so does the tool
    report an error for a missing path only; on an existing path the handler
    returns, the tool reports the matches, and for a pattern that the
    constructor rejects the matches are those of the case-insensitive search
    for the pattern as a literal string. *)
Theorem grep_invalid_pattern_literal (E : engine) (same : N → N → bool) (fs : filesystem)
    (h : host) (pattern path : ustring) (maxResults : option js_number) :
  literal_faithful E same →
  literal_source (escape pattern) = Some pattern
  ∧ (∃ regex, build_regex E pattern = Returned regex)
  ∧ (∀ options message,
       fs_grep E fs pattern path options = Thrown message →
       fs_stat fs (fs_resolve fs path) = None ∧ message = u "Path not found: " ++ path)
  ∧ (∀ message suggestion,
       tool_grep h E fs pattern path maxResults = GrepError message suggestion →
       fs_stat fs (fs_resolve fs path) = None)
  ∧ (∀ isDirectory,
       fs_stat fs (fs_resolve fs path) = Some isDirectory →
       ∃ results,
         fs_grep E fs pattern path (Some (Some (number_or maxResults (whole 50))))
         = Returned results
         ∧ tool_grep h E fs pattern path maxResults
           = match results with
             | [] => GrepNoMatches (u "No matches found for " ++ quote ++ pattern ++ quote
                                    ++ u " in " ++ path)
             | _ => GrepMatches results (length results)
                      (u "Found " ++ show_nat (length results) ++ u " matches for "
                       ++ quote ++ pattern ++ quote)
             end
         ∧ (new_RegExp_gi E pattern = None →
            results = search_files (literal_engine same) fs pattern
                        (number_or (Some (number_or maxResults (whole 50))) (whole 100))
                        (if isDirectory then fs_glob_files fs (fs_resolve fs path)
                         else [fs_resolve fs path]) [])).
Proof.
  intros HE. destruct (build_regex_returns E same pattern HE) as (regex & Hb & Hlit).
  split; [apply literal_source_escape|]. split; [by exists regex|].
  split; [|split].
  - intros options message. unfold fs_grep. rewrite Hb.
    destruct (fs_stat fs (fs_resolve fs path)); [done|]. by intros [= <-].
  - intros message suggestion. unfold tool_grep, api_grep, fs_grep. rewrite Hb.
    destruct (fs_stat fs (fs_resolve fs path)); [|done].
    by destruct (search_files _ _ _ _ _ _).
  - intros isDirectory Hstat. unfold tool_grep, api_grep, fs_grep. rewrite Hstat, Hb.
    eexists. split; [reflexivity|]. split; [reflexivity|].
    intros Hinvalid. cbn [mjoin option_join].
    apply (search_files_ext E (literal_engine same) fs regex pattern). by apply Hlit.
Qed.

(** The hypothesis on the engine can be met. *)
Lemma literal_engine_faithful (same : N → N → bool) :
  literal_faithful (literal_engine same) same.
Proof. intros src p Hsrc. exists p. by split. Qed.

Lemma grep_invalid_pattern_literal_witness :
  new_RegExp_gi (literal_engine ascii_same) (u "(") = None
  ∧ tool_grep quiet_host (literal_engine ascii_same)
      (single_file (u "call(x)" ++ [10] ++ u "  TODO (Later)  ")) (u "(") (u "notes.txt") None
    = GrepMatches
        [ {| gm_file := u "notes.txt"; gm_line := 1; gm_content := u "call(x)";
             gm_match := u "(" |};
          {| gm_file := u "notes.txt"; gm_line := 2; gm_content := u "TODO (Later)";
             gm_match := u "(" |} ]
        2 (u "Found 2 matches for " ++ quote ++ u "(" ++ quote).
Proof.
  split; [reflexivity|].
  destruct (grep_invalid_pattern_literal (literal_engine ascii_same) ascii_same
              (single_file (u "call(x)" ++ [10] ++ u "  TODO (Later)  "))
              quiet_host (u "(") (u "notes.txt") None)
    as (_ & _ & _ & _ & Hrun).
  - intros src p Hsrc. exists p. split; [exact Hsrc | reflexivity].
  - destruct (Hrun false eq_refl) as (results & _ & -> & Hres).
    rewrite (Hres eq_refl). vm_compute. reflexivity.
Defined.

(** ** The skill registry *)

Lemma skillregistry_search_offline fetch query :
  offline fetch → skillregistry_search fetch query = [].
Proof.
  intros Hoff. unfold skillregistry_search.
  destruct (search_address query) as [url|]; [|done].
  by destruct (Hoff url) as [m ->].
Qed.

Lemma tool_searchSkills_rejected api query message :
  api query = Thrown message →
  tool_searchSkills api query
  = SkillsError message (u "Network error. You can try the browser instead.").
Proof. intros H. unfold tool_searchSkills. by rewrite H. Qed.

(** C2, as the code has it. When every fetch rejects, the handler of the
    registry returns the empty list, and both callers receive it through
    the bridge: the panel shows no result, and the tool searchSkills returns
    its success with no skills, not the failure with a suggestion that its
    catch block holds. *)
Theorem searchSkills_offline_is_success (fetch : registry_url → fetch_outcome)
    (query : ustring) :
  offline fetch →
  searchSkillRegistry (api_skillRegistrySearch fetch) query = []
  ∧ tool_searchSkills (api_skillRegistrySearch fetch) query
    = SkillsNone (u "No skills found for " ++ quote ++ query ++ quote
                  ++ u ". You may need to use the browser instead.")
  ∧ skills_is_failure (tool_searchSkills (api_skillRegistrySearch fetch) query) = false.
Proof.
  intros Hoff. unfold searchSkillRegistry, tool_searchSkills, api_skillRegistrySearch.
  rewrite skillregistry_search_offline by done. done.
Qed.

Lemma searchSkills_offline_whatsapp :
  skills_is_failure (tool_searchSkills (api_skillRegistrySearch unplugged) (u "whatsapp"))
  = false.
Proof.
  apply (searchSkills_offline_is_success unplugged (u "whatsapp")).
  intros url. by eexists.
Defined.

(** ** The todo store and the tool todoWrite *)

Section TodoWriteProps.
Import TodoStore TodoWrite.

Lemma mappedTodos_length clock inputs : length (mappedTodos clock inputs) = length inputs.
Proof. unfold mappedTodos. by rewrite length_imap. Qed.

(** C9. A call of todoWrite leaves in the store the list it was given,
    with an identifier generated for each item that has none, whatever the
    store held before: as many items as were sent, and they are the ones
    that the result echoes. After a first call with the pending item
    "Scan repo" and a second call that sends the echoed identifier with the
    status completed, the store holds that one item, completed. *)
Theorem todoWrite_replaces_list (clock1 clock2 : nat → Z) (inputs : list todo_input)
    (state : TodoState) :
  todos (snd (execute clock1 inputs state)) = mappedTodos clock1 inputs
  ∧ length (todos (snd (execute clock1 inputs state))) = length inputs
  ∧ returned_todos (fst (execute clock1 inputs state)) = todos (snd (execute clock1 inputs state))
  ∧ let first := execute clock1
                   [{| ti_id := None; ti_content := u "Scan repo"; ti_status := pending |}]
                   state in
    ∃ echoed,
      map id (returned_todos (fst first)) = [echoed]
      ∧ todos (snd first) = [{| id := echoed; content := u "Scan repo"; status := pending |}]
      ∧ todos (snd (execute clock2
                      [{| ti_id := Some echoed; ti_content := u "Scan repo";
                          ti_status := completed |}]
                      (snd first)))
        = [{| id := echoed; content := u "Scan repo"; status := completed |}].
Proof.
  split; [reflexivity|]. split; [apply mappedTodos_length|]. split.
  - cbn. rewrite <- (List.map_id (mappedTodos clock1 inputs)) at 2.
    apply List.map_ext. by intros [].
  - cbn. eexists. split; [reflexivity|]. split; reflexivity.
Qed.
(** The scenario on a concrete clock: the generated identifier is made of
    the time and the index, and the second call leaves one completed item. *)
Example scan_repo_scenario :
  let first := execute (λ _, 1700000000000%Z)
                 [{| ti_id := None; ti_content := u "Scan repo"; ti_status := pending |}]
                 initial in
  let second := execute (λ _, 1700000005000%Z)
                  [{| ti_id := Some (u "todo-1700000000000-0");
                      ti_content := u "Scan repo"; ti_status := completed |}]
                  (snd first) in
  map id (returned_todos (fst first)) = [u "todo-1700000000000-0"]
  ∧ todos (snd second)
    = [{| id := u "todo-1700000000000-0"; content := u "Scan repo"; status := completed |}]
  ∧ message (fst second) = u "Updated 1 todo(s)".
Proof. vm_compute. repeat split. Qed.

(** Items of the store that a call does not send are gone after it. *)
Example unsent_items_dropped :
  todos (snd (execute (λ _, 0%Z)
                [{| ti_id := Some (u "b"); ti_content := u "Build"; ti_status := in_progress |}]
                {| todos := [{| id := u "a"; content := u "Scan"; status := completed |};
                             {| id := u "b"; content := u "Build"; status := pending |}] |}))
  = [{| id := u "b"; content := u "Build"; status := in_progress |}].
Proof. reflexivity. Qed.

End TodoWriteProps.

(** ** The question store *)

Section QuestionProps.
Import QuestionStore.

Lemma setQuestions_unanswered now inputs state :
  Forall unanswered (active_questions (snd (setQuestions now inputs state))).
Proof.
  apply Forall_forall. intros q [i [x [-> _]]]%elem_of_lookup_imap. done.
Qed.

Lemma unanswered_exclusive q : unanswered q → exclusive q.
Proof. intros [? ?]. by left. Qed.

(** The two operations map over the questions of the active set. *)
Lemma selectOption_active questionId optionId state :
  active_questions (selectOption questionId optionId state)
  = map (λ q, if decide (id q = questionId) then with_selection q optionId else q)
        (active_questions state).
Proof.
  unfold selectOption, active_questions.
  by destruct (activeQuestionSet state) as [qs|] eqn:Hqs; cbn; [|rewrite Hqs].
Qed.

Lemma setCustomAnswer_active questionId answer state :
  active_questions (setCustomAnswer questionId answer state)
  = map (λ q, if decide (id q = questionId) then with_custom q answer else q)
        (active_questions state).
Proof.
  unfold setCustomAnswer, active_questions.
  by destruct (activeQuestionSet state) as [qs|] eqn:Hqs; cbn; [|rewrite Hqs].
Qed.

(** The operations that leave the questions as they are. *)
Lemma navigation_active state :
  active_questions (nextQuestion state) = active_questions state
  ∧ active_questions (prevQuestion state) = active_questions state
  ∧ active_questions (snd (submitAnswers state)) = active_questions state.
Proof.
  unfold nextQuestion, prevQuestion, submitAnswers, active_questions.
  by destruct (activeQuestionSet state) as [qs|] eqn:Hqs; cbn; [|rewrite Hqs].
Qed.

Lemma selectOption_questions questionId optionId state :
  Forall (λ q, id q = questionId → selectedOptionId q = Some optionId ∧ customAnswer q = None)
         (active_questions (selectOption questionId optionId state)).
Proof.
  rewrite selectOption_active. apply Forall_forall.
  intros q [q0 [-> _]]%list_elem_of_fmap.
  by destruct (decide (id q0 = questionId)).
Qed.

Lemma setCustomAnswer_questions questionId answer state :
  Forall (λ q, id q = questionId → selectedOptionId q = None ∧ customAnswer q = Some answer)
         (active_questions (setCustomAnswer questionId answer state)).
Proof.
  rewrite setCustomAnswer_active. apply Forall_forall.
  intros q [q0 [-> _]]%list_elem_of_fmap.
  by destruct (decide (id q0 = questionId)).
Qed.

(** Questions with another id are left as they are, and no id changes. *)
Lemma selectOption_frame questionId optionId state :
  Forall2 (λ q q', id q' = id q ∧ (id q ≠ questionId → q' = q))
          (active_questions state)
          (active_questions (selectOption questionId optionId state)).
Proof.
  rewrite selectOption_active. apply Forall2_fmap_r, Forall_Forall2_diag, Forall_forall.
  intros q _. cbn. destruct (decide (id q = questionId)) as [Heq|Hne]; [|done].
  split; [done|]. intros Hne. by destruct Hne.
Qed.

Lemma setCustomAnswer_frame questionId answer state :
  Forall2 (λ q q', id q' = id q ∧ (id q ≠ questionId → q' = q))
          (active_questions state)
          (active_questions (setCustomAnswer questionId answer state)).
Proof.
  rewrite setCustomAnswer_active. apply Forall2_fmap_r, Forall_Forall2_diag, Forall_forall.
  intros q _. cbn. destruct (decide (id q = questionId)) as [Heq|Hne]; [|done].
  split; [done|]. intros Hne. by destruct Hne.
Qed.

Lemma step_exclusive state o :
  Forall exclusive (active_questions state) →
  Forall exclusive (active_questions (step state o)).
Proof.
  intros Hinv. destruct (navigation_active state) as (Hnext & Hprev & Hsubmit).
  destruct o as [now inputs|qid oid|qid ans| | | |]; cbn [step].
  - eapply Forall_impl; [apply setQuestions_unanswered | apply unanswered_exclusive].
  - rewrite selectOption_active. apply Forall_fmap. eapply Forall_impl; [exact Hinv|].
    intros q Hq. cbn. destruct (decide _); [by right | done].
  - rewrite setCustomAnswer_active. apply Forall_fmap. eapply Forall_impl; [exact Hinv|].
    intros q Hq. cbn. destruct (decide _); [by left | done].
  - by rewrite Hnext.
  - by rewrite Hprev.
  - by rewrite Hsubmit.
  - constructor.
Qed.

Lemma run_exclusive ops state :
  Forall exclusive (active_questions state) →
  Forall exclusive (active_questions (run ops state)).
Proof.
  revert state. induction ops as [|o ops IH]; intros state Hinv; [done|].
  cbn. apply IH. by apply step_exclusive.
Qed.

(** C7. After selectOption every question with the given id holds the
    option id and no custom answer; after setCustomAnswer it holds the
    custom answer and no option id; either operation leaves the questions
    with another id as they are; and in every state that a sequence of
    operations of the store reaches from the initial store, or from a state
    in which no question holds both, no question holds both. *)
Theorem question_answers_exclusive (ops : list op) (questionId optionId answer : ustring)
    (state : State) :
  Forall (λ q, id q = questionId → selectedOptionId q = Some optionId ∧ customAnswer q = None)
         (active_questions (selectOption questionId optionId state))
  ∧ Forall (λ q, id q = questionId → selectedOptionId q = None ∧ customAnswer q = Some answer)
           (active_questions (setCustomAnswer questionId answer state))
  ∧ Forall2 (λ q q', id q' = id q ∧ (id q ≠ questionId → q' = q))
            (active_questions state)
            (active_questions (selectOption questionId optionId state))
  ∧ Forall2 (λ q q', id q' = id q ∧ (id q ≠ questionId → q' = q))
            (active_questions state)
            (active_questions (setCustomAnswer questionId answer state))
  ∧ Forall exclusive (active_questions (run ops initial))
  ∧ (Forall exclusive (active_questions state) →
     Forall exclusive (active_questions (run ops state))).
Proof.
  split; [apply selectOption_questions|]. split; [apply setCustomAnswer_questions|].
  split; [apply selectOption_frame|]. split; [apply setCustomAnswer_frame|].
  split; [|apply run_exclusive]. apply run_exclusive. constructor.
Qed.

(** Selecting an option and then writing a custom answer on the same
    question leaves the custom answer alone, and the other way round. *)
Example select_then_custom :
  let asked := run [OpSetQuestions 1700000000000
                      [{| qi_id := Some (u "lang"); qi_question := u "Which language?";
                          qi_options := [{| o_id := u "ts"; o_label := u "TypeScript" |};
                                         {| o_id := u "py"; o_label := u "Python" |}];
                          qi_allowCustom := true |}];
                    OpSelectOption (u "lang") (u "ts")] initial in
  map (λ q, (selectedOptionId q, customAnswer q)) (active_questions asked)
    = [(Some (u "ts"), None)]
  ∧ map (λ q, (selectedOptionId q, customAnswer q))
        (active_questions (setCustomAnswer (u "lang") (u "Rust") asked))
    = [(None, Some (u "Rust"))]
  ∧ map (λ q, (selectedOptionId q, customAnswer q))
        (active_questions
           (selectOption (u "lang") (u "py") (setCustomAnswer (u "lang") (u "Rust") asked)))
    = [(Some (u "py"), None)].
Proof. vm_compute. repeat split. Qed.

Lemma answer_of_unanswered q : unanswered q → answer_of q = blank.
Proof. intros [Hs Hc]. unfold answer_of. by rewrite Hs, Hc. Qed.

Lemma own_assign_proto (answers : Answers) (value : Answer) :
  assign answers (u "__proto__") value
  = {| own := own answers; prototype := Some value |}.
Proof. unfold assign. by rewrite decide_True. Qed.

Lemma own_assign_other (answers : Answers) (key : ustring) (value : Answer) :
  key ≠ u "__proto__" →
  assign answers key value
  = {| own := <[key := value]> (own answers); prototype := prototype answers |}.
Proof. intros H. unfold assign. by rewrite decide_False. Qed.

Lemma collect_from_dom (qs : list Question) (m : Answers) :
  dom (own (foldl (λ answers q, assign answers (id q) (answer_of q)) m qs))
  = dom (own m) ∪ list_to_set (map id qs) ∖ {[u "__proto__"]}.
Proof.
  revert m. induction qs as [|q qs IH]; intros m; cbn [foldl map].
  - apply set_eq. intros k.
    rewrite elem_of_union, elem_of_difference, elem_of_list_to_set, elem_of_nil.
    tauto.
  - rewrite IH. apply set_eq. intros k.
    rewrite !elem_of_union, !elem_of_difference, !elem_of_list_to_set, elem_of_cons,
      elem_of_singleton.
    destruct (decide (id q = u "__proto__")) as [Hp|Hp].
    + rewrite Hp, own_assign_proto. cbn [own].
      split; [tauto|]. intros [?|[[->|?] ?]]; tauto.
    + rewrite own_assign_other by done. cbn [own].
      rewrite dom_insert_L, elem_of_union, elem_of_singleton.
      split; [|tauto]. intros [[->|?]|?]; tauto.
Qed.

Lemma collect_from_blank (qs : list Question) (m : Answers) :
  Forall unanswered qs →
  (∀ k a, own m !! k = Some a → a = blank) →
  ∀ k a, own (foldl (λ answers q, assign answers (id q) (answer_of q)) m qs) !! k = Some a →
         a = blank.
Proof.
  revert m. induction qs as [|q qs IH]; intros m Hqs Hm k a; cbn [foldl]; [apply Hm|].
  inversion_clear Hqs as [|? ? Hq Hrest].
  apply IH; [done|]. intros k' a'. unfold assign.
  destruct (decide (id q = u "__proto__")); cbn [own]; [apply Hm|].
  rewrite lookup_insert.
  case_decide; [|apply Hm]. rewrite answer_of_unanswered by done. congruence.
Qed.

Lemma collect_from_prototype (qs : list Question) (m : Answers) :
  prototype (foldl (λ answers q, assign answers (id q) (answer_of q)) m qs)
  = match last (filter (λ q, id q = u "__proto__") qs) with
    | Some q => Some (answer_of q)
    | None => prototype m
    end.
Proof.
  revert m. induction qs as [|q qs IH]; intros m; [done|].
  cbn [foldl]. rewrite IH, filter_cons. unfold assign.
  destruct (decide (id q = u "__proto__")) as [Heq|Hne]; cbn [prototype].
  - destruct (filter _ qs) as [|q' l] eqn:Hf; [reflexivity|].
    change (last (q :: q' :: l)) with (last (q' :: l)).
    destruct (last (q' :: l)) eqn:Hlast; [done|].
    by apply last_None in Hlast.
  - done.
Qed.

(** C8, as the code has it. submitAnswers right after setQuestions
    returns a record in which every key is mapped to the answer with
    neither member. The ids of the questions as stored are each the id
    that was given or, where none or an empty one was given, the fallback
    made of the index, and the keys of the record are these ids except the
    id __proto__: the assignment under that name adds no key and makes the
    answer the prototype of the record. When a question has the id
    __proto__, the keys are therefore not the ids of the questions; when
    none has, they are. *)
Theorem setQuestions_submit_keys (now : Z) (inputs : list question_input)
    (state : State) :
  let asked := snd (setQuestions now inputs state) in
  let ids := map id (active_questions asked) in
  let answers := fst (submitAnswers asked) in
  ids = imap (λ i q, or_else (qi_id q) (u "q-" ++ show_nat i)) inputs
  ∧ dom (own answers) = list_to_set ids ∖ {[u "__proto__"]}
  ∧ (∀ k, k ∈ dom (own answers) →
          own answers !! k
          = Some {| selectedOption := None; answer_customAnswer := None |})
  ∧ (u "__proto__" ∈ ids →
     (u "__proto__" ∉ dom (own answers))
     ∧ dom (own answers) ≠ list_to_set ids
     ∧ prototype answers
       = Some {| selectedOption := None; answer_customAnswer := None |})
  ∧ (u "__proto__" ∉ ids →
     dom (own answers) = list_to_set ids ∧ prototype answers = None).
Proof.
  cbn zeta.
  assert (Hdom : dom (own (fst (submitAnswers (snd (setQuestions now inputs state)))))
                 = list_to_set (map id (active_questions
                                          (snd (setQuestions now inputs state))))
                   ∖ {[u "__proto__"]}).
  { cbn [setQuestions snd submitAnswers activeQuestionSet fst active_questions questions].
    unfold collect. rewrite collect_from_dom. cbn [own no_answers].
    by rewrite dom_empty_L, (left_id_L ∅ (∪)). }
  assert (Hproto : prototype (fst (submitAnswers (snd (setQuestions now inputs state))))
                   = match last (filter (λ q, id q = u "__proto__")
                                   (active_questions (snd (setQuestions now inputs state))))
                     with
                     | Some q => Some (answer_of q)
                     | None => None
                     end).
  { cbn [setQuestions snd submitAnswers activeQuestionSet fst active_questions questions].
    unfold collect. by rewrite collect_from_prototype. }
  pose proof (setQuestions_unanswered now inputs state) as Hblank.
  split; [|split; [exact Hdom|split; [|split]]].
  - cbn. change (map id ?l) with (id <$> l). rewrite fmap_imap. reflexivity.
  - intros k [a Ha]%elem_of_dom. rewrite Ha. f_equal.
    revert Ha. cbn [setQuestions snd submitAnswers activeQuestionSet fst questions].
    unfold collect. apply collect_from_blank; [exact Hblank|].
    intros k' a'. cbn [own no_answers]. by rewrite lookup_empty.
  - intros Hin.
    assert (Hout : u "__proto__"
                   ∉ dom (own (fst (submitAnswers (snd (setQuestions now inputs state)))))).
    { rewrite Hdom, elem_of_difference, elem_of_singleton. by intros [_ ?]. }
    split; [exact Hout|]. split.
    + intros Heq. apply Hout. rewrite Heq. by apply elem_of_list_to_set.
    + rewrite Hproto.
      apply list_elem_of_fmap in Hin as (q & Hq & Hin).
      destruct (last _) as [q'|] eqn:Hlast.
      * apply last_Some_elem_of, list_elem_of_filter in Hlast as [_ Hq'].
        rewrite Forall_forall in Hblank.
        by rewrite (answer_of_unanswered q') by by apply Hblank.
      * apply last_None in Hlast.
        assert (Hq0 : q ∈ filter (λ q, id q = u "__proto__")
                        (active_questions (snd (setQuestions now inputs state))))
          by by apply list_elem_of_filter.
        rewrite Hlast in Hq0. by apply elem_of_nil in Hq0.
  - intros Hnotin. split.
    + rewrite Hdom. apply set_eq. intros k. rewrite elem_of_difference, elem_of_singleton.
      split; [by intros [? _]|]. intros Hk. split; [done|]. intros ->.
      by apply elem_of_list_to_set in Hk.
    + rewrite Hproto. destruct (last _) as [q'|] eqn:Hlast; [|done].
      apply last_Some_elem_of, list_elem_of_filter in Hlast as [Hq' Hin'].
      destruct Hnotin. apply list_elem_of_fmap. by exists q'.
Qed.

(** Two questions, the second without an id: the keys are the given id and
    the fallback of index 1. *)
Example submit_unanswered :
  let inputs := [{| qi_id := Some (u "lang"); qi_question := u "Which language?";
                    qi_options := []; qi_allowCustom := true |};
                 {| qi_id := None; qi_question := u "Which framework?";
                    qi_options := []; qi_allowCustom := true |}] in
  fst (submitAnswers (snd (setQuestions 1700000000000 inputs initial)))
  = {| own := <[u "q-1" := blank]> (<[u "lang" := blank]> ∅); prototype := None |}.
Proof. vm_compute. reflexivity. Qed.

(** Two questions, the second with the id __proto__: the record has the
    one key of the first. *)
Example submit_proto_question :
  let answers :=
    fst (submitAnswers (snd (setQuestions 1700000000000
                               [language_question; proto_question] initial))) in
  answers = {| own := <[u "lang" := blank]> ∅; prototype := Some blank |}
  ∧ own answers !! u "__proto__" = None
  ∧ dom (own answers) = ({[u "lang"]} : gset ustring).
Proof. vm_compute. repeat split. Qed.

End QuestionProps.

(** ** The browser tools *)

Section BrowserProps.
Import BrowserStore BrowserTools.

Lemma checkBrowserConfigured_unconfigured (a : api) (w : world) :
  unconfigured a →
  checkBrowserConfigured a w
  = (Returned {| configured := false; needsSetup := true |},
     {| store := setShowSelectionDialog true (store w);
        trace := trace w ++ [EvGetSettings; EvShowSelectionDialog true] |}).
Proof.
  intros (settings & Hget & Hconf). unfold checkBrowserConfigured.
  unfold_eff. rewrite Hget, Hconf. cbn.
  by rewrite <- app_assoc.
Qed.

Lemma browserNavigate_unconfigured (a : api) (target : ustring) (w : world) :
  unconfigured a →
  browserNavigate a target w
  = (Returned setup_needed,
     {| store := setShowSelectionDialog true (store w);
        trace := trace w ++ [EvGetSettings; EvShowSelectionDialog true] |}).
Proof.
  intros Hun. unfold browserNavigate, try_catch.
  unfold mbind at 1. unfold Eff_bind, bind.
  by rewrite checkBrowserConfigured_unconfigured.
Qed.

(** The tools other than navigate dispatch at once, whatever the settings. *)
Lemma execute_dispatches (a : api) (c : tool_call) (w : world) :
  (∀ target, c ≠ CallNavigate target) →
  ∃ r, execute a c w
       = (Returned r, {| store := store w; trace := trace w ++ [EvBrowser (dispatch_of c)] |})
       ∧ needsBrowserSetup r = false.
Proof.
  intros Hc.
  destruct c as [target|sel|sel text|key|dir|sel| |]; [by destruct (Hc target)|..];
    cbn [execute dispatch_of];
    unfold browserClick, browserType, browserPress, browserScroll, browserGetContent,
           browserGetLinks, browserScreenshot;
    unfold_eff; cbn;
    (destruct (browser a _) as [r|m]; [destruct (r_error r)|]);
    eexists; (split; [reflexivity|done]).
Qed.

(** C1, amended. While no preferred browser is configured, browserNavigate
    fails fast: it returns the result marked needsBrowserSetup, raises the
    signal of the selection dialog once, leaves the dialog shown, and does
    not reach the browser automation collaborator. The seven other tools do
    not read the settings: each dispatches its call to the collaborator
    once, raises no signal, and returns a result without the marker. *)
Theorem browser_gate_on_navigate (a : api) (w : world) :
  unconfigured a →
  (∀ target,
     fails_fast a (CallNavigate target) w
     ∧ browserNavigate a target w
       = (Returned setup_needed,
          {| store := {| showSelectionDialog := true |};
             trace := trace w ++ [EvGetSettings; EvShowSelectionDialog true] |}))
  ∧ (∀ c, (∀ target, c ≠ CallNavigate target) →
          ∃ r, execute a c w
               = (Returned r,
                  {| store := store w; trace := trace w ++ [EvBrowser (dispatch_of c)] |})
               ∧ needsBrowserSetup r = false).
Proof.
  intros Hun. split.
  - intros target. pose proof (browserNavigate_unconfigured a target w Hun) as Hnav.
    split; [|exact Hnav].
    unfold fails_fast. cbn [execute]. rewrite Hnav.
    eexists _, _. split; [reflexivity|]. split; [reflexivity|].
    eexists. split; [reflexivity|]. split; reflexivity.
  - intros c Hc. by apply execute_dispatches.
Qed.

Lemma fresh_install_unconfigured : unconfigured fresh_install.
Proof. eexists. split; reflexivity. Qed.

Lemma browser_gate_on_navigate_witness :
  fails_fast fresh_install (CallNavigate (u "https://github.com")) start.
Proof.
  apply (browser_gate_on_navigate fresh_install start).
  eexists. split; reflexivity.
Defined.

(** C1, as the specification states it, fails for browserClick: with no
    preferred browser it dispatches to the collaborator, raises no signal,
    and returns what the executor makes of the answer of the collaborator,
    here its failure for a browser without a page. *)
Lemma browserClick_unconfigured_not_gated :
  unconfigured fresh_install
  ∧ execute fresh_install (CallClick (u "Sign In")) start
    = (Returned
         (failure (u "No page open")
            (Some (u "The element may not exist or may not be clickable. Try a different selector."))),
       {| store := initial; trace := [EvBrowser (Click (u "Sign In"))] |})
  ∧ ¬ fails_fast fresh_install (CallClick (u "Sign In")) start.
Proof.
  split; [apply fresh_install_unconfigured|]. split; [vm_compute; reflexivity|].
  intros (r & w' & Hex & Hsetup & _).
  vm_compute in Hex. injection Hex as <- <-. discriminate Hsetup.
Qed.

End BrowserProps.

(* ===================================================================== *)
(** * Further properties of the code                                       *)
(* ===================================================================== *)

(** ** The gate inside a longer command line *)

Section GateContext.
Context (post : ustring) (Hpost : is_word_opt (head post) = false).

Lemma head_extend (s : ustring) : is_word_opt (head (s ++ post)) = is_word_opt (head s).
Proof using Hpost. destruct s; [exact Hpost|done]. Qed.

Lemma star_loop_extend (a : atom) (k k' : cont) :
  cont_extend post k k' →
  ∀ s p q, same_wordness p q → star_loop a p s k = true → star_loop a q (s ++ post) k' = true.
Proof using Hpost.
  intros Hk s. induction s as [|ch s IH]; intros p q Hpq; cbn.
  - intros H. pose proof (Hk p q [] Hpq H) as H'. cbn in H'.
    destruct post; cbn; [done|]. by rewrite H', orb_true_r.
  - intros [[Hc Hs]%andb_true_iff|Hs]%orb_true_iff; apply orb_true_iff.
    + left. rewrite Hc. by apply (IH (Some ch)).
    + right. by apply (Hk p q (ch :: s)).
Qed.

Lemma matches_extend (r : regex) :
  ∀ k k' s p q, cont_extend post k k' → same_wordness p q →
                matches r p s k = true → matches r q (s ++ post) k' = true.
Proof using Hpost.
  induction r as [|a| |r1 IH1 r2 IH2|r1 IH1 r2 IH2|r IH|r IH|a|a];
    intros k k' s p q Hk Hpq; cbn [matches].
  - by apply Hk.
  - destruct s as [|ch s]; [done|]. cbn.
    intros [Hc Hs]%andb_true_iff. rewrite Hc. by apply (Hk (Some ch)).
  - rewrite head_extend, <- Hpq. destruct (xorb _ _); [by apply Hk | done].
  - apply IH1; [|done]. intros p' q' t Hpq'. by apply IH2.
  - intros [H|H]%orb_true_iff; apply orb_true_iff; [left|right]; revert H.
    + by apply IH1.
    + by apply IH2.
  - by apply IH.
  - intros [H|H]%orb_true_iff; apply orb_true_iff; [left|right]; revert H.
    + by apply IH.
    + by apply Hk.
  - by apply star_loop_extend.
  - destruct s as [|ch s]; [done|]. cbn.
    intros [Hc Hs]%andb_true_iff. rewrite Hc. revert Hs. by apply star_loop_extend.
Qed.

Lemma scan_extend (r : regex) (s : ustring) :
  ∀ p q, same_wordness p q → scan r p s = true → scan r q (s ++ post) = true.
Proof using Hpost.
  assert (Hk : cont_extend post (λ _ _, true) (λ _ _, true)) by done.
  induction s as [|ch s IH]; intros p q Hpq.
  - cbn [scan]. rewrite orb_false_r. intros H.
    pose proof (matches_extend r _ _ [] p q Hk Hpq H) as H'. cbn [app] in H'.
    cbn [app]. destruct post; cbn [scan]; by rewrite H'.
  - cbn [scan app]. intros [H|H]%orb_true_iff; apply orb_true_iff; [left|right].
    + by apply (matches_extend r _ _ (ch :: s) p q Hk Hpq).
    + by apply (IH (Some ch)).
Qed.

End GateContext.

Lemma scan_prefix (r : regex) (s : ustring) (pre : ustring) :
  ∀ p, scan r (from_option Some p (last pre)) s = true → scan r p (pre ++ s) = true.
Proof.
  induction pre as [|c pre IH]; intros p; [done|].
  cbn [app scan]. intros H. apply orb_true_iff. right. apply IH.
  rewrite last_cons in H. by destruct (last pre).
Qed.

(** X1. A command that the gate blocks stays blocked inside a longer
    command line, when the text before it is empty or ends in a character
    that is no word character, and the text after it is empty or starts
    with one: chaining a blocked command to others with separators does not
    get it past the gate. *)
Theorem blocked_in_context (pre command post : ustring) :
  isBlocked command = true →
  is_word_opt (last pre) = false →
  is_word_opt (head post) = false →
  isBlocked (pre ++ command ++ post) = true.
Proof.
  intros Hb Hpre Hpost. apply isBlocked_true in Hb as (r & Hin & Ht).
  apply isBlocked_true. exists r. split; [done|]. unfold test in *.
  apply scan_prefix. apply (scan_extend post Hpost r command None); [|done].
  unfold same_wordness. cbn. destruct (last pre); [by rewrite <- Hpre|done].
Qed.

Lemma blocked_in_context_witness :
  isBlocked (u "cd /tmp && " ++ u "rm -rf build" ++ u "; echo done") = true.
Proof.
  apply blocked_in_context; vm_compute; reflexivity.
Defined.

(** ** The handler shell:execute *)

(** X2. The handler shell:execute consults no pattern: a command that
    fs:bash refuses without executing it is handed by shell:execute to the
    execution primitive as it is, once, with the timeout 30000. *)
Theorem shell_execute_ungated (h : host) (home command : ustring) (cwd : option ustring)
    (options : option bash_options) :
  isBlocked command = true →
  snd (fs_bash h command options) = []
  ∧ map ec_command (snd (shell_execute h home command cwd)) = [command]
  ∧ timeouts (snd (shell_execute h home command cwd)) = [30000%Z].
Proof.
  unfold isBlocked, fs_bash, shell_execute, timeouts.
  destruct (first_blocked command) as [q|]; [|done]. intros _.
  split; [done|]. by destruct (execAsync h _ _).
Qed.

Lemma shell_execute_ungated_witness :
  snd (fs_bash quiet_host (u "sudo rm -rf /") None) = []
  ∧ map ec_command (snd (shell_execute quiet_host (u "/home/user") (u "sudo rm -rf /") None))
    = [u "sudo rm -rf /"]
  ∧ timeouts (snd (shell_execute quiet_host (u "/home/user") (u "sudo rm -rf /") None))
    = [30000%Z].
Proof.
  apply shell_execute_ungated. vm_compute. reflexivity.
Defined.

(** ** The outcomes of the tool bash *)

(** X3. The tool bash reports success exactly when the command is not
    blocked and the execution primitive resolved; and a result that reports
    a failed command never carries the exit code 0: an error without a
    code, or with the code 0, is reported with the exit code 1. *)
Theorem bash_result_by_outcome (h : host) (args : bash_args) :
  (bash_is_failure (fst (tool_bash h args)) = false
   ↔ isBlocked (ba_command args) = false
     ∧ ∃ out err, execAsync h (ba_command args)
                    (exec_opts h (ba_cwd args) (tool_timeout args))
                  = ExecResolved out err)
  ∧ match fst (tool_bash h args) with
    | BashFailed exitCode _ _ _ _ => code_is_zero exitCode = false
    | BashSucceeded _ _ => True
    | BashError _ _ => True
    end.
Proof.
  unfold isBlocked. destruct (first_blocked (ba_command args)) as [q|] eqn:Hq.
  - rewrite (tool_bash_blocked h args q Hq). cbn. split; [|done].
    split; [done|]. by intros [? _].
  - rewrite (tool_bash_allowed h args Hq). cbn [fst].
    destruct (execAsync h _ _) as [out err|e].
    + split; [|done]. split; [|done]. intros _. split; [done|]. by exists out, err.
    + split.
      * split; [by destruct (e_killed e)|]. by intros [_ (out & err & Heq)].
      * destruct (e_killed e); [done|]. cbn zeta.
        destruct (e_code e) as [[n|s]|]; cbn; [|by destruct s|done].
        destruct (Z.eqb_spec n 0); cbn; [done|]. by apply Z.eqb_neq.
Qed.

Lemma seconds_text_whole (k : Z) : (0 ≤ k)%Z → seconds_text (1000 * k) = show_Z k.
Proof.
  intros Hk. unfold seconds_text.
  rewrite Z.abs_eq by lia.
  replace ((1000 * k) mod 1000)%Z with 0%Z by (rewrite Z.mul_comm, Z.mod_mul; lia).
  replace (1000 * k / 1000)%Z with k by (rewrite Z.mul_comm, Z.div_mul; lia).
  cbn [Z.eqb]. destruct (Z.ltb_spec (1000 * k) 0); [lia|].
  by rewrite app_nil_r.
Qed.

(** X4. When the process of an allowed command is killed because its
    timeout expired, the tool bash returns an error result (not a failed
    command with an exit code) whose message is what the bridge makes of
    "Command timed out after k seconds", k being the timeout in seconds
    that the tool computed, for a timeout of whole seconds. *)
Theorem bash_timeout_reported (h : host) (args : bash_args) (e : exec_error) (k : Z) :
  first_blocked (ba_command args) = None →
  execAsync h (ba_command args) (exec_opts h (ba_cwd args) (tool_timeout args))
    = ExecRejected e →
  e_killed e = true →
  tool_timeout args = (1000 * k)%Z →
  (0 ≤ k)%Z →
  fst (tool_bash h args)
  = BashError (invoke_error h (u "fs:bash")
                 (u "Command timed out after " ++ show_Z k ++ u " seconds"))
      (u "This command may be blocked for safety reasons, or the path may be invalid").
Proof.
  intros Hfree Hexec Hkilled Ht Hk.
  rewrite (tool_bash_allowed h args Hfree), Hexec. cbn [fst]. rewrite Hkilled, Ht.
  by rewrite seconds_text_whole.
Qed.

Lemma bash_timeout_reported_witness :
  fst (tool_bash hanging_host
         {| ba_command := u "sleep 600"; ba_cwd := None; ba_timeout := Some 200000%Z |})
  = BashError (electron_invoke_error (u "fs:bash")
                 (u "Command timed out after 120 seconds"))
      (u "This command may be blocked for safety reasons, or the path may be invalid").
Proof.
  apply (bash_timeout_reported hanging_host
           {| ba_command := u "sleep 600"; ba_cwd := None; ba_timeout := Some 200000%Z |}
           {| e_code := None; e_killed := true; e_stdout := Some []; e_stderr := Some [];
              e_message := Some (u "Command failed: " ++ u "sleep 600" ++ [10]) |}
           120).
  - vm_compute. reflexivity.
  - reflexivity.
  - reflexivity.
  - vm_compute. reflexivity.
  - lia.
Defined.

(** ** The results of grep *)

Section GrepResults.
Context (E : engine).

(** A length reaches the cap exactly when it is no less than the number
    of entries that the cap allows. *)
Lemma ceiling_le (q : Q) (z : Z) : (q <= inject_Z z)%Q ↔ (Qceiling q ≤ z)%Z.
Proof.
  split.
  - intros H. apply Qceiling_resp_le in H. by rewrite Qceiling_Z in H.
  - intros H. eapply Qle_trans; [apply Qle_ceiling|]. by rewrite <- Zle_Qle.
Qed.

Lemma cap_reached (maxResults : js_number) (n : nat) :
  length_reaches n maxResults = true →
  ∃ m, entries_allowed maxResults = Some m ∧ (m - n = 0)%nat.
Proof.
  destruct maxResults as [q|[]|]; cbn [length_reaches entries_allowed]; try done.
  - intros H%Qle_bool_iff%ceiling_le. eexists. split; [done|]. lia.
  - intros _. by exists 0%nat.
Qed.

Lemma cap_open (maxResults : js_number) (n : nat) :
  length_reaches n maxResults = false →
  match entries_allowed maxResults with
  | Some m => (m - n = S (m - S n))%nat
  | None => True
  end.
Proof.
  destruct maxResults as [q|[]|]; cbn [length_reaches entries_allowed]; try done.
  intros H. destruct (decide (Qceiling q ≤ Z.of_nat n)%Z) as [Hle|Hgt]; [|lia].
  apply ceiling_le, Qle_bool_iff in Hle. congruence.
Qed.

Lemma still_allowed_nil {A : Type} (cap : js_number) (taken : nat) :
  still_allowed cap taken (@nil A) = [].
Proof. unfold still_allowed. destruct (entries_allowed cap); [apply take_nil|done]. Qed.

Lemma still_allowed_reached {A : Type} (cap : js_number) (taken : nat) (l : list A) :
  length_reaches taken cap = true → still_allowed cap taken l = [].
Proof.
  intros (m & Hm & Hz)%cap_reached. unfold still_allowed. by rewrite Hm, Hz.
Qed.

Lemma still_allowed_cons {A : Type} (cap : js_number) (taken : nat) (x : A) (l : list A) :
  length_reaches taken cap = false →
  still_allowed cap taken (x :: l) = x :: still_allowed cap (S taken) l.
Proof.
  intros H%cap_open. unfold still_allowed.
  destruct (entries_allowed cap) as [m|]; [|done]. by rewrite H.
Qed.

Lemma still_allowed_app {A : Type} (cap : js_number) (taken : nat) (l1 l2 : list A) :
  still_allowed cap taken (l1 ++ l2)
  = still_allowed cap taken l1
    ++ still_allowed cap (taken + length (still_allowed cap taken l1)) l2.
Proof.
  unfold still_allowed. destruct (entries_allowed cap) as [m|]; [|done].
  rewrite take_app, length_take. f_equal. f_equal. lia.
Qed.

(** The two loops collect the matches in order until the cap is reached. *)
Lemma search_lines_take (regex : RegExp E) (maxResults : js_number) (filePath : ustring)
    (i : nat) (lines : list ustring) (results : list grep_match) :
  search_lines E regex maxResults filePath i lines results
  = results ++ still_allowed maxResults (length results)
                 (line_matches E regex filePath i lines).
Proof.
  revert i results.
  induction lines as [|line rest IH]; intros i results; cbn [search_lines line_matches].
  - by rewrite still_allowed_nil, app_nil_r.
  - destruct (length_reaches (length results) maxResults) eqn:Hcap.
    + by rewrite still_allowed_reached, app_nil_r.
    + rewrite IH. destruct (match_first E regex line) as [m|]; [|done].
      rewrite length_app. cbn [length app].
      replace (length results + 1)%nat with (S (length results)) by lia.
      by rewrite still_allowed_cons, <- app_assoc.
Qed.

Lemma search_files_take (fs : filesystem) (regex : RegExp E) (maxResults : js_number)
    (files : list ustring) (results : list grep_match) :
  search_files E fs regex maxResults files results
  = results ++ still_allowed maxResults (length results)
                 (all_matches E fs regex files).
Proof.
  revert results. induction files as [|filePath rest IH]; intros results;
    cbn [search_files all_matches flat_map].
  - by rewrite still_allowed_nil, app_nil_r.
  - fold (all_matches E fs regex rest).
    destruct (length_reaches (length results) maxResults) eqn:Hcap.
    + by rewrite still_allowed_reached, app_nil_r.
    + rewrite IH. unfold file_matches.
      destruct (fs_readFile fs filePath) as [content|]; [|done].
      by rewrite search_lines_take, <- app_assoc, length_app, still_allowed_app.
Qed.

(** X5. What the handler fs:grep returns is the list of the matching
    lines of the files it searches (the file itself, or the files listed
    under a directory), in the order of the files and of the lines in each;
    a file that cannot be read contributes nothing. The list is cut off
    where its length reaches the cap, which is maxResults, or 100 when the
    option is absent, 0 or NaN: after the least whole number of entries
    that is no less than the cap (after maxResults entries when it is
    whole, after 3 when it is 2.5, after none when it is negative), and
    nowhere when the cap is the positive infinity. *)
Theorem grep_returns_first_matches (fs : filesystem) (pattern searchPath : ustring)
    (options : option (option js_number)) (results : list grep_match) :
  fs_grep E fs pattern searchPath options = Returned results →
  ∃ regex matches,
    build_regex E pattern = Returned regex
    ∧ matches = all_matches E fs regex (searched_files fs searchPath)
    ∧ match number_or (mjoin options) (whole 100) with
      | Finite cap =>
          results = take (Z.to_nat (Qceiling cap)) matches
          ∧ (∀ n : nat, (cap <= inject_Z (Z.of_nat n))%Q → (length results ≤ n)%nat)
      | Infinite true => results = []
      | Infinite false => results = matches
      | NaN => False
      end.
Proof.
  unfold fs_grep, searched_files.
  destruct (fs_stat fs (fs_resolve fs searchPath)) as [isDirectory|]; [|done].
  destruct (build_regex E pattern) as [regex|m]; [|done].
  intros [= <-]. exists regex. eexists. split; [done|]. split; [done|].
  rewrite search_files_take. cbn [app length]. unfold still_allowed.
  assert (Hcap : number_or (mjoin options) (whole 100) ≠ NaN).
  { unfold number_or. destruct (mjoin options) as [[q|b|]|]; cbn; try done.
    by destruct (negb _). }
  destruct (number_or (mjoin options) (whole 100)) as [cap|[]|];
    cbn [entries_allowed]; rewrite ?Nat.sub_0_r; try done.
  split; [done|]. intros n Hn%ceiling_le. rewrite length_take. lia.
Qed.

Lemma line_matches_wf (regex : RegExp E) (filePath : ustring) (i : nat)
    (lines : list ustring) :
  Forall (λ m, gm_file m = filePath ∧ (i < gm_line m ≤ i + length lines)%nat
               ∧ (length (gm_content m) ≤ 200)%nat)
         (line_matches E regex filePath i lines).
Proof.
  revert i. induction lines as [|line rest IH]; intros i; cbn [line_matches]; [constructor|].
  apply Forall_app. split.
  - destruct (match_first E regex line) as [m|]; [|constructor].
    constructor; [|constructor]. cbn [gm_file gm_line gm_content length].
    split; [done|]. split; [lia|]. unfold substring0. rewrite length_take. lia.
  - eapply Forall_impl; [apply IH|]. cbn. intros m (? & ? & ?).
    split; [done|]. split; [lia|done].
Qed.

Lemma all_matches_wf (fs : filesystem) (regex : RegExp E) (files : list ustring) :
  Forall (λ m, gm_file m ∈ files ∧ (1 ≤ gm_line m)%nat
               ∧ (length (gm_content m) ≤ 200)%nat)
         (all_matches E fs regex files).
Proof.
  induction files as [|f files IH]; cbn [all_matches flat_map]; [constructor|].
  apply Forall_app. split.
  - unfold file_matches. destruct (fs_readFile fs f); [|constructor].
    eapply Forall_impl; [apply line_matches_wf|]. cbn. intros m (-> & ? & ?).
    split; [left|]. split; [lia|done].
  - eapply Forall_impl; [apply IH|]. cbn. intros m (? & ? & ?). split; [by right|done].
Qed.

Lemma number_or_truthy (n : option js_number) (d : js_number) :
  number_truthy d = true → number_truthy (number_or n d) = true.
Proof.
  intros Hd. unfold number_or. destruct n as [x|]; [|done].
  by destruct (number_truthy x) eqn:Hx.
Qed.

(** The cap that the tool sends is the cap that the handler uses. *)
Lemma number_or_sent (maxResults : option js_number) :
  number_or (Some (number_or maxResults (whole 50))) (whole 100)
  = number_or maxResults (whole 50).
Proof. unfold number_or at 1. by rewrite number_or_truthy. Qed.

(** X6. When the tool grep reports matches, their count is the length of
    the list and at least 1, every match carries a line number from 1 on
    and a content of at most 200 code units, and the count is at most
    every whole number that is no less than the cap, which is maxResults,
    or 50 when the parameter is absent, 0 or NaN: at most maxResults when
    it is whole, and at most 3 when it is 2.5, so that the count can exceed
    a cap that is not whole, by less than one. No match is reported under
    a negative cap. *)
Theorem tool_grep_capped (h : host) (fs : filesystem) (pattern path : ustring)
    (maxResults : option js_number) :
  match tool_grep h E fs pattern path maxResults with
  | GrepMatches matches count _ =>
      count = length matches
      ∧ (0 < count)%nat
      ∧ match number_or maxResults (whole 50) with
        | Finite cap =>
            (0 < cap)%Q
            ∧ (inject_Z (Z.of_nat count) < cap + inject_Z 1)%Q
            ∧ ∀ n : nat, (cap <= inject_Z (Z.of_nat n))%Q → (count ≤ n)%nat
        | Infinite negative => negative = false
        | NaN => False
        end
      ∧ Forall (λ m, (1 ≤ gm_line m)%nat ∧ (length (gm_content m) ≤ 200)%nat) matches
  | GrepNoMatches _ => True
  | GrepError _ _ => True
  end.
Proof.
  unfold tool_grep, api_grep, fs_grep.
  destruct (fs_stat fs (fs_resolve fs path)) as [isDirectory|]; [|done].
  destruct (build_regex E pattern) as [regex|m]; [|done].
  change (mjoin (Some (Some ?x))) with (Some x).
  rewrite number_or_sent, search_files_take. cbn [app length].
  set (files := if isDirectory then fs_glob_files fs (fs_resolve fs path)
                else [fs_resolve fs path]).
  pose proof (number_or_truthy maxResults (whole 50) eq_refl) as Htruthy.
  destruct (still_allowed _ _ _) as [|r results] eqn:Hres; [done|]. symmetry in Hres.
  split; [done|]. split; [cbn [length]; lia|]. split.
  - unfold still_allowed in Hres.
    destruct (number_or maxResults (whole 50)) as [cap|[]|];
      cbn [entries_allowed] in Hres; try done.
    assert (Hlen : (length (r :: results) ≤ Z.to_nat (Qceiling cap))%nat).
    { rewrite Hres, length_take. lia. }
    assert (Hceil : (Z.of_nat (length (r :: results)) ≤ Qceiling cap)%Z).
    { cbn [length] in *. lia. }
    split; [|split].
    + apply Qnot_le_lt. intros Hle%(ceiling_le cap 0). cbn [length] in *. lia.
    + eapply Qle_lt_trans; [rewrite <- Zle_Qle; exact Hceil|].
      pose proof (Qceiling_lt cap) as Hlt.
      unfold Z.sub in Hlt. rewrite inject_Z_plus in Hlt.
      apply (Qplus_lt_l _ _ (inject_Z (-1))).
      eapply Qlt_le_trans; [exact Hlt|].
      rewrite <- Qplus_assoc. change (inject_Z 1 + inject_Z (-1))%Q with (inject_Z 0).
      rewrite Qplus_0_r. apply Qle_refl.
    + intros n Hn%ceiling_le. lia.
  - rewrite Hres. unfold still_allowed.
    destruct (entries_allowed _); [apply Forall_take|];
      (eapply Forall_impl; [apply all_matches_wf|]); cbn; by intros m (_ & ? & ?).
Qed.

End GrepResults.

(** A cap between two whole numbers: with four matching lines and the cap
    2.5 the handler returns three entries, the lengths 0, 1 and 2 being
    less than the cap. *)
Lemma grep_returns_first_matches_witness :
  ∃ regex matches,
    build_regex (literal_engine ascii_same) (u "todo") = Returned regex
    ∧ matches = all_matches (literal_engine ascii_same) (single_file four_todos) regex
                  (searched_files (single_file four_todos) (u "notes.txt"))
    ∧ [ {| gm_file := u "notes.txt"; gm_line := 1; gm_content := u "todo 1";
           gm_match := u "todo" |};
        {| gm_file := u "notes.txt"; gm_line := 2; gm_content := u "todo 2";
           gm_match := u "todo" |};
        {| gm_file := u "notes.txt"; gm_line := 3; gm_content := u "todo 3";
           gm_match := u "todo" |} ]
      = take (Z.to_nat (Qceiling (5 # 2))) matches
    ∧ ∀ n : nat, (5 # 2 <= inject_Z (Z.of_nat n))%Q → (3 ≤ n)%nat.
Proof.
  apply (grep_returns_first_matches (literal_engine ascii_same) (single_file four_todos)
           (u "todo") (u "notes.txt") (Some (Some (Finite (5 # 2))))).
  vm_compute. reflexivity.
Defined.

(** The tool with the same cap reports the three entries and the count 3. *)
Example tool_grep_fraction :
  tool_grep quiet_host (literal_engine ascii_same) (single_file four_todos)
    (u "todo") (u "notes.txt") (Some (Finite (5 # 2)))
  = GrepMatches
      [ {| gm_file := u "notes.txt"; gm_line := 1; gm_content := u "todo 1";
           gm_match := u "todo" |};
        {| gm_file := u "notes.txt"; gm_line := 2; gm_content := u "todo 2";
           gm_match := u "todo" |};
        {| gm_file := u "notes.txt"; gm_line := 3; gm_content := u "todo 3";
           gm_match := u "todo" |} ]
      3 (u "Found 3 matches for " ++ quote ++ u "todo" ++ quote).
Proof. vm_compute. reflexivity. Qed.

(** ** The registry of skills and the two installers *)

Lemma trim_start_spaces (s : ustring) :
  Forall (λ c, is_space c = true) s → trim_start s = [].
Proof. induction 1 as [|c s Hc _ IH]; [done|]. cbn. by rewrite Hc. Qed.

Lemma trim_start_nil_spaces (s : ustring) :
  trim_start s = [] → Forall (λ c, is_space c = true) s.
Proof.
  induction s as [|c s IH]; [constructor|]. cbn.
  destruct (is_space c) eqn:Hc; [|done]. intros H. constructor; [done|by apply IH].
Qed.

(** [trim] leaves nothing exactly of the strings of white space. *)
Lemma trim_nil_iff (s : ustring) :
  trim s = [] ↔ Forall (λ c, is_space c = true) s.
Proof.
  unfold trim. split.
  - intros H. apply (f_equal reverse) in H. rewrite reverse_involutive in H. cbn in H.
    apply trim_start_nil_spaces in H. apply Forall_reverse in H.
    rewrite reverse_involutive in H.
    clear -H. induction s as [|c s IH]; [constructor|].
    cbn in H. destruct (is_space c) eqn:Hc; [constructor; auto|].
    by inversion H; congruence.
  - intros H. by rewrite (trim_start_spaces s H).
Qed.

(** Some queries as they are encoded: a space and an ampersand, a letter
    of two octets, one of three, a surrogate pair, and a surrogate that
    stands alone. *)
Example encodeURIComponent_examples :
  encodeURIComponent (u "pdf tools & c++") = Some (u "pdf%20tools%20%26%20c%2B%2B")
  ∧ encodeURIComponent [233] = Some (u "%C3%A9")
  ∧ encodeURIComponent [8364] = Some (u "%E2%82%AC")
  ∧ encodeURIComponent [55357; 56832] = Some (u "%F0%9F%98%80")
  ∧ encodeURIComponent (u "a" ++ [55357]) = None
  ∧ encodeURIComponent [56832; 55357] = None.
Proof. vm_compute. repeat split. Qed.

(** A string without surrogates is encoded. *)
Lemma encodeURIComponent_no_surrogate (s : ustring) :
  Forall (λ c, is_lead_surrogate c = false ∧ is_trail_surrogate c = false) s →
  is_Some (encodeURIComponent s).
Proof.
  induction 1 as [|c rest [Hl Ht] _ [e He]]; [by eexists|].
  cbn [encodeURIComponent]. rewrite Hl, Ht, He.
  destruct (uri_unreserved c); by eexists.
Qed.

(** X7. The handler skillregistry:search consults one address at most:
    the featured list when the query is empty or consists of white space,
    and otherwise the search endpoint followed by the query as
    encodeURIComponent writes it, the query being taken as it was given,
    not trimmed. What it returns depends on the answer of that address
    only. When the query is not blank and cannot be encoded (a surrogate
    that stands alone makes encodeURIComponent throw), no address is
    consulted and the handler returns the empty list. *)
Theorem blank_query_lists_featured (fetch : registry_url → fetch_outcome) (query : ustring) :
  (Forall (λ c, is_space c = true) query → search_address query = Some FeaturedUrl)
  ∧ (¬ Forall (λ c, is_space c = true) query →
     search_address query = SearchUrl <$> encodeURIComponent query)
  ∧ (∀ fetch' : registry_url → fetch_outcome,
       (∀ url, search_address query = Some url → fetch' url = fetch url) →
       skillregistry_search fetch' query = skillregistry_search fetch query)
  ∧ (¬ Forall (λ c, is_space c = true) query → encodeURIComponent query = None →
     skillregistry_search fetch query = []).
Proof.
  assert (Hblank : Forall (λ c, is_space c = true) query → truthy (trim query) = false).
  { intros H. apply trim_nil_iff in H. by rewrite H. }
  assert (Hfull : ¬ Forall (λ c, is_space c = true) query → truthy (trim query) = true).
  { intros H. destruct (trim query) as [|c t] eqn:Ht; [|done].
    destruct H. by apply trim_nil_iff. }
  unfold skillregistry_search, search_address. repeat split.
  - intros H. by rewrite (Hblank H).
  - intros H. by rewrite (Hfull H).
  - intros fetch' Hsame.
    destruct (if truthy (trim query) then _ else _) as [url|]; [|done].
    by rewrite Hsame.
  - intros H Hthrows. by rewrite (Hfull H), Hthrows.
Qed.

(** The query of one surrogate: whatever the registry would answer, the
    handler returns nothing. *)
Example search_lone_surrogate (fetch : registry_url → fetch_outcome) :
  skillregistry_search fetch [55357] = [].
Proof. reflexivity. Qed.

Section Installers.
Import SkillTools.

Lemma not_installed (name : ustring) (existing : list Skill) :
  name ∉ map SkillTools.name existing ↔
  existsb (λ s, bool_decide (SkillTools.name s = name)) existing = false.
Proof.
  split.
  - intros Hnew. apply not_true_is_false. intros [s [Hin Hs]]%existsb_exists.
    apply bool_decide_eq_true in Hs. destruct Hnew. apply list_elem_of_fmap.
    exists s. split; [done|]. by apply list_elem_of_In.
  - intros Hex [s [Hs Hin]]%list_elem_of_fmap.
    assert (existsb (λ s, bool_decide (SkillTools.name s = name)) existing = true) as Htrue.
    { apply existsb_exists. exists s. split; [by apply list_elem_of_In|].
      by apply bool_decide_eq_true. }
    congruence.
Qed.

(** X8. The tool installSkill calls createSkill only after it found no
    installed skill of the name and fetched a content that is not empty;
    the call is its third and last, and the skill it creates has the name
    and the description of the call, the whole content, and the address of
    the skill in the registry as its source. *)
Theorem installSkill_guarded (a : api) (skillId name description : ustring)
    (data : skill_data) :
  EvCreateSkill data ∈ snd (installSkill a skillId name description) →
  snd (installSkill a skillId name description)
    = [EvGetSkills; EvGetContent skillId; EvCreateSkill data]
  ∧ (∃ existing, getSkills a = Returned existing
                 ∧ name ∉ map SkillTools.name existing)
  ∧ skillRegistryGetContent a skillId = Returned (Some (sd_content data))
  ∧ sd_content data ≠ []
  ∧ data = {| sd_name := name; sd_description := description;
              sd_content := sd_content data;
              sd_sourceUrl := u "https://skillregistry.io/skills/" ++ skillId |}.
Proof.
  assert (Hnone : ∀ l : list event,
             (∀ e, e ∈ l → e = EvGetSkills ∨ e = EvGetContent skillId) →
                       EvCreateSkill data ∈ l → False).
  { intros l Hl Hin. by destruct (Hl _ Hin). }
  unfold installSkill.
  destruct (getSkills a) as [existing|m]; cbn [snd].
  2: { intros H. exfalso. revert H. apply Hnone. intros e ->%list_elem_of_singleton. by left. }
  destruct (existsb _ existing) eqn:Hex; cbn [snd].
  { intros H. exfalso. revert H. apply Hnone. intros e ->%list_elem_of_singleton. by left. }
  apply not_installed in Hex.
  assert (Htwo : EvCreateSkill data ∈ [EvGetSkills; EvGetContent skillId] → False).
  { apply Hnone. intros e [->|[->|[]%elem_of_nil]%elem_of_cons]%elem_of_cons; auto. }
  destruct (skillRegistryGetContent a skillId) as [[content|]|m]; cbn [snd]; [|done..].
  destruct content as [|c content]; cbn [truthy negb snd]; [done|].
  assert (Hdata : ∀ l, EvCreateSkill data ∈ [EvGetSkills; EvGetContent skillId; EvCreateSkill l]
                       → data = l).
  { intros l [|[|[|[]%elem_of_nil]%elem_of_cons]%elem_of_cons]%elem_of_cons; congruence. }
  destruct (createSkill a _); cbn [snd]; intros ->%Hdata; cbn;
    (split; [done|]; split; [by exists existing|]; done).
Qed.

(** X9. When the page of a skill cannot be had from the registry (the
    fetch rejects, the status is an error, the body cannot be read or is
    empty), installing a skill that is not installed yet fails with the
    message "Failed to fetch skill content for" and the id, after the two
    look-ups and without calling createSkill. *)
Theorem installSkill_registry_down (installed : list Skill) (fetch : ustring → text_outcome)
    (create : skill_data → outcome unit) (skillId name description : ustring) :
  name ∉ map SkillTools.name installed →
  unavailable (fetch (skill_url skillId)) →
  installSkill (registry_api installed fetch create) skillId name description
  = (ContentMissing (u "Failed to fetch skill content for " ++ skillId)
       (u "The skill may have been removed. Try searching again."),
     [EvGetSkills; EvGetContent skillId]).
Proof.
  intros Hnew%not_installed Hdown. unfold installSkill, registry_api.
  cbn [getSkills skillRegistryGetContent]. rewrite Hnew.
  unfold skillregistry_getContent.
  destruct (fetch (skill_url skillId)) as [m|ok status body]; [done|]. cbn in Hdown.
  destruct Hdown as [->|[->| ->]]; cbn; [done| |]; by destruct ok.
Qed.

(** X10. For a skill that is not installed yet, the tool installSkill
    and the install button of the marketplace do the same after the look-up
    of the installed skills: they fetch the content of the skill and, when
    there is one, create the same skill. *)
Theorem install_same_skill (a : api) (skill : RegistrySkill) (existing : list Skill) :
  getSkills a = Returned existing →
  sk_name skill ∉ map SkillTools.name existing →
  snd (installSkill a (sk_id skill) (sk_name skill) (sk_description skill))
  = EvGetSkills :: handleInstall a skill.
Proof.
  intros Hget Hnew%not_installed. unfold installSkill, handleInstall. rewrite Hget, Hnew.
  destruct (skillRegistryGetContent a (sk_id skill)) as [[content|]|m]; [|done|done].
  destruct content as [|c content]; cbn [truthy negb]; [done|].
  by destruct (createSkill a _).
Qed.

End Installers.

Lemma installSkill_guarded_witness :
  snd (SkillTools.installSkill
         (registry_api [] (serving (u "# Slack")) (λ _, Returned tt))
         (u "slack") (u "Slack") (u "Send messages"))
  = [SkillTools.EvGetSkills; SkillTools.EvGetContent (u "slack");
     SkillTools.EvCreateSkill
       {| SkillTools.sd_name := u "Slack"; SkillTools.sd_description := u "Send messages";
          SkillTools.sd_content := u "# Slack";
          SkillTools.sd_sourceUrl := u "https://skillregistry.io/skills/slack" |}].
Proof.
  apply (installSkill_guarded
           (registry_api [] (serving (u "# Slack")) (λ _, Returned tt))
           (u "slack") (u "Slack") (u "Send messages")
           {| SkillTools.sd_name := u "Slack"; SkillTools.sd_description := u "Send messages";
              SkillTools.sd_content := u "# Slack";
              SkillTools.sd_sourceUrl := u "https://skillregistry.io/skills/slack" |}).
  vm_compute. do 2 right. left.
Defined.

Lemma installSkill_registry_down_witness :
  SkillTools.installSkill
    (registry_api [{| SkillTools.name := u "Slack" |}]
       (λ _, TextRejected (u "fetch failed")) (λ _, Returned tt))
    (u "imsg") (u "iMessage") (u "Send iMessages")
  = (SkillTools.ContentMissing (u "Failed to fetch skill content for " ++ u "imsg")
       (u "The skill may have been removed. Try searching again."),
     [SkillTools.EvGetSkills; SkillTools.EvGetContent (u "imsg")]).
Proof.
  apply installSkill_registry_down.
  - apply (bool_decide_unpack _). vm_compute. exact I.
  - exact I.
Defined.

Lemma install_same_skill_witness :
  snd (SkillTools.installSkill
         (registry_api [] (serving (u "# Slack")) (λ _, Returned tt))
         (u "slack") (u "Slack") (u "Send messages"))
  = SkillTools.EvGetSkills
    :: SkillTools.handleInstall
         (registry_api [] (serving (u "# Slack")) (λ _, Returned tt))
         {| sk_id := u "slack"; sk_name := u "Slack"; sk_description := u "Send messages" |}.
Proof.
  apply (install_same_skill
           (registry_api [] (serving (u "# Slack")) (λ _, Returned tt))
           {| sk_id := u "slack"; sk_name := u "Slack"; sk_description := u "Send messages" |}
           []).
  - reflexivity.
  - apply not_elem_of_nil.
Defined.

(** ** Strings cut at a separator *)

Lemma js_split_nonempty (sep : N) (s : ustring) : js_split sep s ≠ [].
Proof.
  induction s as [|c s IH]; [done|]. cbn.
  destruct (c =? sep); [done|]. by destruct (js_split sep s).
Qed.

Lemma js_split_no_sep (sep : N) (s : ustring) : sep ∉ s → js_split sep s = [s].
Proof.
  induction s as [|c s IH]; [done|].
  intros [Hne Hs]%not_elem_of_cons. cbn.
  destruct (N.eqb_spec c sep) as [->|_]; [done|]. by rewrite IH.
Qed.

Lemma js_split_head (sep : N) (s t : ustring) :
  sep ∉ s → js_split sep (s ++ sep :: t) = s :: js_split sep t.
Proof.
  induction s as [|c s IH]; intros Hs; cbn.
  - by rewrite N.eqb_refl.
  - apply not_elem_of_cons in Hs as [Hne Hs]. rewrite (IH Hs).
    by destruct (N.eqb_spec c sep) as [->|_].
Qed.

Lemma js_split_first (sep : N) (s : ustring) :
  ∃ p pieces, js_split sep s = p :: pieces ∧ sep ∉ p.
Proof.
  induction s as [|c s (p & pieces & IH & Hp)]; cbn.
  - exists [], []. split; [done|]. apply not_elem_of_nil.
  - destruct (N.eqb_spec c sep) as [->|Hc].
    + eexists [], _. split; [done|]. apply not_elem_of_nil.
    + rewrite IH. exists (c :: p), pieces. split; [done|].
      apply not_elem_of_cons. split; [congruence|done].
Qed.

Lemma js_split_app (sep : N) (s t : ustring) :
  ∃ p pieces, js_split sep (s ++ sep :: t) = p :: pieces ++ js_split sep t.
Proof.
  induction s as [|c s (p & pieces & IH)]; cbn.
  - rewrite N.eqb_refl. by exists [], [].
  - rewrite IH. destruct (c =? sep); [by exists [], (p :: pieces)|].
    by exists (c :: p), pieces.
Qed.

Lemma last_js_split_app (sep : N) (s t : ustring) :
  last (js_split sep (s ++ sep :: t)) = last (js_split sep t).
Proof.
  destruct (js_split_app sep s t) as (p0 & pieces & ->).
  rewrite app_comm_cons, last_app.
  pose proof (js_split_nonempty sep t).
  destruct (js_split sep t) as [|p l] using rev_ind; [done|]. by rewrite last_snoc.
Qed.

(** A string has one cut at the first separator, and one at the last. *)
Lemma sep_first_inj (sep : N) (a a' b b' : ustring) :
  sep ∉ a → sep ∉ a' → a ++ sep :: b = a' ++ sep :: b' → a = a' ∧ b = b'.
Proof.
  revert a'. induction a as [|d a IH]; intros [|d' a'] Ha Ha'; cbn.
  - by intros [= ->].
  - intros [= <- _]. destruct Ha'. by left.
  - intros [= -> _]. destruct Ha. by left.
  - intros [= <- H]. apply not_elem_of_cons in Ha as [_ Ha].
    apply not_elem_of_cons in Ha' as [_ Ha'].
    by destruct (IH a' Ha Ha' H) as [-> ->].
Qed.

Lemma sep_last_inj (sep : N) (a a' b b' : ustring) :
  sep ∉ b → sep ∉ b' → a ++ sep :: b = a' ++ sep :: b' → a = a' ∧ b = b'.
Proof.
  intros Hb Hb' H. apply (f_equal reverse) in H.
  rewrite !reverse_app, !reverse_cons, <- !app_assoc in H. cbn in H.
  apply sep_first_inj in H as [H1 H2]; [|by rewrite elem_of_reverse..].
  split; by apply (inj reverse).
Qed.

(** ** Images and file sizes *)

Lemma extension_after_dot (R : file_reader) (dir ext : ustring) :
  46 ∉ ext → extension R (dir ++ [46] ++ ext) = toLowerCase R ext.
Proof.
  intros Hext. unfold extension. cbn [app].
  rewrite last_js_split_app, js_split_no_sep by done. cbn.
  by destruct (toLowerCase R ext).
Qed.

Lemma mimeTypes_truthy (ext mime : ustring) :
  mimeTypes !! ext = Some mime → or_else (Some mime) (u "application/octet-stream") = mime.
Proof.
  unfold mimeTypes. cbn [list_to_map foldr fst snd uncurry].
  repeat (rewrite lookup_insert; case_decide; [by intros [= <-]|]).
  by rewrite lookup_empty.
Qed.

(** X11. For a file that can be read and whose path ends in a dot and an
    extension of ASCII characters, the tool viewImage returns an image
    whose type is the one that the table of the handler fs:readFileBase64
    gives for the extension in lower case, application/octet-stream when
    the table has none, and whose data URL is made of that type and of the
    content in base64; the case of the extension does not matter. The
    extensions that in lower case name a member of Object.prototype
    (constructor, __proto__) are left aside: for them the handler finds
    that member in place of a type. *)
Theorem viewImage_mime_by_extension (h : host) (R : file_reader)
    (dir ext base64 : ustring) :
  lowers_ascii R →
  readFile_base64 R (dir ++ [46] ++ ext) = Returned base64 →
  46 ∉ ext →
  ascii ext →
  lower_ascii ext ∉ JsObject.prototype_names →
  tool_viewImage (api_readFileBase64 h R) (dir ++ [46] ++ ext)
  = let mime := default (u "application/octet-stream") (mimeTypes !! lower_ascii ext) in
    ImageLoaded (dir ++ [46] ++ ext) (MimeString mime)
      (u "data:" ++ mime ++ u ";base64," ++ base64)
      (u "Image loaded successfully. The image is now visible to you.").
Proof.
  intros Hlow Hread Hdot Hascii Hproto.
  unfold tool_viewImage, api_readFileBase64, fs_readFileBase64. rewrite Hread.
  rewrite extension_after_dot, Hlow by done. unfold JsObject.get.
  destruct (mimeTypes !! lower_ascii ext) as [mime|] eqn:Hmime; cbn [default].
  - cbn [b_mimeType b_dataUrl mime_text]. by rewrite (mimeTypes_truthy _ _ Hmime).
  - by rewrite bool_decide_eq_false_2.
Qed.

Lemma viewImage_mime_by_extension_witness :
  tool_viewImage (api_readFileBase64 quiet_host (plain_reader (u "/9j/4AAQSkZJRg==")))
    (u "/home/user/Pictures/holiday.2024" ++ [46] ++ u "JPG")
  = ImageLoaded (u "/home/user/Pictures/holiday.2024" ++ [46] ++ u "JPG")
      (MimeString (u "image/jpeg"))
      (u "data:image/jpeg;base64,/9j/4AAQSkZJRg==")
      (u "Image loaded successfully. The image is now visible to you.").
Proof.
  apply (viewImage_mime_by_extension quiet_host (plain_reader (u "/9j/4AAQSkZJRg=="))
           (u "/home/user/Pictures/holiday.2024") (u "JPG") (u "/9j/4AAQSkZJRg==")).
  - intros s _. reflexivity.
  - reflexivity.
  - apply (bool_decide_unpack _). vm_compute. exact I.
  - apply (bool_decide_unpack _). vm_compute. exact I.
  - apply (bool_decide_unpack _). vm_compute. exact I.
Defined.

Lemma tenths_near (num den : Z) :
  (0 < den)%Z →
  (20 * num - den < 2 * den * tenths num den ≤ 20 * num + den)%Z.
Proof.
  intros Hden. unfold tenths.
  pose proof (Z.mul_div_le (20 * num + den) (2 * den) ltac:(lia)).
  pose proof (Z.mul_succ_div_gt (20 * num + den) (2 * den) ltac:(lia)).
  lia.
Qed.

Lemma tenths_least (num den : Z) :
  (0 < den)%Z → (den ≤ num)%Z → (10 ≤ tenths num den)%Z.
Proof.
  intros Hden Hnum. unfold tenths. apply Z.div_le_lower_bound; lia.
Qed.

(** X12. For a size of 1024 bytes or more and below 2^53 (where the
    arithmetic of the source is exact), formatFileSize prints a number
    with one decimal and the unit KB, MB or GB: the unit is the largest
    whose divisor (1024, 1024^2, 1024^3) the size reaches, the number
    printed is at least 1.0, and in tenths it differs from the size divided
    by the divisor by at most half a tenth. *)
Theorem formatFileSize_rounds (bytes : Z) :
  (1024 ≤ bytes < 2 ^ 53)%Z →
  ∃ den unit t,
    (den, unit) ∈ size_units
    ∧ formatFileSize bytes = show_Z (t / 10) ++ u "." ++ show_Z (t mod 10) ++ unit
    ∧ (den ≤ bytes)%Z
    ∧ ((bytes < 1024 * den)%Z ∨ unit = u " GB")
    ∧ (10 ≤ t)%Z
    ∧ (Z.abs (20 * bytes - 2 * den * t) ≤ den)%Z.
Proof.
  intros [Hbytes _]. unfold formatFileSize, toFixed1, size_units.
  destruct (Z.ltb_spec bytes 1024); [lia|].
  destruct (Z.ltb_spec bytes (1024 * 1024)); [|destruct (Z.ltb_spec bytes (1024 * 1024 * 1024))].
  - exists 1024%Z, (u " KB"), (tenths bytes 1024).
    pose proof (tenths_near bytes 1024 ltac:(lia)).
    pose proof (tenths_least bytes 1024 ltac:(lia) ltac:(lia)).
    split; [by left|]. split; [by rewrite <- !app_assoc|]. repeat split; lia.
  - exists (1024 * 1024)%Z, (u " MB"), (tenths bytes (1024 * 1024)).
    pose proof (tenths_near bytes (1024 * 1024) ltac:(lia)).
    pose proof (tenths_least bytes (1024 * 1024) ltac:(lia) ltac:(lia)).
    split; [right; by left|]. split; [by rewrite <- !app_assoc|]. repeat split; lia.
  - exists (1024 * 1024 * 1024)%Z, (u " GB"), (tenths bytes (1024 * 1024 * 1024)).
    pose proof (tenths_near bytes (1024 * 1024 * 1024) ltac:(lia)).
    pose proof (tenths_least bytes (1024 * 1024 * 1024) ltac:(lia) ltac:(lia)).
    split; [do 2 right; by left|]. split; [by rewrite <- !app_assoc|].
    split; [lia|]. split; [by right|]. split; lia.
Qed.

Lemma formatFileSize_rounds_witness :
  ∃ den unit t,
    (den, unit) ∈ size_units
    ∧ formatFileSize 1536 = show_Z (t / 10) ++ u "." ++ show_Z (t mod 10) ++ unit
    ∧ (den ≤ 1536)%Z
    ∧ ((1536 < 1024 * den)%Z ∨ unit = u " GB")
    ∧ (10 ≤ t)%Z
    ∧ (Z.abs (20 * 1536 - 2 * den * t) ≤ den)%Z.
Proof. apply (formatFileSize_rounds 1536). lia. Defined.

(** Sizes as they are printed; just below a threshold the number printed
    is 1024.0 in the smaller unit. *)
Example formatFileSize_examples :
  map formatFileSize [0; 1023; 1024; 1536; 1048575; 1048576; 1610612736]%Z
  = map u ["0 B"; "1023 B"; "1.0 KB"; "1.5 KB"; "1024.0 KB"; "1.0 MB"; "1.5 GB"].
Proof. vm_compute. reflexivity. Qed.

(** ** The todo store item by item *)

Section TodoItems.
Import TodoStore.

(** X13. updateTodo changes neither the ids of the list nor their order,
    leaves every item with another id as it is, and leaves the store as it
    is when no item has the id. *)
Theorem updateTodo_frame (key : ustring) (new_content : option ustring)
    (new_status : option TodoStatus) (state : TodoState) :
  map id (todos (updateTodo key new_content new_status state)) = map id (todos state)
  ∧ Forall2 (λ t t', id t ≠ key → t' = t)
            (todos state) (todos (updateTodo key new_content new_status state))
  ∧ (key ∉ map id (todos state) →
     updateTodo key new_content new_status state = state).
Proof.
  unfold updateTodo. cbn [todos]. split; [|split].
  - rewrite map_map. apply map_ext. intros t. by destruct (decide _).
  - apply Forall2_fmap_r, Forall_Forall2_diag, Forall_forall.
    intros t _. cbn. by destruct (decide _).
  - intros Hk. destruct state as [l]. cbn in *. f_equal.
    rewrite <- (List.map_id l) at 2. apply map_ext_in. intros t Ht.
    destruct (decide _) as [Heq|]; [|done].
    destruct Hk. apply list_elem_of_fmap. exists t. split; [done|].
    by apply list_elem_of_In.
Qed.

Lemma removeTodo_missing (key : ustring) (l : list Todo) :
  key ∉ map id l → filter (λ todo, id todo ≠ key) l = l.
Proof.
  induction l as [|t l IH]; intros Hk; [done|].
  cbn in Hk. apply not_elem_of_cons in Hk as [Hne Hk].
  rewrite filter_cons, decide_True by done. f_equal. by apply IH.
Qed.

(** X14. After removeTodo no item has the id; the items that remain are
    those with another id, in their order; the store is left as it is when
    no item has the id; and removing the id that addTodo just used gives
    back the store from before, when the id was not in use. *)
Theorem removeTodo_removes (key text : ustring) (state : TodoState) :
  (key ∉ map id (todos (removeTodo key state)))
  ∧ sublist (todos (removeTodo key state)) (todos state)
  ∧ (∀ t, t ∈ todos state → id t ≠ key → t ∈ todos (removeTodo key state))
  ∧ (key ∉ map id (todos state) →
     removeTodo key state = state
     ∧ removeTodo key (addTodo key text state) = state).
Proof.
  unfold removeTodo, addTodo. cbn [todos]. split; [|split; [|split]].
  - intros [t [Hid Ht]]%list_elem_of_fmap. apply list_elem_of_filter in Ht as [Hne _].
    by destruct Hne.
  - apply sublist_filter.
  - intros t Ht Hne. by apply list_elem_of_filter.
  - intros Hk. destruct state as [l]. cbn [todos] in *. split; f_equal.
    + by apply removeTodo_missing.
    + rewrite filter_app, removeTodo_missing by done.
      rewrite filter_cons, decide_False by (cbn; intros H; by apply H).
      by rewrite filter_nil, app_nil_r.
Qed.

End TodoItems.

(** ** The ids that todoWrite makes up *)

Lemma u_cons (c : Ascii.ascii) (s : string) : u (String c s) = Ascii.N_of_ascii c :: u s.
Proof. done. Qed.

Lemma u_inj (s t : string) : u s = u t → s = t.
Proof.
  revert t. induction s as [|c s IH]; intros [|d t]; try done.
  rewrite !u_cons. intros [= Hc Hs]. f_equal; [|by apply IH].
  rewrite <- (Ascii.ascii_N_embedding c), <- (Ascii.ascii_N_embedding d). by rewrite Hc.
Qed.

(** The digits of a number hold no hyphen. *)
Lemma pretty_N_go_no_dash (x : N) (s : string) :
  45 ∉ u s → 45 ∉ u (pretty_N_go x s).
Proof.
  revert s. induction (N.lt_wf_0 x) as [x _ IH]; intros s Hs.
  assert (x = 0 ∨ 0 < x)%N as [->|Hx] by lia; [by rewrite pretty_N_go_0|].
  rewrite pretty_N_go_step by done. apply IH; [by apply N.div_lt|].
  rewrite u_cons. apply not_elem_of_cons. split; [|done].
  unfold pretty_N_char. by repeat case_match.
Qed.

Lemma show_nat_no_dash (n : nat) : 45 ∉ show_nat n.
Proof.
  unfold show_nat, show_Z, pretty, pretty_Z.
  destruct (Z.of_nat n) as [|p|p] eqn:Hn; [|..|lia].
  - apply (bool_decide_unpack _). vm_compute. exact I.
  - unfold pretty, pretty_positive, pretty, pretty_N. rewrite decide_False by done.
    apply pretty_N_go_no_dash. apply not_elem_of_nil.
Qed.

Lemma show_nat_inj (i j : nat) : show_nat i = show_nat j → i = j.
Proof.
  unfold show_nat, show_Z. intros H%u_inj. apply (inj pretty) in H. lia.
Qed.

Section TodoIds.
Import TodoStore TodoWrite.

(** X15. When todoWrite is called with items none of which has an id (or
    has an empty one), the items it stores have ids that differ from one
    another, whatever the clock shows: the index of the item ends the id. *)
Theorem todoWrite_fresh_ids (clock : nat → Z) (inputs : list todo_input) :
  Forall (λ t, ti_id t = None ∨ ti_id t = Some []) inputs →
  NoDup (map id (mappedTodos clock inputs)).
Proof.
  intros Hno. unfold mappedTodos.
  assert (Hid : ∀ i x,
             map id (imap (λ i t, {| id := or_else (ti_id t)
                                          (u "todo-" ++ show_Z (clock i) ++ u "-" ++ show_nat i);
                                     content := ti_content t;
                                     status := ti_status t |}) inputs) !! i = Some x →
             x = (u "todo-" ++ show_Z (clock i)) ++ 45 :: show_nat i).
  { intros i x. change (map id ?l) with (id <$> l).
    rewrite list_lookup_fmap, list_lookup_imap.
    destruct (inputs !! i) as [t|] eqn:Ht; [|done]. cbn [fmap option_fmap option_map id].
    intros [= <-]. rewrite Forall_forall in Hno.
    destruct (Hno t) as [-> | ->]; [by eapply list_elem_of_lookup_2| |];
      unfold or_else; cbn [truthy]; by rewrite <- app_assoc. }
  apply NoDup_alt. intros i j x Hi%Hid Hj%Hid. rewrite Hi in Hj.
  apply sep_last_inj in Hj as [_ Hj]; [|apply show_nat_no_dash..].
  by apply show_nat_inj.
Qed.

Lemma todoWrite_fresh_ids_witness :
  NoDup (map id (mappedTodos (λ _, 1700000000000%Z)
                   [{| ti_id := None; ti_content := u "Scan the repo"; ti_status := completed |};
                    {| ti_id := Some []; ti_content := u "Write the report";
                       ti_status := pending |}])).
Proof.
  apply todoWrite_fresh_ids.
  constructor; [by left|]. constructor; [by right|]. constructor.
Defined.

End TodoIds.

(** ** The question store between asking and submitting *)

Section QuestionAnswers.
Import QuestionStore.

Lemma step_index_ok state o : index_ok state → index_ok (step state o).
Proof.
  unfold index_ok. destruct o as [now inputs|qid oid|qid ans| | | |]; cbn [step].
  - intros _. cbn. destruct inputs as [|q inputs]; [by left|right].
    rewrite length_imap. cbn. lia.
  - unfold selectOption.
    destruct (activeQuestionSet state) as [qs|] eqn:Hqs; cbn; [|by rewrite Hqs].
    intros [Hnil|Hin]; [left; by rewrite Hnil | right; by rewrite length_map].
  - unfold setCustomAnswer.
    destruct (activeQuestionSet state) as [qs|] eqn:Hqs; cbn; [|by rewrite Hqs].
    intros [Hnil|Hin]; [left; by rewrite Hnil | right; by rewrite length_map].
  - unfold nextQuestion.
    destruct (activeQuestionSet state) as [qs|] eqn:Hqs; cbn; [|by rewrite Hqs].
    intros [Hnil|Hin]; [by left | right; lia].
  - unfold prevQuestion.
    destruct (activeQuestionSet state) as [qs|] eqn:Hqs; cbn; [|by rewrite Hqs].
    intros [Hnil|Hin]; [by left | right; lia].
  - unfold submitAnswers.
    destruct (activeQuestionSet state) as [qs|] eqn:Hqs; cbn; [|by rewrite Hqs].
    done.
  - done.
Qed.

Lemma run_index_ok ops state : index_ok state → index_ok (run ops state).
Proof.
  revert state. induction ops as [|o ops IH]; intros state Hinv; [done|].
  cbn. apply IH. by apply step_index_ok.
Qed.

(** X16. In every state that a sequence of operations of the question
    store reaches from the initial store, the current index of an active
    set that has questions is the index of one of them: nextQuestion and
    prevQuestion stop at the two ends. *)
Theorem question_index_in_range (ops : list op) (qs : QuestionSet) :
  activeQuestionSet (run ops initial) = Some qs →
  questions qs ≠ [] →
  (0 ≤ currentIndex qs < Z.of_nat (length (questions qs)))%Z.
Proof.
  intros Hqs Hne. pose proof (run_index_ok ops initial I) as Hok.
  unfold index_ok in Hok. rewrite Hqs in Hok. by destruct Hok.
Qed.

Lemma question_index_in_range_witness :
  ∃ qs, activeQuestionSet
          (run [OpSetQuestions 1700000000000 [language_question; framework_question];
                OpNextQuestion; OpNextQuestion; OpNextQuestion; OpPrevQuestion;
                OpPrevQuestion; OpPrevQuestion; OpNextQuestion] initial) = Some qs
        ∧ (0 ≤ currentIndex qs < Z.of_nat (length (questions qs)))%Z.
Proof.
  eexists. split; [reflexivity|].
  apply (question_index_in_range
           [OpSetQuestions 1700000000000 [language_question; framework_question];
            OpNextQuestion; OpNextQuestion; OpNextQuestion; OpPrevQuestion;
            OpPrevQuestion; OpPrevQuestion; OpNextQuestion]);
    [reflexivity | discriminate].
Defined.

Lemma collect_from_lookup (qs : list Question) (m : Answers) (k : ustring) :
  own (foldl (λ answers q, assign answers (id q) (answer_of q)) m qs) !! k
  = if decide (k = u "__proto__") then own m !! k
    else match last (filter (λ q, id q = k) qs) with
         | Some q => Some (answer_of q)
         | None => own m !! k
         end.
Proof.
  revert m. induction qs as [|q qs IH]; intros m; [by destruct (decide _)|].
  cbn [foldl]. rewrite IH, filter_cons.
  destruct (decide (k = u "__proto__")) as [Hk|Hk].
  - unfold assign. destruct (decide (id q = u "__proto__")); cbn [own]; [done|].
    rewrite lookup_insert_ne; [done|congruence].
  - destruct (decide (id q = k)) as [Heq|Hne].
    + rewrite own_assign_other by congruence. cbn [own].
      destruct (filter _ qs) as [|q' l] eqn:Hf.
      * cbn [last]. by rewrite Heq, lookup_insert_eq.
      * change (last (q :: q' :: l)) with (last (q' :: l)).
        destruct (last (q' :: l)) eqn:Hlast; [done|]. by apply last_None in Hlast.
    + destruct (last _); [done|]. unfold assign.
      destruct (decide (id q = u "__proto__")); cbn [own]; [done|].
      by rewrite lookup_insert_ne.
Qed.

(** X17. When no question of the active set has the id __proto__, the
    record that submitAnswers returns has, under a key, the answer of the
    last question of the set that has the key as its id, and no property
    of its own under a key that is the id of none: of two questions with
    the same id only the later one is reported. *)
Theorem submitAnswers_last_wins (state : State) (k : ustring) :
  u "__proto__" ∉ map id (active_questions state) →
  own (fst (submitAnswers state)) !! k
  = answer_of <$> last (filter (λ q, id q = k) (active_questions state)).
Proof.
  intros Hproto. unfold submitAnswers, active_questions in *.
  destruct (activeQuestionSet state) as [qs|]; cbn [fst]; [|done].
  unfold collect. rewrite collect_from_lookup. cbn [own no_answers].
  rewrite lookup_empty. destruct (decide (k = u "__proto__")) as [->|Hk].
  - destruct (last _) as [q|] eqn:Hlast; [|done].
    apply last_Some_elem_of, list_elem_of_filter in Hlast as [Hq Hin].
    destruct Hproto. apply list_elem_of_fmap. by exists q.
  - by destruct (last _).
Qed.

Lemma submitAnswers_last_wins_witness :
  own (fst (submitAnswers answered)) !! u "lang"
  = answer_of <$> last (filter (λ q, id q = u "lang") (active_questions answered)).
Proof.
  apply submitAnswers_last_wins. apply (bool_decide_unpack _). vm_compute. exact I.
Defined.

Lemma collect_from_frame (qs : list Question) (m : Answers) (k : ustring) :
  k ∉ map id qs →
  own (foldl (λ answers q, assign answers (id q) (answer_of q)) m qs) !! k = own m !! k.
Proof.
  revert m. induction qs as [|q qs IH]; intros m Hk; [done|].
  cbn in Hk. apply not_elem_of_cons in Hk as [Hne Hk].
  cbn [foldl]. rewrite IH by done. unfold assign.
  destruct (decide (id q = u "__proto__")); cbn [own]; [done|].
  by rewrite lookup_insert_ne.
Qed.

Lemma collect_NoDup (qs : list Question) (m : Answers) (q : Question) :
  NoDup (map id qs) → q ∈ qs → id q ≠ u "__proto__" →
  own (foldl (λ answers q, assign answers (id q) (answer_of q)) m qs) !! id q
  = Some (answer_of q).
Proof.
  revert m. induction qs as [|q0 qs IH]; intros m Hnd Hin Hq;
    [by apply elem_of_nil in Hin|].
  cbn in Hnd. apply NoDup_cons in Hnd as [Hnotin Hnd]. cbn [foldl].
  apply elem_of_cons in Hin as [->|Hin]; [|by apply IH].
  rewrite collect_from_frame by done.
  rewrite own_assign_other by done. cbn [own]. by rewrite lookup_insert_eq.
Qed.

Lemma selectOption_ids questionId optionId state :
  map id (active_questions (selectOption questionId optionId state))
  = map id (active_questions state).
Proof.
  rewrite selectOption_active, map_map. apply map_ext. intros q.
  by destruct (decide _).
Qed.

Lemma setCustomAnswer_ids questionId answer state :
  map id (active_questions (setCustomAnswer questionId answer state))
  = map id (active_questions state).
Proof.
  rewrite setCustomAnswer_active, map_map. apply map_ext. intros q.
  by destruct (decide _).
Qed.

Lemma submitAnswers_collect state :
  fst (submitAnswers state) = collect (active_questions state).
Proof. unfold submitAnswers, active_questions. by destruct (activeQuestionSet state). Qed.

(** X18. When the ids of the questions differ from one another and none
    is __proto__,
    selecting an option of a question and submitting reports, under the id
    of the question, the label of the first option that has the selected id
    (nothing when the id is empty or no option has it) and no custom
    answer; writing a custom answer and submitting reports the answer and
    no selected option. *)
Theorem answer_then_submit (state : State) (q : Question) (optionId answer : ustring) :
  u "__proto__" ∉ map id (active_questions state) →
  NoDup (map id (active_questions state)) →
  q ∈ active_questions state →
  own (fst (submitAnswers (selectOption (id q) optionId state))) !! id q
  = Some {| selectedOption :=
              if truthy optionId
              then o_label <$> List.find (λ o, bool_decide (o_id o = optionId)) (options q)
              else None;
            answer_customAnswer := None |}
  ∧ own (fst (submitAnswers (setCustomAnswer (id q) answer state))) !! id q
    = Some {| selectedOption := None; answer_customAnswer := Some answer |}.
Proof.
  intros Hproto Hnd Hin. rewrite !submitAnswers_collect. unfold collect.
  assert (Hq : id q ≠ u "__proto__").
  { intros Heq. apply Hproto. rewrite <- Heq. apply list_elem_of_fmap. by exists q. }
  split.
  - apply (collect_NoDup _ no_answers (with_selection q optionId));
      [by rewrite selectOption_ids| |done].
    rewrite selectOption_active. apply list_elem_of_fmap. exists q.
    by rewrite decide_True.
  - apply (collect_NoDup _ no_answers (with_custom q answer));
      [by rewrite setCustomAnswer_ids| |done].
    rewrite setCustomAnswer_active. apply list_elem_of_fmap. exists q.
    by rewrite decide_True.
Qed.

Lemma answer_then_submit_witness :
  own (fst (submitAnswers (selectOption (u "lang") (u "py") asked))) !! u "lang"
  = Some {| selectedOption := Some (u "Python"); answer_customAnswer := None |}
  ∧ own (fst (submitAnswers (setCustomAnswer (u "lang") (u "Rust") asked))) !! u "lang"
    = Some {| selectedOption := None; answer_customAnswer := Some (u "Rust") |}.
Proof.
  apply (answer_then_submit asked language_stored (u "py") (u "Rust")).
  - apply (bool_decide_unpack _). vm_compute. exact I.
  - apply (bool_decide_unpack _). vm_compute. exact I.
  - left.
Defined.

Lemma with_questions_same qs : with_questions qs (questions qs) = qs.
Proof. by destruct qs. Qed.

(** X19. selectOption and setCustomAnswer with the id of no question of
    the active set leave the store as it is. *)
Theorem answer_unknown_question (state : State) (questionId optionId answer : ustring) :
  questionId ∉ map id (active_questions state) →
  selectOption questionId optionId state = state
  ∧ setCustomAnswer questionId answer state = state.
Proof.
  unfold selectOption, setCustomAnswer, active_questions.
  destruct state as [[qs|]]; cbn; [|done]. intros Hk.
  assert (Hsame : ∀ f : Question → Question,
             map (λ q, if decide (id q = questionId) then f q else q) (questions qs)
             = questions qs).
  { intros f. rewrite <- (List.map_id (questions qs)) at 2. apply map_ext_in.
    intros q Hq. destruct (decide _) as [Heq|]; [|done].
    destruct Hk. apply list_elem_of_fmap. exists q. split; [done|].
    by apply list_elem_of_In. }
  split; do 2 f_equal.
  - rewrite (Hsame (λ q, with_selection q optionId)). apply with_questions_same.
  - rewrite (Hsame (λ q, with_custom q answer)). apply with_questions_same.
Qed.

Lemma answer_unknown_question_witness :
  selectOption (u "database") (u "postgres") asked = asked
  ∧ setCustomAnswer (u "database") (u "SQLite") asked = asked.
Proof.
  apply answer_unknown_question. apply (bool_decide_unpack _). vm_compute. exact I.
Defined.

(** X20. An empty custom answer, like an empty option id, does not count
    as an answer: after either is set on a question of an active set that
    was not submitted, hasUnansweredQuestions holds. *)
Theorem empty_answer_unanswered (state : State) (qs : QuestionSet) (q : Question) :
  activeQuestionSet state = Some qs →
  submitted qs = false →
  q ∈ questions qs →
  hasUnansweredQuestions (setCustomAnswer (id q) [] state) = true
  ∧ hasUnansweredQuestions (selectOption (id q) [] state) = true.
Proof.
  intros Hqs Hsub Hin. unfold hasUnansweredQuestions, setCustomAnswer, selectOption.
  rewrite Hqs. cbn. rewrite Hsub. split; apply existsb_exists.
  - exists (with_custom q []). split; [|done].
    apply list_elem_of_In, list_elem_of_fmap. exists q. by rewrite decide_True.
  - exists (with_selection q []). split; [|done].
    apply list_elem_of_In, list_elem_of_fmap. exists q. by rewrite decide_True.
Qed.

Lemma empty_answer_unanswered_witness :
  hasUnansweredQuestions answered = false
  ∧ hasUnansweredQuestions (setCustomAnswer (u "framework") [] answered) = true
  ∧ hasUnansweredQuestions (selectOption (u "framework") [] answered) = true.
Proof.
  split; [reflexivity|].
  eapply (empty_answer_unanswered answered _
            {| id := u "framework"; question := u "Which framework?";
               options := [{| o_id := u "react"; o_label := u "React" |};
                           {| o_id := u "vue"; o_label := u "Vue" |}];
               allowCustom := true; selectedOptionId := None;
               customAnswer := Some (u "Svelte") |}).
  - reflexivity.
  - reflexivity.
  - right. left.
Defined.

Lemma imap_questions_kept (g : nat → ustring) (inputs : list question_input) :
  Forall2 (λ input q, (∀ s, qi_id input = Some s → s ≠ [] → id q = s)
                      ∧ question q = qi_question input
                      ∧ options q = qi_options input
                      ∧ unanswered q)
          inputs
          (imap (λ i q, {| id := or_else (qi_id q) (g i);
                           question := qi_question q;
                           options := qi_options q;
                           allowCustom := qi_allowCustom q;
                           selectedOptionId := None;
                           customAnswer := None |}) inputs).
Proof.
  revert g. induction inputs as [|input inputs IH]; intros g; cbn [imap]; constructor.
  - cbn. split; [|done]. intros s -> Hs. by destruct s.
  - apply (IH (g ∘ S)).
Qed.

(** X21. After the tool askQuestion ran on parameters that its schema
    admits, the store holds an active set with the id and the number of
    questions that the tool returned, at index 0 and not submitted; its
    questions are those of the call, in order, each with its text and its
    options, with the id that was given when that is not empty, and without
    an answer; and hasUnansweredQuestions holds. *)
Theorem askQuestion_waits (now : Z) (inputs : list question_input) (state : State) :
  AskQuestion.admitted inputs →
  ∃ qs, activeQuestionSet (snd (AskQuestion.execute now inputs state)) = Some qs
        ∧ set_id qs = AskQuestion.questionSetId (fst (AskQuestion.execute now inputs state))
        ∧ length (questions qs)
          = AskQuestion.questionCount (fst (AskQuestion.execute now inputs state))
        ∧ currentIndex qs = 0%Z
        ∧ submitted qs = false
        ∧ hasUnansweredQuestions (snd (AskQuestion.execute now inputs state)) = true
        ∧ Forall2 (λ input q, (∀ s, qi_id input = Some s → s ≠ [] → id q = s)
                              ∧ question q = qi_question input
                              ∧ options q = qi_options input
                              ∧ unanswered q)
                  inputs (questions qs).
Proof.
  intros [[Hlen _] _]. unfold AskQuestion.execute, setQuestions. cbn.
  eexists. split; [reflexivity|]. cbn. rewrite length_imap.
  repeat (split; [done|]). split; [|apply imap_questions_kept].
  destruct inputs as [|input inputs]; [cbn in Hlen; lia|done].
Qed.

Lemma askQuestion_waits_witness :
  ∃ qs, activeQuestionSet
          (snd (AskQuestion.execute 1700000000000 [language_question; framework_question]
                  initial)) = Some qs
        ∧ set_id qs = u "qs-1700000000000"
        ∧ length (questions qs) = 2%nat
        ∧ currentIndex qs = 0%Z
        ∧ submitted qs = false
        ∧ hasUnansweredQuestions
            (snd (AskQuestion.execute 1700000000000 [language_question; framework_question]
                    initial)) = true
        ∧ Forall2 (λ input q, (∀ s, qi_id input = Some s → s ≠ [] → id q = s)
                              ∧ question q = qi_question input
                              ∧ options q = qi_options input
                              ∧ unanswered q)
                  [language_question; framework_question] (questions qs).
Proof.
  apply (askQuestion_waits 1700000000000 [language_question; framework_question] initial).
  split; [cbn; lia|].
  constructor; [split; [by eexists | cbn; lia]|].
  constructor; [split; [by eexists | cbn; lia]|]. constructor.
Defined.

End QuestionAnswers.

(** ** The permissions *)

Section PermissionProps.
Import Permissions.

Lemma map_has_set (key key' : ustring) (m : list (ustring * bool)) :
  map_has key' (map_set key true m) = bool_decide (key = key') || map_has key' m.
Proof.
  unfold map_has. induction m as [|[k v] m IH]; cbn.
  - by rewrite orb_false_r.
  - destruct (bool_decide_reflect (k = key)) as [->|Hk]; cbn.
    + by destruct (bool_decide (key = key')).
    + rewrite IH. by destruct (bool_decide (k = key')), (bool_decide (key = key')).
Qed.

Lemma map_has_delete (key key' : ustring) (m : list (ustring * bool)) :
  map_has key' (map_delete key m) = negb (bool_decide (key = key')) && map_has key' m.
Proof.
  unfold map_has, map_delete. induction m as [|[k v] m IH].
  - cbn. by rewrite andb_false_r.
  - rewrite filter_cons. cbn [fst].
    destruct (decide (k ≠ key)) as [Hne|Heq%dec_stable]; cbn [existsb fst].
    + rewrite IH. destruct (bool_decide_reflect (k = key')) as [->|]; cbn; [|done].
      by rewrite bool_decide_eq_false_2.
    + subst k. rewrite IH. by destruct (bool_decide (key = key')).
Qed.

Lemma map_set_has (key : ustring) (m : list (ustring * bool)) :
  (key, true) ∈ map_set key true m.
Proof.
  induction m as [|[k v] m IH]; cbn; [by left|].
  destruct (bool_decide (k = key)); [by left|by right].
Qed.

Lemma findUnique_is_row (path operation : ustring) (rows : list Permission)
    (row : Permission) :
  findUnique path operation rows = Some row →
  Permissions.path row = path ∧ Permissions.operation row = operation.
Proof.
  intros [_ H]%find_some. unfold is_row in H. by apply bool_decide_eq_true in H.
Qed.

Lemma is_row_other (path operation path' operation' : ustring) (row : Permission) :
  (path, operation) ≠ (path', operation') →
  is_row path operation row = true → is_row path' operation' row = false.
Proof.
  unfold is_row. intros Hne [<- <-]%bool_decide_eq_true.
  apply bool_decide_eq_false. intros [<- <-]. by destruct Hne.
Qed.

Lemma findUnique_upsert_same (fresh : ustring) (now : Z) (path operation scope : ustring)
    (rows : list Permission) :
  findUnique path operation (snd (upsert fresh now path operation scope rows))
  = Some (fst (upsert fresh now path operation scope rows)).
Proof.
  unfold upsert. destruct (findUnique path operation rows) as [row|] eqn:Hfind; cbn [fst snd].
  - destruct (findUnique_is_row _ _ _ _ Hfind) as [Hp Ho].
    unfold findUnique in *. induction rows as [|r rows IH]; [done|].
    cbn in *. destruct (is_row path operation r) eqn:Hr.
    + cbn. unfold is_row at 1. cbn. by rewrite bool_decide_eq_true_2.
    + rewrite Hr. by apply IH.
  - unfold findUnique in *. induction rows as [|r rows IH]; cbn in *.
    + unfold is_row. cbn. by rewrite bool_decide_eq_true_2.
    + destruct (is_row path operation r); [done|]. by apply IH.
Qed.

Lemma upsert_row (fresh : ustring) (now : Z) (path operation scope : ustring)
    (rows : list Permission) :
  let row := fst (upsert fresh now path operation scope rows) in
  Permissions.path row = path ∧ Permissions.operation row = operation
  ∧ Permissions.scope row = scope.
Proof.
  unfold upsert. destruct (findUnique path operation rows) as [row|] eqn:Hfind; cbn; [|done].
  by destruct (findUnique_is_row _ _ _ _ Hfind) as [-> ->].
Qed.

Lemma findUnique_upsert_other (fresh : ustring) (now : Z)
    (path operation scope path' operation' : ustring) (rows : list Permission) :
  (path, operation) ≠ (path', operation') →
  findUnique path' operation' (snd (upsert fresh now path operation scope rows))
  = findUnique path' operation' rows.
Proof.
  intros Hne. unfold upsert.
  destruct (findUnique path operation rows) as [row|] eqn:Hfind; cbn [fst snd].
  - destruct (findUnique_is_row _ _ _ _ Hfind) as [Hp Ho]. clear Hfind.
    unfold findUnique. induction rows as [|r rows IH]; [done|]. cbn.
    destruct (is_row path operation r) eqn:Hr.
    + rewrite (is_row_other _ _ _ _ r Hne Hr).
      assert (is_row path' operation'
                {| id := id row; path := Permissions.path row;
                   operation := Permissions.operation row; scope := scope;
                   createdAt := createdAt row |} = false) as ->; [|done].
      apply bool_decide_eq_false. cbn. rewrite Hp, Ho. intros [<- <-]. by destruct Hne.
    + by rewrite IH.
  - clear Hfind. unfold findUnique. induction rows as [|r rows IH]; cbn.
    + assert (is_row path' operation'
                {| id := fresh; path := path; operation := operation; scope := scope;
                   createdAt := now |} = false) as ->; [|done].
      apply bool_decide_eq_false. cbn. intros [<- <-]. by destruct Hne.
    + by rewrite IH.
Qed.

Lemma findUnique_delete_same (path operation : ustring) (rows : list Permission) :
  findUnique path operation (delete_row path operation rows) = None.
Proof.
  unfold findUnique, delete_row. induction rows as [|r rows IH]; [done|].
  rewrite filter_cons. destruct (decide _) as [Hr|Hr]; [|done].
  cbn. by rewrite Hr.
Qed.

Lemma findUnique_delete_other (path operation path' operation' : ustring)
    (rows : list Permission) :
  (path, operation) ≠ (path', operation') →
  findUnique path' operation' (delete_row path operation rows)
  = findUnique path' operation' rows.
Proof.
  intros Hne. unfold findUnique, delete_row. induction rows as [|r rows IH]; [done|].
  rewrite filter_cons. destruct (decide _) as [Hr|Hr%not_false_is_true].
  - cbn. by rewrite IH.
  - cbn. by rewrite (is_row_other _ _ _ _ r Hne Hr).
Qed.

(** X22. A check of a path and an operation right after permissions:grant
    for them never answers null: it answers with the session permission
    when the grant was for the session or a session permission of the key
    was there before, and otherwise with the row that the grant returned,
    which carries the path, the operation and the scope of the grant. After
    permissions:revoke the check answers null, whether the permission was
    for the session or persisted. permissions:clearSession forgets a grant
    for the session but not a persisted one: after it the check answers as
    if the session grant had not been made, and with the row of a grant of
    another scope. *)
Theorem check_after_grant_and_revoke (fresh : ustring) (now : Z)
    (path operation scope : ustring) (state : State) :
  match check path operation (snd (grant fresh now path operation scope state)) with
  | CheckedSession p o =>
      p = path ∧ o = operation
      ∧ (scope = u "session"
         ∨ map_has (permissionKey path operation) (sessionPermissions state) = true)
  | CheckedRow row =>
      row = fst (grant fresh now path operation scope state)
      ∧ Permissions.path row = path ∧ Permissions.operation row = operation
      ∧ Permissions.scope row = scope ∧ scope ≠ u "session"
  | CheckedNull => False
  end
  ∧ check path operation (revoke path operation state) = CheckedNull
  ∧ check path operation
      (clearSession (snd (grant fresh now path operation (u "session") state)))
    = check path operation (clearSession state)
  ∧ (scope ≠ u "session" →
     check path operation (clearSession (snd (grant fresh now path operation scope state)))
     = CheckedRow (fst (grant fresh now path operation scope state))).
Proof.
  pose proof (findUnique_upsert_same fresh now path operation scope (table state)) as Hfind.
  pose proof (upsert_row fresh now path operation scope (table state)) as Hrow.
  split; [|split; [|split]].
  - unfold grant, check.
    destruct (bool_decide_reflect (scope = u "session")) as [Hs|Hs];
      cbn [snd fst sessionPermissions table].
    + rewrite map_has_set, bool_decide_eq_true_2 by done. cbn. auto.
    + destruct (upsert fresh now path operation scope (table state)) as [row rows].
      cbn [fst snd sessionPermissions table] in *.
      destruct (map_has _ _); [auto|]. rewrite Hfind. by destruct Hrow as (? & ? & ?).
  - unfold check, revoke. cbn [sessionPermissions table].
    rewrite map_has_delete, bool_decide_eq_true_2 by done. cbn.
    by rewrite findUnique_delete_same.
  - unfold check, clearSession, grant. by rewrite bool_decide_eq_true_2.
  - intros Hs. unfold check, clearSession, grant. rewrite bool_decide_eq_false_2 by done.
    destruct (upsert fresh now path operation scope (table state)) as [row rows].
    cbn [fst snd sessionPermissions table map_has existsb] in *. by rewrite Hfind.
Qed.

Lemma permissionKey_inj (path operation path' operation' : ustring) :
  58 ∉ operation → 58 ∉ operation' →
  permissionKey path operation = permissionKey path' operation' →
  path = path' ∧ operation = operation'.
Proof. unfold permissionKey. change (u ":") with [58]. cbn [app]. apply sep_last_inj. Qed.

(** X24. When the names of the operations hold no colon, granting or
    revoking the permission of one pair of a path and an operation does not
    change what a check of another pair answers. *)
Theorem check_other_pair (fresh : ustring) (now : Z)
    (path operation scope path' operation' : ustring) (state : State) :
  58 ∉ operation → 58 ∉ operation' →
  (path, operation) ≠ (path', operation') →
  check path' operation' (snd (grant fresh now path operation scope state))
    = check path' operation' state
  ∧ check path' operation' (revoke path operation state) = check path' operation' state.
Proof.
  intros Ho Ho' Hne.
  assert (Hkey : bool_decide (permissionKey path operation = permissionKey path' operation')
                 = false).
  { apply bool_decide_eq_false. intros [-> ->]%permissionKey_inj; done. }
  unfold check, grant, revoke. split.
  - destruct (bool_decide (scope = u "session")); cbn [snd sessionPermissions table].
    + by rewrite map_has_set, Hkey.
    + pose proof (findUnique_upsert_other fresh now path operation scope path' operation'
                    (table state) Hne) as Hfind.
      destruct (upsert fresh now path operation scope (table state)) as [row rows].
      cbn [snd sessionPermissions table] in *. by rewrite Hfind.
  - cbn [sessionPermissions table].
    by rewrite map_has_delete, Hkey, findUnique_delete_other.
Qed.

Lemma check_other_pair_witness :
  check (u "/home/user/notes") (u "write")
    (snd (grant (u "perm-1") 1700000000000 (u "/home/user/notes") (u "read")
            (u "session") initial))
  = check (u "/home/user/notes") (u "write") initial
  ∧ check (u "/home/user/notes") (u "write")
      (revoke (u "/home/user/notes") (u "read") initial)
    = check (u "/home/user/notes") (u "write") initial.
Proof.
  apply check_other_pair.
  - apply (bool_decide_unpack _). vm_compute. exact I.
  - apply (bool_decide_unpack _). vm_compute. exact I.
  - apply (bool_decide_unpack _). vm_compute. exact I.
Defined.

(** X25. The key of the session permissions joins the path and the
    operation with a colon and so does not tell the pairs apart: a grant
    for the session of the path p:a and the operation b makes the check of
    the path p and the operation a:b answer with a session permission,
    whatever the state was. *)
Theorem session_grant_leaks (fresh : ustring) (now : Z) (path a b : ustring) (state : State) :
  check path (a ++ u ":" ++ b)
    (snd (grant fresh now (path ++ u ":" ++ a) b (u "session") state))
  = CheckedSession path (a ++ u ":" ++ b).
Proof.
  unfold check, grant. rewrite bool_decide_eq_true_2 by done.
  cbn [snd sessionPermissions]. rewrite map_has_set.
  assert (permissionKey (path ++ u ":" ++ a) b = permissionKey path (a ++ u ":" ++ b)) as ->.
  { unfold permissionKey. by rewrite <- !app_assoc. }
  by rewrite bool_decide_eq_true_2.
Qed.

(** X26. After a grant for the session, permissions:list holds an entry
    whose id is the key and whose path and operation are the first two
    pieces of the key cut at its colons. They are the path and the
    operation of the grant when neither holds a colon; when the path holds
    one (as a path with a drive letter does), the path listed is not the
    path of the grant. *)
Theorem list_session_pieces (fresh : ustring) (now : Z) (clock : nat → Z)
    (path operation : ustring) (state : State) :
  let key := permissionKey path operation in
  let pieces := js_split 58 key in
  (∃ listed_at,
     ListedSession key (pieces !! 0%nat) (pieces !! 1%nat) listed_at
       ∈ list_permissions clock (snd (grant fresh now path operation (u "session") state)))
  ∧ (58 ∉ path → 58 ∉ operation →
     pieces !! 0%nat = Some path ∧ pieces !! 1%nat = Some operation)
  ∧ (58 ∈ path → pieces !! 0%nat ≠ Some path).
Proof.
  cbn zeta. split; [|split].
  - unfold list_permissions, grant. rewrite bool_decide_eq_true_2 by done.
    cbn [snd sessionPermissions table].
    destruct (list_elem_of_lookup_1 _ _
                (map_set_has (permissionKey path operation) (sessionPermissions state)))
      as [i Hi].
    exists (clock i). apply elem_of_app. right.
    apply elem_of_lookup_imap. by exists i, (permissionKey path operation, true).
  - intros Hp Ho. unfold permissionKey. change (u ":") with [58]. cbn [app].
    rewrite (js_split_head 58 path operation Hp). by rewrite js_split_no_sep.
  - intros Hp. unfold permissionKey. change (u ":") with [58]. cbn [app].
    destruct (js_split_first 58 (path ++ 58 :: operation)) as (p & pieces & -> & Hno).
    cbn. by intros [= ->].
Qed.

End PermissionProps.

(** A grant for a path on a drive is listed under the letter of the
    drive. *)
Example list_drive_path :
  Permissions.list_permissions (λ _, 1700000000001%Z)
    (snd (Permissions.grant (u "perm-1") 1700000000000 (u "C:\Users\ada") (u "read")
            (u "session") Permissions.initial))
  = [Permissions.ListedSession (u "C:\Users\ada:read") (Some (u "C")) (Some (u "\Users\ada"))
       1700000000001].
Proof. vm_compute. reflexivity. Qed.

(** ** The attachment store *)

Section AttachmentProps.
Import AttachmentStore.

Lemma prototype_names_no_colon : Forall (λ name, 58 ∉ name) JsObject.prototype_names.
Proof.
  apply Forall_forall. intros name Hname.
  apply (bool_decide_unpack _). revert name Hname. apply Forall_forall.
  apply (bool_decide_unpack _). vm_compute. exact I.
Qed.

(** A key made by hashKey names no member of Object.prototype. *)
Lemma hashKey_not_inherited (conversationId content : ustring) :
  hashKey conversationId content ∉ JsObject.prototype_names.
Proof.
  intros Hin. pose proof prototype_names_no_colon as Hall.
  rewrite Forall_forall in Hall. apply (Hall _ Hin).
  unfold hashKey. apply elem_of_app. right. by left.
Qed.

(** X27. Under the key that hashKey makes for a message, getAttachments
    returns the list that storeAttachments stored last, also when it is
    empty, and the empty list in the initial store and after clear; a store
    under a key does not change what is returned under another; and as the
    key holds the first 50 code units of the content only, a store for a
    message of the same conversation that starts with the same 50 code
    units replaces what was stored for the first. *)
Theorem attachments_roundtrip (conversationId content content' : ustring)
    (stored later : list Attachment) (state : State) :
  let key := hashKey conversationId content in
  getAttachments key (storeAttachments key stored state) = GotAttachments stored
  ∧ (∀ key', key' ≠ key →
       getAttachments key' (storeAttachments key stored state) = getAttachments key' state)
  ∧ getAttachments key (clear state) = GotAttachments []
  ∧ getAttachments key initial = GotAttachments []
  ∧ (take 50 content = take 50 content' →
     getAttachments key
       (storeAttachments (hashKey conversationId content') later
          (storeAttachments key stored state))
     = GotAttachments later).
Proof.
  cbn zeta. unfold getAttachments, storeAttachments, clear, initial, JsObject.get.
  cbn [attachments]. split; [|split; [|split; [|split]]].
  - by rewrite lookup_insert_eq.
  - intros key' Hne. by rewrite lookup_insert_ne.
  - rewrite lookup_empty, bool_decide_eq_false_2; [done|apply hashKey_not_inherited].
  - rewrite lookup_empty, bool_decide_eq_false_2; [done|apply hashKey_not_inherited].
  - intros Htake. unfold hashKey. rewrite Htake. by rewrite lookup_insert_eq.
Qed.

(** X28. For conversation ids that hold no colon, two messages get the
    same key exactly when they belong to the same conversation and their
    contents agree on the first 50 code units. *)
Theorem hashKey_same_key (conversationId conversationId' content content' : ustring) :
  58 ∉ conversationId → 58 ∉ conversationId' →
  hashKey conversationId content = hashKey conversationId' content'
  ↔ conversationId = conversationId' ∧ take 50 content = take 50 content'.
Proof.
  intros Hc Hc'. unfold hashKey. change (u ":") with [58]. cbn [app]. split.
  - by apply sep_first_inj.
  - by intros [-> ->].
Qed.

Lemma hashKey_same_key_witness :
  hashKey (u "clx3k2j9d0001") (u "Please look at the screenshot that I attached to this message")
  = hashKey (u "clx3k2j9d0001") (u "Please look at the screenshot that I attached to this email")
  ↔ u "clx3k2j9d0001" = u "clx3k2j9d0001"
    ∧ take 50 (u "Please look at the screenshot that I attached to this message")
      = take 50 (u "Please look at the screenshot that I attached to this email").
Proof.
  apply hashKey_same_key.
  - apply (bool_decide_unpack _). vm_compute. exact I.
  - apply (bool_decide_unpack _). vm_compute. exact I.
Defined.

(** The two messages of the witness do share their key. *)
Example hashKey_collision :
  AttachmentStore.hashKey (u "clx3k2j9d0001")
    (u "Please look at the screenshot that I attached to this message")
  = AttachmentStore.hashKey (u "clx3k2j9d0001")
      (u "Please look at the screenshot that I attached to this email").
Proof. vm_compute. reflexivity. Qed.

End AttachmentProps.

(** ** The browser tools when the browser is there, and when it is not *)

Section BrowserResults.
Import BrowserStore BrowserTools.

(** X29. No browser tool throws: whatever the settings and the browser
    automation collaborator do, also when they reject, each of the eight
    tools of the session and browserClose returns a result, in which
    exactly one of the flags error and success is set and which carries a
    message when error is set; and no tool takes back the request to show
    the selection dialog. *)
Theorem browser_tool_never_throws (a : api) (c : tool_call) (w : world) :
  (∃ r w', execute a c w = (Returned r, w')
           ∧ error r = negb (success r)
           ∧ (error r = true → is_Some (message r))
           ∧ (showSelectionDialog (store w) = true
              → showSelectionDialog (store w') = true))
  ∧ (∃ r, browserClose a w
          = (Returned r, {| store := store w; trace := trace w ++ [EvBrowser Close] |})
          ∧ error r = negb (success r)
          ∧ (error r = true → is_Some (message r))).
Proof.
  split.
  - destruct c; cbn [execute];
      unfold browserNavigate, browserClick, browserType, browserPress, browserScroll,
             browserGetContent, browserGetLinks, browserScreenshot, checkBrowserConfigured;
      unfold_eff; unfold emit, modify; cbn;
      repeat match goal with
        | |- context [getSettings a] => destruct (getSettings a) as [?|?]; cbn
        | |- context [negb (is_configured ?s)] => destruct (is_configured s); cbn
        | |- context [browser a ?call] => destruct (browser a call) as [?|?]; cbn
        | |- context [r_error ?r] => destruct (r_error r); cbn
        end;
      eexists _, _; (split; [reflexivity|]); cbn; (split; [done|]); (split; [|done]);
      first [done | intros _; by eexists].
  - unfold browserClose. unfold_eff. cbn.
    destruct (browser a Close) as [resp|m]; cbn; [destruct (r_error resp)|];
      eexists; (split; [reflexivity|]); cbn; (split; [done|]);
      first [done | intros _; by eexists].
Qed.

(** X30. When a preferred browser is configured, browserNavigate reads
    the settings, dispatches the navigation to the collaborator once and
    raises no request for the selection dialog: the store is left as it is.
    Its result is not marked needsBrowserSetup, and it reports success
    exactly when the collaborator answered without an error. *)
Theorem browserNavigate_configured (a : api) (target : ustring) (w : world)
    (settings : option Settings) :
  getSettings a = Returned settings →
  is_configured settings = true →
  ∃ r, browserNavigate a target w
       = (Returned r, {| store := store w;
                         trace := trace w ++ [EvGetSettings; EvBrowser (Navigate target)] |})
       ∧ needsBrowserSetup r = false
       ∧ (success r = true
          ↔ ∃ response, browser a (Navigate target) = Returned response
                        ∧ r_error response = false).
Proof.
  intros Hget Hconf. unfold browserNavigate, checkBrowserConfigured. unfold_eff. cbn.
  rewrite Hget. cbn. rewrite Hconf. cbn. rewrite <- app_assoc. cbn [app].
  destruct (browser a (Navigate target)) as [resp|m]; cbn.
  - destruct (r_error resp) eqn:Herr; cbn; eexists; (split; [reflexivity|]); cbn;
      (split; [done|]); split; try done.
    + intros (resp' & [= <-] & Hno). congruence.
    + intros _. by exists resp.
  - eexists; (split; [reflexivity|]); cbn. split; [done|]. split; [done|].
    by intros (resp' & [=] & _).
Qed.

Lemma browserNavigate_configured_witness :
  ∃ r, browserNavigate chrome_ready (u "https://github.com") start
       = (Returned r,
          {| store := store start;
             trace := trace start
                      ++ [EvGetSettings; EvBrowser (Navigate (u "https://github.com"))] |})
       ∧ needsBrowserSetup r = false
       ∧ (success r = true
          ↔ ∃ response, browser chrome_ready (Navigate (u "https://github.com"))
                        = Returned response
                        ∧ r_error response = false).
Proof.
  apply (browserNavigate_configured chrome_ready (u "https://github.com") start
           (Some {| preferredBrowser := Some (u "chrome") |})); reflexivity.
Defined.

End BrowserResults.

(** ** The client of the database *)

Section DatabaseProps.
Import Database.

(** X23. getDatabase throws "Database not initialized. Call initDatabase
    first." while the module holds no client, at the start and after
    closeDatabase returned. When initDatabase returns a client, getDatabase
    returns the same one and a further initDatabase returns it without
    copying or connecting again. When initDatabase throws, either the copy
    of the template failed and no client is held, or the connection failed
    and the client that could not connect stays in the module: getDatabase
    then returns it, and a further initDatabase returns it without trying
    to connect. When closeDatabase throws, the client is kept. *)
Theorem database_lifecycle (env : environment) (state : State) :
  getDatabase initial = Thrown (u "Database not initialized. Call initDatabase first.")
  ∧ (let '(r, state', events) := initDatabase env state in
     match r with
     | Returned client =>
         getDatabase state' = Returned client
         ∧ initDatabase env state' = (Returned client, state', [])
     | Thrown message =>
         (state' = state ∧ prisma state = None ∧ ∃ source destination,
            events = [EvCopyFile source destination]
            ∧ copyFileSync env source destination = Thrown message)
         ∨ (∃ client, connect env (url client) = Thrown message
                      ∧ prisma state = None
                      ∧ getDatabase state' = Returned client
                      ∧ initDatabase env state' = (Returned client, state', []))
     end)
  ∧ (let '(r, state', events) := closeDatabase env state in
     match r with
     | Returned _ =>
         getDatabase state'
         = Thrown (u "Database not initialized. Call initDatabase first.")
     | Thrown message => state' = state ∧ ∃ client, getDatabase state' = Returned client
     end).
Proof.
  split; [done|]. split.
  - unfold initDatabase at 1. destruct state as [[client|]]; cbn [prisma]; [done|].
    assert (Hopen : ∀ dbPath events,
               let '(r, state', evs) := open_client env dbPath events in
               match r with
               | Returned client =>
                   getDatabase state' = Returned client
                   ∧ initDatabase env state' = (Returned client, state', [])
               | Thrown message =>
                   ∃ client, connect env (url client) = Thrown message
                             ∧ getDatabase state' = Returned client
                             ∧ initDatabase env state' = (Returned client, state', [])
               end).
    { intros dbPath events. unfold open_client. cbn [url].
      destruct (connect env (u "file:" ++ dbPath)) as [[]|m] eqn:Hc; [by split|].
      by exists {| url := u "file:" ++ dbPath |}. }
    destruct (negb (isPackaged env)).
    + specialize (Hopen (join env [process_cwd env; u "prisma"; u "dev.db"]) []).
      destruct (open_client _ _ _) as [[[c|m] st] evs]; [exact Hopen|].
      right. destruct Hopen as (c & ? & ? & ?). by exists c.
    + destruct (negb (existsSync env _) && existsSync env _).
      * destruct (copyFileSync env _ _) as [[]|m] eqn:Hcopy.
        -- specialize (Hopen (join env [userData env; u "open-cowork.db"])
                         [EvCopyFile (join env [resourcesPath env; u "prisma"; u "dev.db"])
                            (join env [userData env; u "open-cowork.db"])]).
           destruct (open_client _ _ _) as [[[c|m] st] evs]; [exact Hopen|].
           right. destruct Hopen as (c & ? & ? & ?). by exists c.
        -- left. split; [done|]. split; [done|]. by eexists _, _.
      * specialize (Hopen (join env [userData env; u "open-cowork.db"]) []).
        destruct (open_client _ _ _) as [[[c|m] st] evs]; [exact Hopen|].
        right. destruct Hopen as (c & ? & ? & ?). by exists c.
  - unfold closeDatabase. destruct state as [[client|]]; cbn [prisma]; [|done].
    destruct (disconnect env (url client)) as [[]|m]; [done|].
    split; [done|]. by exists client.
Qed.

End DatabaseProps.
